(** * Convenient Discussions: the worker-side comment parser

    A shallow embedding of [src/js/CommentSkeleton.js] (the comment
    constructor, [addAttributes], [setLevels], [getSection]) and of the web
    worker entry point ([setAlarm], [parse], [onMessageFromWindow], appended
    to [src/js/modal.js]), with the theorems that relate them to the
    specification of the parser.

    JavaScript objects that are shared and mutated (the document tree, the
    [cd.comments] and [cd.sections] arrays, the worker's timer) live in an
    explicit world; a [throw] is a result of the computation that keeps the
    mutations made before it. The sources are modelled as they are: where
    the worker uses a member that [CommentSkeleton.js] does not have, the
    use throws as it does when the code runs. *)

From Stdlib Require Import Ascii String ZArith.
From stdpp Require Import gmap strings list fin_maps pretty.

Open Scope string_scope.
Open Scope list_scope.
Open Scope nat_scope.

(** ** Strings: the regular expressions of the source, written out *)

Module Re.

(** [String.prefix p s]: [s] starts with [p]. *)
Definition startsWith (p s : string) : bool := String.prefix p s.

Fixpoint dropChars (n : nat) (s : string) : string :=
  match n, s with
  | S n', String _ s' => dropChars n' s'
  | _, _ => s
  end.

Fixpoint skipSpaces (s : string) : string :=
  match s with
  | String " "%char s' => skipSpaces s'
  | _ => s
  end.

(** Some suffix of [s] satisfies [f]: an unanchored regular expression. *)
Fixpoint anywhere (f : string → bool) (s : string) : bool :=
  f s || match s with
         | EmptyString => false
         | String _ s' => anywhere f s'
         end.

(** [/^H[1-6]$/] *)
Definition headingTag (tagName : string) : bool :=
  match tagName with
  | String "H"%char (String d EmptyString) =>
      bool_decide (d ∈ ["1"; "2"; "3"; "4"; "5"; "6"]%char)
  | _ => false
  end.

(** The captured digit of [/^H([1-6])$/], as a number. *)
Definition headingDepth (tagName : string) : option nat :=
  match tagName with
  | String "H"%char (String d EmptyString) =>
      if bool_decide (d ∈ ["1"; "2"; "3"; "4"; "5"; "6"]%char)
      then Some (Ascii.nat_of_ascii d - 48) else None
  | _ => None
  end.

(** [/float: *(?:left|right)/], anchored at the start of [s]. The run of
    spaces is followed by a letter, so taking all of them loses nothing. *)
Definition floatHere (s : string) : bool :=
  startsWith "float:" s &&
  (let r := skipSpaces (dropChars 6 s) in
   startsWith "left" r || startsWith "right" r).

Definition floatStyle (style : string) : bool := anywhere floatHere style.

(** [/^ *function +/] *)
Definition functionHead (s : string) : bool :=
  let r := skipSpaces s in
  startsWith "function" r && startsWith " " (dropChars 8 r).

(** A string is the sequence of the bytes of its text in UTF-8. The line
    terminators of JavaScript are LF, CR, U+2028 and U+2029; the last two
    are the bytes E2 80 A8 and E2 80 A9. *)
Definition lineFeed : string := String "010"%char EmptyString.
Definition carriageReturn : string := String "013"%char EmptyString.
Definition lineSeparator : string :=
  String "226"%char (String "128"%char (String "168"%char EmptyString)).
Definition paragraphSeparator : string :=
  String "226"%char (String "128"%char (String "169"%char EmptyString)).

(** [s] begins with a line terminator: the dot of a regular expression
    matches no character there. *)
Definition lineTerminator (s : string) : bool :=
  startsWith lineFeed s || startsWith carriageReturn s
  || startsWith lineSeparator s || startsWith paragraphSeparator s.

(** [/^.+=>/]: at least one character that ends no line, then [=>]. *)
Fixpoint arrowAfter (s : string) : bool :=
  match s with
  | EmptyString => false
  | String _ s' =>
      negb (lineTerminator s) && (startsWith "=>" s' || arrowAfter s')
  end.

End Re.

(** ** The document tree

    Elements are objects: the parser and the comments hold references to
    them, and [classList.add] / [setAttribute] are seen through every
    reference. *)

Definition ElemRef := nat.

Record Element := mkElement {
  tagName : string;
  classList : list string;
  attribs : gmap string string;
  parentNode : option ElemRef;
  childElements : list ElemRef;
}.

Definition classList_add (name : string) (el : Element) : Element :=
  mkElement (tagName el)
            (if bool_decide (name ∈ classList el) then classList el
             else classList el ++ [name])
            (attribs el) (parentNode el) (childElements el).

Definition setAttribute (k v : string) (el : Element) : Element :=
  mkElement (tagName el) (classList el) (<[k := v]> (attribs el))
            (parentNode el) (childElements el).

Definition classList_contains (name : string) (el : Element) : bool :=
  bool_decide (name ∈ classList el).

(** ** Values of [cd.g] and [cd.config] *)

Inductive Val :=
| VUndefined
| VBool (b : bool)
| VNum (z : Z)
| VStr (s : string)
| VStrs (l : list string)
| VObj (o : nat).

#[global] Instance Val_eq_dec : EqDecision Val.
Proof. solve_decision. Defined.

Definition truthy (v : Val) : bool :=
  match v with
  | VUndefined => false
  | VBool b => b
  | VNum z => negb (z =? 0)%Z
  | VStr s => negb (bool_decide (s = ""))
  | VStrs _ | VObj _ => true
  end.

(** ** Exceptions *)

Inductive Exn :=
| CdError
| TypeError
| OtherError (what : string).

#[global] Instance Exn_eq_dec : EqDecision Exn.
Proof. solve_decision. Defined.

(** ** Parts, signatures, comments, sections *)

Record Part := mkPart {
  node : ElemRef;
  isHeading : bool;
}.

#[global] Instance Part_eq_dec : EqDecision Part.
Proof. solve_decision. Defined.

Record Signature := mkSignature {
  sig_element : ElemRef;
  sig_date : option Z;
  sig_timestampText : string;
  sig_authorName : string;
  sig_anchor : option string;
  sig_isUnsigned : bool;
}.

(** A reference to a comment object. Every comment that outlives its
    construction is an entry of [cd.comments]; its position there is its
    address. *)
Definition CommentRef := nat.

(** A [CommentSkeleton] object and its own data properties. A field that
    [delete] can remove is an option. The last four are not set by the
    constructor: [targetComment], [targetCommentAuthorName] and [toMe] are
    the properties that the worker assigns, and [section] is the own
    property of that name, which an object of the class never gets (the
    class has an accessor [section] with no setter, see [assignSection]). *)
Record Comment := mkComment {
  id : nat;
  date : option Z;
  timestamp : string;
  authorName : string;
  own : bool;
  anchor : option string;
  isUnsigned : bool;
  parts : option (list Part);
  elements : option (list ElemRef);
  highlightables : option (list ElemRef);
  level : nat;
  followsHeading : bool;
  isOpeningSection : bool;
  openingSectionOfLevel : option nat;
  section : option (string * string);
  targetComment : option CommentRef;
  targetCommentAuthorName : option string;
  toMe : option bool;
}.

Record Section := mkSection {
  sec_id : option nat;
  sec_headline : string;
  sec_anchor : string;
  sec_level : nat;
  sec_comments : list CommentRef;
}.

(** ** The world of the worker *)

(** The [cd] object: [cd.comments], [cd.sections], [cd.g], [cd.config]. *)
Record Cd := mkCd {
  comments : list Comment;
  sections : list Section;
  g : gmap string Val;
  config : gmap string Val;
}.

(** What the parser works on: the document ([cd.g.rootElement], also
    [context.document]) and the registry of comment anchors that
    [resetCommentAnchors] empties. *)
Record Page := mkPage {
  rootElement : gmap ElemRef Element;
  commentAnchors : list string;
}.

(** A message posted to the window: an object, key by key. *)
Inductive MVal :=
| MStr (s : string)
| MComments (cs : list Comment).

(** [console.debug], [console.error], and an exception that no handler
    caught, which ends the run of the event and is reported to the window
    as an error event. These are the lines that the worker's own code
    writes. *)
Inductive Log :=
| LogDebug (what : string)
| LogError (e : Exn)
| Uncaught (e : Exn).

(** A call of a method of [cd.debug]. [debug.js] is not among the sources:
    the calls that the worker makes are recorded in their order, and what
    the module does on them (it measures the time between [startTimer] and
    [stopTimer] and reports) is no part of the world. A call returns. *)
Inductive DebugCall :=
| DebugInit
| StartTimer (label : string)
| StopTimer (label : string)
| LogAndResetEverything.

Record World := mkWorld {
  cd : Cd;
  page : Page;
  firstRun : bool;
  alarmTimeout : option nat;
  timers : gmap nat Z;
  nextTimer : nat;
  outbox : list (gmap string MVal);
  console : list Log;
  debugCalls : list DebugCall;
}.

Definition with_cd (c : Cd) (w : World) : World :=
  mkWorld c (page w) (firstRun w) (alarmTimeout w) (timers w) (nextTimer w)
          (outbox w) (console w) (debugCalls w).

Definition with_page (p : Page) (w : World) : World :=
  mkWorld (cd w) p (firstRun w) (alarmTimeout w) (timers w) (nextTimer w)
          (outbox w) (console w) (debugCalls w).

Definition with_firstRun (b : bool) (w : World) : World :=
  mkWorld (cd w) (page w) b (alarmTimeout w) (timers w) (nextTimer w)
          (outbox w) (console w) (debugCalls w).

Definition with_alarm (a : option nat) (t : gmap nat Z) (n : nat) (w : World)
    : World :=
  mkWorld (cd w) (page w) (firstRun w) a t n (outbox w) (console w)
          (debugCalls w).

Definition with_outbox (o : list (gmap string MVal)) (w : World) : World :=
  mkWorld (cd w) (page w) (firstRun w) (alarmTimeout w) (timers w)
          (nextTimer w) o (console w) (debugCalls w).

Definition with_console (l : list Log) (w : World) : World :=
  mkWorld (cd w) (page w) (firstRun w) (alarmTimeout w) (timers w)
          (nextTimer w) (outbox w) l (debugCalls w).

Definition with_debugCalls (d : list DebugCall) (w : World) : World :=
  mkWorld (cd w) (page w) (firstRun w) (alarmTimeout w) (timers w)
          (nextTimer w) (outbox w) (console w) d.

(** ** Computations that mutate the world and may throw *)

Definition M (A : Type) : Type := World → (Exn + A) * World.

#[global] Instance M_ret : MRet M := λ A a w, (inr a, w).

#[global] Instance M_bind : MBind M := λ A B f m w,
  match m w with
  | (inr a, w') => f a w'
  | (inl e, w') => (inl e, w')
  end.

Definition throw {A} (e : Exn) : M A := λ w, (inl e, w).

(** [try { m } catch (e) { h e }] *)
Definition tryCatch {A} (m : M A) (h : Exn → M A) : M A := λ w,
  match m w with
  | (inr a, w') => (inr a, w')
  | (inl e, w') => h e w'
  end.

Definition gets {A} (f : World → A) : M A := λ w, (inr (f w), w).
Definition modify (f : World → World) : M unit := λ w, (inr (), f w).

(** [l.forEach(f)] *)
Fixpoint forEach {A} (l : list A) (f : A → M unit) : M unit :=
  match l with
  | [] => mret ()
  | x :: l' => f x ≫= λ _, forEach l' f
  end.

(** [l.filter(f)] for a predicate that reads the world and may throw. *)
Fixpoint filterM {A} (f : A → M bool) (l : list A) : M (list A) :=
  match l with
  | [] => mret []
  | x :: l' =>
      b ← f x;
      r ← filterM f l';
      mret (if b : bool then x :: r else r)
  end.

(** A method of the parser. [Parser.js], [SectionSkeleton.js] and
    [timestamp.js] are not among the sources; their methods are taken as
    operations that read the [cd] object, work on the page (the document
    and the anchor registry), and may throw. They leave [cd.comments] and
    [cd.sections] to the worker, which is where the sources change them. *)
Definition Op (A : Type) : Type := Cd → Page → (Exn + A) * Page.

Definition liftOp {A} (o : Op A) : M A := λ w,
  let '(r, p) := o (cd w) (page w) in (r, with_page p w).

(** ** The parser, as the constructor and the worker call it

    The methods of [Parser] that [CommentSkeleton.js] and the worker call,
    and [createSection] for [new SectionSkeleton(parser, heading)]. *)

Class Parser := {
  Timestamp : Type;
  Heading : Type;
  findTimestamps : Op (list Timestamp);
  findSignatures : list Timestamp → Op (list Signature);
  collectParts : ElemRef → Op (list Part);
  removeNestedParts : list Part → Op (list Part);
  encloseInlineParts : list Part → ElemRef → Op (list Part);
  filterParts : list Part → Op (list Part);
  replaceListsWithItems : list Part → ElemRef → Op (list Part);
  getLevelsUpTree : ElemRef → string → Op (list ElemRef);
  findHeadings : Op (list Heading);
  createSection : Heading → Op Section;
}.

(** What the worker takes from its environment: [parseDOM] of
    [htmlparser2Extended], [eval] on a source text, the conversion of an
    opaque object to a string, and the static globals [cd.g] starts from. *)
Class Runtime := {
  parseDOM : string → Exn + gmap ElemRef Element;
  evalSource : string → Exn + Val;
  objToString : nat → string;
  staticGlobals : gmap string Val;
}.

(** ** [CommentSkeleton.js] *)

(** [el.something] on a reference: a node that is no element of the
    document has none of the properties the constructor reads. *)
Definition getEl (el : ElemRef) : M Element := λ w,
  match rootElement (page w) !! el with
  | Some e => (inr e, w)
  | None => (inl TypeError, w)
  end.

Definition updEl (el : ElemRef) (f : Element → Element) : M unit := λ w,
  match rootElement (page w) !! el with
  | Some e =>
      (inr (), with_page (mkPage (<[el := f e]> (rootElement (page w)))
                                 (commentAnchors (page w))) w)
  | None => (inl TypeError, w)
  end.

(** The three conjuncts of [isHighlightable], on an element. *)
Definition unhighlightableClass (names : list string) (e : Element) : bool :=
  existsb (λ name, classList_contains name e) names.

Definition floated (e : Element) : bool :=
  match attribs e !! "style" with
  | Some style => Re.floatStyle style
  | None => false
  end.

(** [isHighlightable], lines 114-118. [&&] stops at the first conjunct
    that fails, so a heading never reaches [cd.g]. *)
Definition isHighlightable (el : ElemRef) : M bool :=
  e ← getEl el;
  if Re.headingTag (tagName e) then mret false
  else
    names ← gets (λ w, g (cd w) !! "UNHIGHLIGHTABLE_ELEMENTS_CLASSES");
    match names with
    | Some (VStrs names) =>
        if unhighlightableClass names e then mret false
        else mret (negb (floated e))
    | _ => throw TypeError
    end.

(** [addAttributes], lines 174-184. *)
Definition addAttributes (this_anchor : option string) (this_id : nat)
    (this_elements : list ElemRef) : M unit :=
  match this_elements with
  | [] => throw TypeError
  | first :: _ =>
      e ← getEl first;
      (if bool_decide (this_anchor ≠ None ∧ this_anchor ≠ Some "") &&
          bool_decide (attribs e !! "id" = None ∨ attribs e !! "id" = Some "")
       then updEl first (setAttribute "id" (default "" this_anchor))
       else mret ());;
      updEl first (classList_add "cd-commentPart-first");;
      updEl (List.last this_elements first) (classList_add "cd-commentPart-last");;
      forEach this_elements (λ el,
        updEl el (classList_add "cd-commentPart");;
        updEl el (setAttribute "data-comment-id" (pretty this_id)))
  end.

Section CommentSkeleton.
Context `{Parser}.

(** Lines 31-46 of the constructor: the parts of the comment. *)
Definition constructor_parts (signature : Signature) : M (list Part) :=
  parts ← liftOp (collectParts (sig_element signature));
  parts ← liftOp (removeNestedParts parts);
  parts ← liftOp (encloseInlineParts parts (sig_element signature));
  parts ← liftOp (filterParts parts);
  liftOp (replaceListsWithItems (rev parts) (sig_element signature)).

Definition addLevelClasses (el : ElemRef) (i : nat) : M unit :=
  updEl el (classList_add "cd-commentLevel");;
  updEl el (classList_add ("cd-commentLevel-" +:+ pretty (i + 1))).

(** [setLevels], lines 192-216; the value is [this.level]. It runs after
    the check that [highlightables] is not empty. *)
Definition setLevels (this_elements this_highlightables : list ElemRef)
    : M nat :=
  match this_highlightables with
  | [] => throw TypeError
  | h0 :: _ =>
      top ← liftOp (getLevelsUpTree h0 "top");
      bottom ← (if bool_decide (1 < length this_elements)
                then liftOp (getLevelsUpTree
                               (List.last this_highlightables h0) "bottom")
                else mret top);
      let level := length top `min` length bottom in
      forEach (seq 0 level) (λ i,
        match top !! i with
        | Some t => addLevelClasses t i
        | None => mret ()
        end;;
        match bottom !! i with
        | Some b =>
            if bool_decide (Some b ≠ top !! i) then addLevelClasses b i
            else mret ()
        | None => mret ()
        end);;
      mret level
  end.

(** Lines 54-166 of the constructor, on the parts collected. *)
Definition constructor_body (signature : Signature) (parts0 : list Part)
    : M Comment :=
  this_id ← gets (λ w, length (comments (cd w)));
  currentUser ← gets (λ w, g (cd w) !! "CURRENT_USER_NAME");
  let this_own :=
    bool_decide (currentUser = Some (VStr (sig_authorName signature))) in
  let elements0 := map node parts0 in
  this_highlightables ← filterM isHighlightable elements0;
  if bool_decide (this_highlightables = []) then throw CdError
  else
    addAttributes (sig_anchor signature) this_id elements0;;
    this_level ← setLevels elements0 this_highlightables;
    match parts0 with
    | [] => throw TypeError
    | p0 :: _ =>
        let this_followsHeading := if isHeading p0 then true else true in
        let spliced := isHeading p0 && negb (this_level =? 0)%nat in
        let this_parts := if spliced then tail parts0 else parts0 in
        let this_elements := if spliced then tail elements0 else elements0 in
        match this_parts with
        | [] => throw TypeError
        | q0 :: _ =>
            opening ←
              (if isHeading q0
               then e ← getEl (node q0);
                    mret (true, Re.headingDepth (tagName e))
               else mret (false, None));
            mret (mkComment this_id (sig_date signature)
                    (sig_timestampText signature) (sig_authorName signature)
                    this_own (sig_anchor signature) (sig_isUnsigned signature)
                    (Some this_parts) (Some this_elements)
                    (Some this_highlightables) this_level
                    this_followsHeading opening.1 opening.2
                    None None None None)
        end
    end.

(** [new CommentSkeleton(parser, signature)] *)
Definition constructor (signature : Signature) : M Comment :=
  parts ← constructor_parts signature;
  constructor_body signature parts.

(** [getSection], lines 224-232, for the comment at [this]:
    [cd.sections.slice().reverse().find(...) || null]. *)
Definition getSection (this : CommentRef) (cd_sections : list Section)
    : option Section :=
  List.find (λ section, bool_decide (this ∈ sec_comments section))
            (rev cd_sections).

(** The getter [section], lines 239-244: [#cachedSection] is [undefined]
    ([None]) until the first access, and holds the section found, or
    [null], from then on. *)
Definition section_getter (this : CommentRef) (cachedSection : option (option Section))
    (cd_sections : list Section) : option Section * option (option Section) :=
  match cachedSection with
  | None => let found := getSection this cd_sections in (found, Some found)
  | Some cached => (cached, cachedSection)
  end.

End CommentSkeleton.

(** ** The worker ([worker.js], the second part of [src/js/modal.js]) *)

(** The messages of the window, [e.data]: an object with a [type] and the
    fields that type comes with. *)
Record WindowMessage := mkWindowMessage {
  msg_type : string;
  msg_interval : Z;
  msg_text : string;
  msg_g : gmap string Val;
  msg_config : gmap string Val;
}.

Definition set_comments (cs : list Comment) (c : Cd) : Cd :=
  mkCd cs (sections c) (g c) (config c).
Definition set_sections (ss : list Section) (c : Cd) : Cd :=
  mkCd (comments c) ss (g c) (config c).
Definition set_g (m : gmap string Val) (c : Cd) : Cd :=
  mkCd (comments c) (sections c) m (config c).
Definition set_config (m : gmap string Val) (c : Cd) : Cd :=
  mkCd (comments c) (sections c) (g c) m.

Definition setCd (f : Cd → Cd) : M unit := modify (λ w, with_cd (f (cd w)) w).

Definition postMessage (m : gmap string MVal) : M unit :=
  modify (λ w, with_outbox (outbox w ++ [m]) w).

Definition console_log (l : Log) : M unit :=
  modify (λ w, with_console (console w ++ [l]) w).

(** [cd.debug.startTimer(label)], [cd.debug.stopTimer(label)] and
    [cd.debug.logAndResetEverything()]; [cd.debug.init()] is called when
    the module of the worker is loaded (line 1262). *)
Definition debugCall (c : DebugCall) : M unit :=
  modify (λ w, with_debugCalls (debugCalls w ++ [c]) w).

Definition startTimer (label : string) : M unit :=
  debugCall (StartTimer label).

Definition stopTimer (label : string) : M unit :=
  debugCall (StopTimer label).

Definition logAndResetEverything : M unit := debugCall LogAndResetEverything.

(** Modelled from the spec: [resetCommentAnchors] of [timestamp.js], which
    is not among the sources; the anchor registry is per-parse state that a
    parse resets on receipt (§4.6). *)
Definition resetCommentAnchors : M unit :=
  modify (λ w, with_page (mkPage (rootElement (page w)) []) w).

(** [clearTimeout]: of [undefined], or of a timer that is no longer
    pending, it does nothing. *)
Definition clearTimeout (t : option nat) : M unit :=
  modify (λ w, match t with
               | Some i => with_alarm (alarmTimeout w) (delete i (timers w))
                                      (nextTimer w) w
               | None => w
               end).

(** [setAlarm], lines 1286-1291. The callback of the only [setTimeout] of
    the worker posts [wakeUp]; a pending timer is its id and interval. *)
Definition setAlarm (interval : Z) : M unit :=
  t ← gets alarmTimeout;
  clearTimeout t;;
  modify (λ w, with_alarm (Some (nextTimer w))
                          (<[nextTimer w := interval]> (timers w))
                          (S (nextTimer w)) w).

Definition wakeUp : gmap string MVal := {[ "type" := MStr "wakeUp" ]}.

(** A pending timer expires: it is pending no more and its callback runs. *)
Definition fire (t : nat) : M unit := λ w,
  match timers w !! t with
  | Some _ =>
      postMessage wakeUp
        (with_alarm (alarmTimeout w) (delete t (timers w)) (nextTimer w) w)
  | None => (inr (), w)
  end.

(** Field updates of a comment object. *)
Definition set_targetComment (t : option CommentRef) (c : Comment) : Comment :=
  mkComment (id c) (date c) (timestamp c) (authorName c) (own c) (anchor c)
    (isUnsigned c) (parts c) (elements c) (highlightables c) (level c)
    (followsHeading c) (isOpeningSection c) (openingSectionOfLevel c)
    (section c) t (targetCommentAuthorName c) (toMe c).

(** [targetCommentAuthorName] and [toMe] set, [targetComment] deleted. *)
Definition set_target_data (name : string) (me : bool) (c : Comment) : Comment :=
  mkComment (id c) (date c) (timestamp c) (authorName c) (own c) (anchor c)
    (isUnsigned c) (parts c) (elements c) (highlightables c) (level c)
    (followsHeading c) (isOpeningSection c) (openingSectionOfLevel c)
    (section c) None (Some name) (Some me).

(** [delete comment.elements; delete comment.parts;
    delete comment.highlightables]. The other deleted names are methods and
    caches, which are no data of the record. *)
Definition delete_internals (c : Comment) : Comment :=
  mkComment (id c) (date c) (timestamp c) (authorName c) (own c) (anchor c)
    (isUnsigned c) None None None (level c)
    (followsHeading c) (isOpeningSection c) (openingSectionOfLevel c)
    (section c) (targetComment c) (targetCommentAuthorName c) (toMe c).

Definition getComment (r : CommentRef) : M Comment := λ w,
  match comments (cd w) !! r with
  | Some c => (inr c, w)
  | None => (inl TypeError, w)
  end.

Definition updComment (r : CommentRef) (f : Comment → Comment) : M unit :=
  c ← getComment r;
  setCd (λ c', set_comments (<[r := f c]> (comments c')) c').

(** The handler of both loops of [parse]: a [CdError] is dropped, anything
    else goes to [console.error]; the loop goes on. *)
Definition catchCd (m : M unit) : M unit :=
  tryCatch m (λ e, if bool_decide (e = CdError) then mret ()
                   else console_log (LogError e)).

Definition toString `{Runtime} (v : Val) : string :=
  match v with
  | VUndefined => "undefined"
  | VBool true => "true"
  | VBool false => "false"
  | VNum z => pretty z
  | VStr s => s
  | VStrs l => String.concat "," l
  | VObj o => objToString o
  end.

(** [eval(v)]: a string is evaluated as source text, anything else is
    returned as it is. *)
Definition jsEval `{Runtime} (v : Val) : M Val :=
  match v with
  | VStr s => match evalSource s with
              | inl e => throw e
              | inr r => mret r
              end
  | _ => mret v
  end.

Section Worker.
Context `{Parser, Runtime}.

(** Modelled from the spec: [Parser.createComment] of [Parser.js], which
    is not among the sources; it builds the comment with the comment
    class of the context, [CommentSkeleton] in the worker. *)
Definition createComment (signature : Signature) : M Comment :=
  constructor signature.

(** The body of the first loop of [parse], lines 1315-1326. A
    [CommentSkeleton] always has an [id], so the test before [push]
    passes. *)
Definition processSignature (signature : Signature) : M unit :=
  catchCd (comment ← createComment signature;
           setCd (λ c, set_comments (comments c ++ [comment]) c)).

(** The body of the second loop, lines 1331-1342. *)
Definition processHeading (heading : Heading) : M unit :=
  catchCd (section ← liftOp (createSection heading);
           if sec_id section is Some _
           then setCd (λ c, set_sections (sections c ++ [section]) c)
           else mret ()).

(** [comment.getChildren()], line 1346. [CommentSkeleton] declares no
    method [getChildren], and neither its constructor nor the worker gives
    a comment one: the property is [undefined], and the call of it is a
    [TypeError]. *)
Definition getChildren (comment : CommentRef) : M (list CommentRef) :=
  throw TypeError.

(** [comment.section = { headline, anchor }], lines 1350-1353. In
    [CommentSkeleton], [section] is an accessor with a getter and no
    setter (lines 239-244); the worker is a module, its code is strict, and
    the assignment is a [TypeError]. *)
Definition assignSection (comment : CommentRef) (s : string * string)
    : M unit :=
  throw TypeError.

(** The body of the third loop, lines 1345-1370, for the comment at
    [comment] in [cd.comments]. *)
Definition identifyReplies (comment : CommentRef) : M unit :=
  children ← getChildren comment;
  forEach children (λ reply,
    updComment reply (set_targetComment (Some comment)));;
  cd_sections ← gets (λ w, sections (cd w));
  match getSection comment cd_sections with
  | Some s => assignSection comment (sec_headline s, sec_anchor s)
  | None => mret ()
  end;;
  c ← getComment comment;
  match targetComment c with
  | Some t =>
      target ← getComment t;
      updComment comment (set_target_data (authorName target) (own target))
  | None => mret ()
  end;;
  updComment comment delete_internals.

Definition parseMessage (cs : list Comment) : gmap string MVal :=
  <[ "type" := MStr "parse" ]> {[ "comments" := MComments cs ]}.

(** [parse], lines 1298-1384. [cd.comments.forEach] visits the indices
    below the length that the array has when the loop begins. *)
Definition parse : M unit :=
  setCd (set_comments []);;
  setCd (set_sections []);;
  resetCommentAnchors;;
  startTimer "processing comments";;
  startTimer "find timestamps";;
  timestamps ← liftOp findTimestamps;
  stopTimer "find timestamps";;
  startTimer "find signatures";;
  signatures ← liftOp (findSignatures timestamps);
  stopTimer "find signatures";;
  forEach signatures processSignature;;
  stopTimer "processing comments";;
  startTimer "processing sections";;
  headings ← liftOp findHeadings;
  forEach headings processHeading;;
  startTimer "identifying replies";;
  n ← gets (λ w, length (comments (cd w)));
  forEach (seq 0 n) identifyReplies;;
  stopTimer "identifying replies";;
  stopTimer "processing sections";;
  startTimer "post message from the worker";;
  cs ← gets (λ w, comments (cd w));
  postMessage (parseMessage cs);;
  stopTimer "post message from the worker";;
  stopTimer "worker operations";;
  logAndResetEverything.

Definition pageHasOutdents (doc : gmap ElemRef Element) : bool :=
  existsb (λ kv, classList_contains "outdent-template" kv.2)
          (map_to_list doc).

(** The [parse] branch of [onMessageFromWindow], lines 1408-1442. The
    document, [cd.g.rootElement] and [context.document], is the page of the
    world; [cd.g.specialElements] is an object of one field, kept under the
    name of that field. *)
Definition receiveParse (message : WindowMessage) : M unit :=
  startTimer "worker operations";;
  setCd (λ c, set_g (msg_g message ∪ g c) c);;
  setCd (set_config (msg_config message));;
  checker ← gets (λ w, default VUndefined
                         (config (cd w) !! "checkForCustomForeignComponents"));
  let checker :=
    if truthy checker && negb (Re.functionHead (toString checker))
       && negb (Re.arrowAfter (toString checker))
    then VStr ("function " +:+ toString checker) else checker in
  checker ← jsEval checker;
  setCd (λ c, set_config
                (<["checkForCustomForeignComponents" := checker]> (config c)) c);;
  parser ← gets (λ w, default VUndefined (g (cd w) !! "TIMESTAMP_PARSER"));
  parser ← jsEval parser;
  setCd (λ c, set_g (<["TIMESTAMP_PARSER" := parser]> (g c)) c);;
  startTimer "parse html";;
  doc ← (match parseDOM (msg_text message) with
         | inl e => throw e
         | inr doc => mret doc
         end);
  stopTimer "parse html";;
  modify (λ w, with_page (mkPage doc (commentAnchors (page w))) w);;
  setCd (λ c, set_g (<["specialElements.pageHasOutdents" :=
                        VBool (pageHasOutdents doc)]> (g c)) c);;
  parse.

(** The line of [console.debug], line 1396. *)
Definition loadedNotice : string :=
  "Convenient Discussions' web worker has been successfully loaded. Click the link from the file name and line number to open the source code in your debug tool. Note that there is a bug in Chrome (https://bugs.chromium.org/p/chromium/issues/detail?id=1111297) that prevents opening the source code in that browser while it's OK in Firefox.".

(** [onMessageFromWindow], lines 1393-1443. *)
Definition onMessageFromWindow (message : WindowMessage) : M unit :=
  first ← gets firstRun;
  (if first : bool
   then console_log (LogDebug loadedNotice);;
        modify (with_firstRun false)
   else mret ());;
  (if bool_decide (msg_type message = "setAlarm")
   then setAlarm (msg_interval message) else mret ());;
  (if bool_decide (msg_type message = "removeAlarm")
   then t ← gets alarmTimeout; clearTimeout t else mret ());;
  (if bool_decide (msg_type message = "parse")
   then receiveParse message else mret ()).

(** What happens in the worker: a message arrives, or a timer expires. *)
Inductive Event :=
| Receive (message : WindowMessage)
| Expire (timer : nat).

Definition handler (ev : Event) : M unit :=
  match ev with
  | Receive message => onMessageFromWindow message
  | Expire t => fire t
  end.

(** One turn of the event loop. *)
Definition step (w : World) (ev : Event) : World :=
  match handler ev w with
  | (inr _, w') => w'
  | (inl e, w') => with_console (console w' ++ [Uncaught e]) w'
  end.

Definition run (evs : list Event) (w : World) : World :=
  fold_left step evs w.

(** The worker when its module has been loaded, lines 1259-1264: [cd.g]
    is the static globals, [cd.debug.init()] has been called, nothing was
    parsed, no alarm is set. *)
Definition init : World :=
  mkWorld (mkCd [] [] staticGlobals ∅) (mkPage ∅ []) true None ∅ 0 [] []
          [DebugInit].

End Worker.
(** ** Utilities ([src/js/util.js]) *)

(** JavaScript's truthiness of a string that may be missing. *)
Definition nonEmpty (s : option string) : bool :=
  match s with
  | Some s => negb (bool_decide (s = ""))
  | None => false
  end.

Module Util.

(** [arr.indexOf(item)]: the first index at which [item] is, or [-1].
    Strict equality is equality of the values (there is no [NaN] among
    them). *)
Fixpoint indexOfFrom `{EqDecision A} (arr : list A) (item : A) (i : Z) : Z :=
  match arr with
  | [] => -1
  | x :: arr' =>
      if decide (x = item) then i else indexOfFrom arr' item (i + 1)
  end.

Definition indexOf `{EqDecision A} (arr : list A) (item : A) : Z :=
  indexOfFrom arr item 0.

(** [unique], lines 21-23. *)
Definition unique `{EqDecision A} (item : A) (pos : nat) (arr : list A) : bool :=
  bool_decide (indexOf arr item = Z.of_nat pos).

(** [arr.filter(callback)]: the callback is given the item, its index and
    the array. *)
Fixpoint filterFrom {A} (callback : A → nat → list A → bool) (arr : list A)
    (pos : nat) (rest : list A) : list A :=
  match rest with
  | [] => []
  | item :: rest' =>
      if callback item pos arr
      then item :: filterFrom callback arr (S pos) rest'
      else filterFrom callback arr (S pos) rest'
  end.

Definition filter {A} (callback : A → nat → list A → bool) (arr : list A)
    : list A :=
  filterFrom callback arr 0 arr.

(** What [slice] makes of an index, for an array of length [len]: a
    negative index counts from the end, and nothing is outside the
    array. *)
Definition relativeIndex (len : nat) (i : Z) : nat :=
  if (i <? 0)%Z then Z.to_nat (Z.max (Z.of_nat len + i) 0)
  else Z.to_nat (Z.min i (Z.of_nat len)).

(** [arr.slice(start, end)], and [arr.slice(start)] without an end. *)
Definition slice {A} (arr : list A) (start : Z) (final : option Z) : list A :=
  let k := relativeIndex (length arr) start in
  let e := match final with
           | Some e => relativeIndex (length arr) e
           | None => length arr
           end in
  take (e - k) (drop k arr).

(** [reorderArray], lines 178-187. *)
Definition reorderArray {A} (arr : list A) (startIndex : Z) (reverse : bool)
    : list A :=
  if reverse
  then rev (slice arr (startIndex + 1) None
            ++ slice arr 0 (Some (startIndex + 1)%Z))
  else slice arr startIndex None ++ slice arr 0 (Some startIndex).

(** [s.replace(regexp, replacement)] for a global regular expression
    that matches no empty string, and a replacement without patterns.
    [matchAt s] is the length of the match that begins [s], or 0; the
    search goes on after each match, so [skip] characters of a match are
    passed over. *)
Fixpoint replaceAll (matchAt : string → nat) (replacement : string)
    (skip : nat) (s : string) : string :=
  match s with
  | "" => ""
  | String c s' =>
      match skip with
      | S k => replaceAll matchAt replacement k s'
      | 0 =>
          match matchAt s with
          | S k => replacement +:+ replaceAll matchAt replacement k s'
          | 0 => String c (replaceAll matchAt replacement 0 s')
          end
      end
  end.

(** A regular expression of one character. *)
Definition oneChar (c : ascii) (s : string) : nat :=
  match s with
  | String c' _ => if bool_decide (c' = c) then 1 else 0
  | "" => 0
  end.

(** The spaces that begin [s]. *)
Fixpoint spaceRun (s : string) : nat :=
  match s with
  | String " "%char s' => S (spaceRun s')
  | _ => 0
  end.

(** [/ {2,}/]: the quantifier is greedy and takes the whole run. *)
Definition twoSpaces (s : string) : nat :=
  if bool_decide (2 ≤ spaceRun s) then spaceRun s else 0.

(** [underlinesToSpaces], lines 224-226; [spacesToUnderlines], lines
    234-236; [removeDoubleSpaces], lines 244-246. *)
Definition underlinesToSpaces (s : string) : string :=
  replaceAll (oneChar "_") " " 0 s.

Definition spacesToUnderlines (s : string) : string :=
  replaceAll (oneChar " ") "_" 0 s.

Definition removeDoubleSpaces (s : string) : string :=
  replaceAll twoSpaces " " 0 s.

(** [findLastIndex], lines 306-313: [i] goes from [n - 1] down to 0. *)
Fixpoint findLastIndexFrom {A} (arr : list A) (callback : A → bool) (n : nat)
    : option nat :=
  match n with
  | 0 => None
  | S i =>
      if match arr !! i with
         | Some x => callback x
         | None => false
         end
      then Some i
      else findLastIndexFrom arr callback i
  end.

Definition findLastIndex {A} (arr : list A) (callback : A → bool) : option nat :=
  findLastIndexFrom arr callback (length arr).

(** [isProbablyTalkPage], lines 111-120. The two regular expressions of
    [cd.g] are [null] or tested on the page name; [%] is the remainder
    of the division that truncates. *)
Definition isProbablyTalkPage (PAGE_WHITE_LIST_REGEXP
      PAGE_BLACK_LIST_REGEXP : option (string → bool))
    (customTalkNamespaces : list Z) (pageName : string) (namespaceNumber : Z)
    : bool :=
  (bool_decide (Z.rem namespaceNumber 2 = 1%Z)
   || match PAGE_WHITE_LIST_REGEXP with
      | Some test => test pageName
      | None => false
      end
   || match PAGE_WHITE_LIST_REGEXP with
      | Some _ => false
      | None => bool_decide (namespaceNumber ∈ customTalkNamespaces)
      end)
  && negb match PAGE_BLACK_LIST_REGEXP with
          | Some test => test pageName
          | None => false
          end.

(** [haystack.includes(needle)] *)
Definition includes (needle haystack : string) : bool :=
  Re.anywhere (Re.startsWith needle) haystack.

(** [isCommentEdit], lines 128-136, for the two phrases that [cd.s]
    gives: the edit of a reply and the edit of an addition. A summary
    that is missing or empty is falsy. *)
Definition isCommentEdit (editOfReply editOfAddition : string)
    (summary : option string) : bool :=
  match summary with
  | Some text =>
      negb (bool_decide (text = ""))
      && (includes editOfReply text || includes editOfAddition text)
  | None => false
  end.

End Util.

(** A string has the character [c]. *)
Fixpoint hasChar (c : ascii) (s : string) : bool :=
  match s with
  | "" => false
  | String c' s' => bool_decide (c' = c) || hasChar c s'
  end.

(** Each [a] of a string replaced by [b]. *)
Fixpoint mapChar (a b : ascii) (s : string) : string :=
  match s with
  | "" => ""
  | String c s' => String (if bool_decide (c = a) then b else c) (mapChar a b s')
  end.

(** A string has two spaces in a row. *)
Definition hasDoubleSpace (s : string) : bool :=
  Re.anywhere (Re.startsWith "  ") s.

(** ** The window's side of the worker ([src/js/navPanel.js]) *)

Module NavPanel.

(** [setAlarmViaWorker], lines 49-54, and [removeAlarmViaWorker], lines
    61-63: the message posted to the worker. A message has the fields of
    its type; the others are at their defaults. *)
Definition setAlarmViaWorker (interval : Z) : WindowMessage :=
  mkWindowMessage "setAlarm" interval "" ∅ ∅.

Definition removeAlarmViaWorker : WindowMessage :=
  mkWindowMessage "removeAlarm" 0 "" ∅ ∅.

(** The messages of [navPanel.reset], lines 666-667, for the value of
    [cd.g.CHECK_FOR_NEW_COMMENTS_INTERVAL]. *)
Definition resetMessages (checkInterval : Z) : list WindowMessage :=
  [removeAlarmViaWorker; setAlarmViaWorker (checkInterval * 1000)].

(** A revision of the page, as the API returns it. *)
Record Revision := mkRevision {
  revid : Z;
  rev_minor : bool;
  rev_size : Z;
  rev_comment : option string;
}.

(** The revisions that [checkForNewComments] takes for new comments,
    lines 124-131: not the first one, which is the revision asked from,
    not a minor edit, one that changes the size by
    [cd.config.bytesToDeemComment] or more, and no edit of a comment. *)
Definition addedNewRevisions (bytesToDeemComment : Z)
    (editOfReply editOfAddition : string) (revisions : list Revision)
    : list Z :=
  map revid
    (Util.filter
       (λ revision i revisions,
          negb (i =? 0)
          && negb (rev_minor revision)
          && (bytesToDeemComment
              <=? Z.abs (rev_size revision
                         - match revisions !! (i - 1)%nat with
                           | Some previous => rev_size previous
                           | None => 0
                           end))%Z
          && negb (Util.isCommentEdit editOfReply editOfAddition
                                      (rev_comment revision)))
       revisions).

(** A comment of the page as the navigation panel reads and marks it:
    the time of [comment.date] in milliseconds, the anchor, [own], and
    [newness], which is [null], ['new'] or ['unseen']. *)
Record PageComment := mkPageComment {
  pc_date : option Z;
  pc_anchor : option string;
  pc_own : bool;
  pc_newness : option string;
}.

Definition set_newness (newness : option string) (comment : PageComment)
    : PageComment :=
  mkPageComment (pc_date comment) (pc_anchor comment) (pc_own comment) newness.

(** The cleanup of [processVisits], lines 598-603, for the visits as
    numbers (they are kept as the strings of numbers, and compared as
    numbers): [i] goes from [n - 1] down, and at the first visit older
    than [oldest] the visits before it are spliced off. *)
Fixpoint cleanupFrom (thisPageVisits : list Z) (oldest : Z) (n : nat)
    : list Z :=
  match n with
  | 0 => thisPageVisits
  | S i =>
      if match thisPageVisits !! i with
         | Some visit => (visit <? oldest)%Z
         | None => false
         end
      then drop i thisPageVisits
      else cleanupFrom thisPageVisits oldest i
  end.

Definition cleanup (thisPageVisits : list Z)
    (currentUnixTime HIGHLIGHT_NEW_COMMENTS_INTERVAL : Z) : list Z :=
  cleanupFrom thisPageVisits
              (currentUnixTime - 60 * HIGHLIGHT_NEW_COMMENTS_INTERVAL)
              (length thisPageVisits).

(** [Math.floor(comment.date.getTime() / 1000)] *)
Definition unixTime (milliseconds : Z) : Z := (milliseconds `div` 1000)%Z.

(** The callback of the filter of [processVisits], lines 606-627, for
    visits that begin with [first] and end with [latest]: the comment as
    it is marked, and whether the filter keeps it. *)
Definition markComment (first latest : Z)
    (memorizedUnseenCommentAnchors : list string) (comment : PageComment)
    : PageComment * bool :=
  match pc_date comment with
  | None => (set_newness None comment, false)
  | Some date =>
      let isUnseen :=
        existsb (λ anchor, bool_decide (Some anchor = pc_anchor comment))
                memorizedUnseenCommentAnchors in
      let commentUnixTime := unixTime date in
      if (first <? commentUnixTime)%Z
      then (set_newness
              (Some (if (latest <? commentUnixTime)%Z
                        && negb (pc_own comment) || isUnseen
                     then "unseen" else "new")) comment,
            true)
      else (set_newness None comment, false)
  end.

(** Lines 605-627: the comments as they are marked, and [newComments].
    Without an earlier visit nothing is marked. *)
Definition markNew (thisPageVisits : list Z)
    (memorizedUnseenCommentAnchors : list string)
    (cd_comments : list PageComment) : list PageComment * list PageComment :=
  match thisPageVisits with
  | [] => (cd_comments, [])
  | first :: _ =>
      let results :=
        map (markComment first (List.last thisPageVisits first)
                         memorizedUnseenCommentAnchors) cd_comments in
      (map fst results, map fst (List.filter snd results))
  end.

(** [fill], lines 684-695: [newCount] and [unseenCount]. A newness is
    truthy when it is a string that is not empty. *)
Definition newCount (cd_comments : list PageComment) : nat :=
  length (List.filter (λ comment, nonEmpty (pc_newness comment)) cd_comments).

Definition unseenCount (cd_comments : list PageComment) : nat :=
  length (List.filter (λ comment,
                         bool_decide (pc_newness comment = Some "unseen"))
                      cd_comments).

(** [goToNextNewComment], lines 766-780, and [goToPreviousNewComment],
    lines 747-761: the comment that is scrolled to, for the id of the
    comment found in the viewport. [wanted] is the test
    [comment.newness && comment.isInViewport(true) === false]. *)
Definition nextNewComment {A} (wanted : A → bool) (cd_comments : list A)
    (foundId : nat) : option A :=
  List.find wanted (Util.reorderArray cd_comments (Z.of_nat foundId) false).

Definition previousNewComment {A} (wanted : A → bool) (cd_comments : list A)
    (foundId : nat) : option A :=
  List.find wanted (Util.reorderArray cd_comments (Z.of_nat foundId) true).

End NavPanel.

(** ** Specifications of computations *)

(** [I] is an invariant of [m]: it holds after [m], however [m] ends. *)
Definition keeps {A} (I : World → Prop) (m : M A) : Prop :=
  ∀ w, I w → I (m w).2.

(** From [P], [m] returns into [Q] or throws into [E]. *)
Definition triple {A} (P : World → Prop) (m : M A)
    (Q : A → World → Prop) (E : Exn → World → Prop) : Prop :=
  ∀ w, P w → match m w with
             | (inr a, w') => Q a w'
             | (inl e, w') => E e w'
             end.

(** An element that can be highlighted (§4.3, step 7): no heading, none of
    the classes of [cd.g.UNHIGHLIGHTABLE_ELEMENTS_CLASSES], no float in
    its style. *)
Definition Highlightable (w : World) (el : ElemRef) : Prop :=
  ∃ e names,
    rootElement (page w) !! el = Some e ∧
    g (cd w) !! "UNHIGHLIGHTABLE_ELEMENTS_CLASSES" = Some (VStrs names) ∧
    Re.headingTag (tagName e) = false ∧
    unhighlightableClass names e = false ∧
    floated e = false.


(** A pending timer is the one [alarmTimeout] names. *)
Definition alarm_held (w : World) : Prop :=
  ∀ t, is_Some (timers w !! t) → alarmTimeout w = Some t.

Definition alarm_of (w : World) : option nat * gmap nat Z * nat :=
  (alarmTimeout w, timers w, nextTimer w).


(** What [parse] leaves when it returns: the message of its comments,
    and there are none. *)
Definition parse_posted (o : list (gmap string MVal)) (w' : World) : Prop :=
  outbox w' = o ++ [parseMessage (comments (cd w'))] ∧ comments (cd w') = [].

(** The world once the first message has been noted on the console. *)
Definition noticed (w : World) : World :=
  if firstRun w
  then with_firstRun false
         (with_console (console w ++ [LogDebug loadedNotice]) w)
  else w.

(** [m] run in two worlds related by [R] ends the same way in both, in
    worlds related by [R]. *)
Definition keeps2 {A} (R : World → World → Prop) (m : M A) : Prop :=
  ∀ w1 w2, R w1 w2 → (m w1).1 = (m w2).1 ∧ R (m w1).2 (m w2).2.

(** Two worlds with the same [cd] and the same page, which have posted the
    same messages since their outboxes were [o1] and [o2]. *)
Definition twin (o1 o2 : list (gmap string MVal)) (w1 w2 : World) : Prop :=
  cd w1 = cd w2 ∧ page w1 = page w2 ∧
  ∃ posts, outbox w1 = o1 ++ posts ∧ outbox w2 = o2 ++ posts.

(** [parse] after its three resets. *)
Definition parse_afresh `{Parser} : M unit :=
  startTimer "processing comments";;
  startTimer "find timestamps";;
  timestamps ← liftOp findTimestamps;
  stopTimer "find timestamps";;
  startTimer "find signatures";;
  signatures ← liftOp (findSignatures timestamps);
  stopTimer "find signatures";;
  forEach signatures processSignature;;
  stopTimer "processing comments";;
  startTimer "processing sections";;
  headings ← liftOp findHeadings;
  forEach headings processHeading;;
  startTimer "identifying replies";;
  n ← gets (λ w, length (comments (cd w)));
  forEach (seq 0 n) identifyReplies;;
  stopTimer "identifying replies";;
  stopTimer "processing sections";;
  startTimer "post message from the worker";;
  cs ← gets (λ w, comments (cd w));
  postMessage (parseMessage cs);;
  stopTimer "post message from the worker";;
  stopTimer "worker operations";;
  logAndResetEverything.

(** The world [parse] starts afresh from: of the [cd] object the globals
    and the configuration remain, of the page the document. *)
Definition afresh (w : World) : World :=
  with_page (mkPage (rootElement (page w)) [])
            (with_cd (mkCd [] [] (g (cd w)) (config (cd w))) w).

(** The messages posted in one turn of the event loop. *)
Definition posted `{Parser, Runtime} (w : World) (ev : Event)
    : list (gmap string MVal) :=
  drop (length (outbox w)) (outbox (step w ev)).

(** [eval], as a function of its argument. *)
Definition evaluated `{Runtime} (v : Val) : Exn + Val :=
  match v with
  | VStr s => evalSource s
  | _ => inr v
  end.

(** The checker of a request, as [receiveParse] hands it to [eval]. *)
Definition checkerOf `{Runtime} (message : WindowMessage) : Val :=
  let checker :=
    default VUndefined (msg_config message !! "checkForCustomForeignComponents") in
  if truthy checker && negb (Re.functionHead (toString checker))
     && negb (Re.arrowAfter (toString checker))
  then VStr ("function " +:+ toString checker) else checker.

(** The handling of a request gets as far as [parse]: it is a parse
    request, its checker and its timestamp parser are evaluated, and its
    text is parsed into a document. *)
Definition reaches_parse `{Runtime} (message : WindowMessage) : Prop :=
  msg_type message = "parse" ∧
  ∃ checker parser doc,
    evaluated (checkerOf message) = inr checker ∧
    evaluated (default VUndefined (msg_g message !! "TIMESTAMP_PARSER"))
    = inr parser ∧
    parseDOM (msg_text message) = inr doc.

(** The [cd] object with the globals and the configuration replaced. *)
Definition configured (globals configuration : gmap string Val) (w : World)
    : World :=
  with_cd (mkCd (comments (cd w)) (sections (cd w)) globals configuration) w.

(** The world after more calls of [cd.debug]. *)
Definition timed (calls : list DebugCall) (w : World) : World :=
  with_debugCalls (debugCalls w ++ calls) w.

(** The worlds [receiveParse] goes through before it calls [parse],
    given what the two calls of [eval] and [parseDOM] return. *)
Definition merged (message : WindowMessage) (w : World) : World :=
  configured (msg_g message ∪ g (cd w)) (msg_config message)
             (timed [StartTimer "worker operations"] w).

Definition checked (message : WindowMessage) (checker : Val) (w : World)
    : World :=
  configured (msg_g message ∪ g (cd w))
             (<["checkForCustomForeignComponents" := checker]>
                (msg_config message))
             (timed [StartTimer "worker operations"] w).

Definition timestamped (message : WindowMessage) (checker parser : Val)
    (w : World) : World :=
  configured (<["TIMESTAMP_PARSER" := parser]> (msg_g message ∪ g (cd w)))
             (<["checkForCustomForeignComponents" := checker]>
                (msg_config message))
             (timed [StartTimer "worker operations"; StartTimer "parse html"]
                    w).

Definition installed (message : WindowMessage) (checker parser : Val)
    (doc : gmap ElemRef Element) (w : World) : World :=
  with_page (mkPage doc (commentAnchors (page w)))
    (configured
       (<["specialElements.pageHasOutdents" := VBool (pageHasOutdents doc)]>
          (<["TIMESTAMP_PARSER" := parser]> (msg_g message ∪ g (cd w))))
       (<["checkForCustomForeignComponents" := checker]> (msg_config message))
       (timed [StartTimer "worker operations"; StartTimer "parse html";
               StopTimer "parse html"] w)).

(** Two worlds have the same globals, but for the keys of [K] and the two
    keys the worker sets itself. *)
Definition globals_agree (K : gset string) (w1 w2 : World) : Prop :=
  ∀ k, k ∉ K → k ≠ "TIMESTAMP_PARSER" → k ≠ "specialElements.pageHasOutdents" →
       g (cd w1) !! k = g (cd w2) !! k.

(** An event that sets no global that the request [message] does not set:
    a parse request with globals of the same names, or anything that is no
    parse request. *)
Definition sets_no_more `{Parser} (message : WindowMessage) (ev : Event) : Prop :=
  match ev with
  | Receive earlier =>
      msg_type earlier = "parse" → dom (msg_g earlier) ⊆ dom (msg_g message)
  | Expire _ => True
  end.

(** The intervals of the alarms that are pending. *)
Definition pendingAlarms (w : World) : list Z := (map_to_list (timers w)).*2.
(** ** What the marking of a comment does to the document *)

(** The element at [el] is in the document and satisfies [Q]. *)
Definition has_el (Q : Element → Prop) (el : ElemRef) (w : World) : Prop :=
  ∃ e, rootElement (page w) !! el = Some e ∧ Q e.

(** What [addAttributes] leaves on each element of a comment. *)
Definition commentPart (this_id : nat) (e : Element) : Prop :=
  "cd-commentPart" ∈ classList e ∧
  attribs e !! "data-comment-id" = Some (pretty this_id).

Definition hasClass (name : string) (e : Element) : Prop :=
  name ∈ classList e.

(** What [setLevels] leaves on the container of level [i + 1]. *)
Definition levelMarked (i : nat) (e : Element) : Prop :=
  "cd-commentLevel" ∈ classList e ∧
  ("cd-commentLevel-" +:+ pretty (i + 1)) ∈ classList e.

(** [e'] is [e] with classes of [names] added and attributes of [keys]
    set: the tag, the place in the tree, the other classes and the other
    attributes are those of [e]. *)
Definition marked_from (names keys : list string) (e e' : Element) : Prop :=
  tagName e' = tagName e ∧ parentNode e' = parentNode e ∧
  childElements e' = childElements e ∧
  (∀ name, name ∈ classList e → name ∈ classList e') ∧
  (∀ name, name ∈ classList e' → name ∈ classList e ∨ name ∈ names) ∧
  (∀ k, k ∉ keys → attribs e' !! k = attribs e !! k).

(** The document [d'] is [d] with the elements at [touched] marked. *)
Definition doc_marked (names keys : list string) (touched : list ElemRef)
    (d d' : gmap ElemRef Element) : Prop :=
  ∀ el,
    (el ∉ touched → d' !! el = d !! el) ∧
    match d !! el with
    | Some e => ∃ e', d' !! el = Some e' ∧ marked_from names keys e e'
    | None => d' !! el = None
    end.

Definition partClasses : list string :=
  ["cd-commentPart-first"; "cd-commentPart-last"; "cd-commentPart"].

Definition partAttributes : list string := ["id"; "data-comment-id"].


(** The body of the loop of [addAttributes]. *)
Definition markPart (this_id : nat) (el : ElemRef) : M unit :=
  updEl el (classList_add "cd-commentPart");;
  updEl el (setAttribute "data-comment-id" (pretty this_id)).

(** The [id] attribute of the element at [el], if it has one. *)
Definition idOf (w : World) (el : ElemRef) : option string :=
  e ← rootElement (page w) !! el; attribs e !! "id".

(** The world [w'] is [w0] but for its document, which is that of [w0]
    with the elements at [touched] marked. *)
Definition marks_only (names keys : list string) (touched : list ElemRef)
    (w0 w' : World) : Prop :=
  w' = with_page (page w') w0 ∧
  commentAnchors (page w') = commentAnchors (page w0) ∧
  doc_marked names keys touched (rootElement (page w0)) (rootElement (page w')).

(** The body of the loop of [setLevels], for the walks [top] and
    [bottom]. *)
Definition markLevel (top bottom : list ElemRef) (i : nat) : M unit :=
  match top !! i with
  | Some t => addLevelClasses t i
  | None => mret ()
  end;;
  match bottom !! i with
  | Some b =>
      if bool_decide (Some b ≠ top !! i) then addLevelClasses b i
      else mret ()
  | None => mret ()
  end.

(** ** What the worker builds and posts *)

(** What a comment has of its signature, and a signature of itself. *)
Definition signedAs (c : Comment)
    : option Z * string * string * option string * bool :=
  (date c, timestamp c, authorName c, anchor c, isUnsigned c).

Definition signatureData (s : Signature)
    : option Z * string * string * option string * bool :=
  (sig_date s, sig_timestampText s, sig_authorName s, sig_anchor s,
   sig_isUnsigned s).

(** The comment is the current user's, by the name in [cd.g]. *)
Definition ownBy (globals : gmap string Val) (c : Comment) : Prop :=
  own c = bool_decide (globals !! "CURRENT_USER_NAME"
                       = Some (VStr (authorName c))).

(** A comment as the constructor leaves it: none of the properties that
    the worker assigns is set. *)
Definition unlinked (globals : gmap string Val) (c : Comment) : Prop :=
  ownBy globals c ∧ section c = None ∧ targetComment c = None ∧
  targetCommentAuthorName c = None ∧ toMe c = None.

(** What [parse] begins with after its resets: of the [cd] object the
    globals and the configuration, of the page the document. *)
Definition cdAfresh (w : World) : Cd := mkCd [] [] (g (cd w)) (config (cd w)).

Definition pageAfresh (w : World) : Page := mkPage (rootElement (page w)) [].




(** ** A parser to run the worker on

    Modelled from the spec: [Parser.js], [SectionSkeleton.js],
    [timestamp.js] and [htmlparser2Extended.js] are not among the sources.
    This small parser follows §4.2-§4.5 on documents whose signatures are
    marked by attributes; the theorems hold for every parser, and the
    examples are run with this one. *)

Module SpecParser.

Definition element (p : Page) (r : ElemRef) : option Element :=
  rootElement p !! r.

Definition hasTag (p : Page) (tags : list string) (r : ElemRef) : bool :=
  match element p r with
  | Some e => bool_decide (tagName e ∈ tags)
  | None => false
  end.

Definition isHeadingElement (p : Page) (r : ElemRef) : bool :=
  match element p r with
  | Some e => Re.headingTag (tagName e)
  | None => false
  end.

Definition attribute (p : Page) (k : string) (r : ElemRef) : option string :=
  e ← element p r; attribs e !! k.

(** Document order: the tree under element 0, parents first. *)
Fixpoint preorder (fuel : nat) (p : Page) (r : ElemRef) : list ElemRef :=
  match fuel with
  | 0 => []
  | S n =>
      r :: flat_map (preorder n p)
             (match element p r with
              | Some e => childElements e
              | None => []
              end)
  end.

Definition documentOrder (p : Page) : list ElemRef :=
  preorder (S (size (rootElement p))) p 0.

Fixpoint elementBefore (r : ElemRef) (siblings : list ElemRef)
    : option ElemRef :=
  match siblings with
  | a :: (b :: _) as rest =>
      if bool_decide (b = r) then Some a else elementBefore r rest
  | _ => None
  end.

Definition previousSibling (p : Page) (r : ElemRef) : option ElemRef :=
  e ← element p r;
  parent ← parentNode e;
  pe ← element p parent;
  elementBefore r (childElements pe).

Definition claimed (p : Page) (r : ElemRef) : bool :=
  match element p r with
  | Some e => classList_contains "cd-commentPart" e
  | None => false
  end.

(** §4.3, step 1: backward and upward from the signature, up to a
    heading (taken), a part of an earlier comment, or the top. *)
Fixpoint walkBack (fuel : nat) (p : Page) (r : ElemRef) : list Part :=
  match fuel with
  | 0 => []
  | S n =>
      match previousSibling p r with
      | Some s =>
          if claimed p s then []
          else if isHeadingElement p s then [mkPart s true]
          else mkPart s false :: walkBack n p s
      | None =>
          match element p r ≫= parentNode with
          | Some parent => walkBack n p parent
          | None => []
          end
      end
  end.

Definition collect (el : ElemRef) : Op (list Part) := λ _ p,
  (inr (mkPart el (isHeadingElement p el)
        :: walkBack (S (size (rootElement p))) p el), p).

Definition unchanged {A} (a : A) : Op A := λ _ p, (inr a, p).

Fixpoint ancestors (fuel : nat) (p : Page) (r : ElemRef) : list ElemRef :=
  match fuel with
  | 0 => []
  | S n =>
      match element p r ≫= parentNode with
      | Some parent => parent :: ancestors n p parent
      | None => []
      end
  end.

(** §4.4: the indentation containers above an element, outermost first. *)
Definition levelsUpTree (el : ElemRef) (_ : string) : Op (list ElemRef) :=
  λ _ p,
    (inr (rev (filter (λ r, hasTag p ["DL"; "UL"; "OL"] r = true)
                      (ancestors (size (rootElement p)) p el))), p).

(** §4.2: a timestamp is an element that carries one; it is a signature
    when an author is attributed to it. The anchor is derived from both
    and registered. *)
Definition timestamps : Op (list ElemRef) := λ _ p,
  (inr (filter (λ r, is_Some (attribute p "data-timestamp" r))
               (documentOrder p)), p).

Definition signatureAt (p : Page) (r : ElemRef) : option Signature :=
  author ← attribute p "data-author" r;
  time ← attribute p "data-timestamp" r;
  Some (mkSignature r None time author (Some (author +:+ "|" +:+ time))
                    false).

Definition signatures (ts : list ElemRef) : Op (list Signature) := λ _ p,
  let found := omap (signatureAt p) ts in
  (inr found,
   mkPage (rootElement p)
          (commentAnchors p ++ omap sig_anchor found)).

Definition headings : Op (list ElemRef) := λ _ p,
  (inr (filter (λ r, isHeadingElement p r = true) (documentOrder p)), p).

Fixpoint position (r : ElemRef) (l : list ElemRef) : nat :=
  match l with
  | [] => 0
  | x :: l' => if bool_decide (x = r) then 0 else S (position r l')
  end.

Definition depthOf (p : Page) (r : ElemRef) : nat :=
  default 0 (e ← element p r; Re.headingDepth (tagName e)).

(** §4.4: a section runs from its heading to the next heading that is no
    deeper; its comments are the ones that start in between. *)
Definition sectionOf (heading : ElemRef) : Op Section := λ c p,
  let order := documentOrder p in
  let start := position heading order in
  let later := drop (S start) order in
  let closing := filter (λ r, isHeadingElement p r = true ∧
                              (depthOf p r ≤ depthOf p heading)%nat) later in
  let stop := match closing with
              | r :: _ => position r order
              | [] => length order
              end in
  let inside (cm : Comment) : bool :=
    match elements cm with
    | Some (first :: _) =>
        bool_decide (start < position first order < stop)%nat
    | _ => false
    end in
  let headline := default "" (attribute p "data-headline" heading) in
  (inr (mkSection (Some (length (sections c))) headline headline
                  (depthOf p heading)
                  (filter (λ i, from_option inside false (comments c !! i))
                          (seq 0 (length (comments c))))), p).

#[export] Instance parser : Parser := {|
  Timestamp := ElemRef;
  Heading := ElemRef;
  findTimestamps := timestamps;
  findSignatures := signatures;
  collectParts := collect;
  removeNestedParts := unchanged;
  encloseInlineParts := λ parts _, unchanged parts;
  filterParts := unchanged;
  replaceListsWithItems := λ parts _, unchanged parts;
  getLevelsUpTree := levelsUpTree;
  findHeadings := headings;
  createSection := sectionOf;
|}.

End SpecParser.

(** ** Pages and requests of the examples *)

Module Examples.
Import SpecParser.

Definition el (tag : string) (attrs : list (string * string))
    (parent : option ElemRef) (kids : list ElemRef) : Element :=
  mkElement tag [] (list_to_map attrs) parent kids.

Definition signed (author : string) : list (string * string) :=
  [("data-author", author); ("data-timestamp", "10:00, 1 January 2020")].

(** [<p>Hello. ~~~~</p>] *)
Definition helloPage : gmap ElemRef Element :=
  list_to_map [(0, el "DIV" [] None [1]);
               (1, el "P" (signed "Alice") (Some 0) [])].

(** [<h2>Topic</h2><dl><dd>Reply ~~~~</dd></dl>] *)
Definition replyPage : gmap ElemRef Element :=
  list_to_map [(0, el "DIV" [] None [1; 2]);
               (1, el "H2" [("data-headline", "Topic")] (Some 0) []);
               (2, el "DL" [] (Some 0) [3]);
               (3, el "DD" (signed "Bob") (Some 2) [])].

(** [<h2>Topic</h2><p>Text ~~~~</p>] *)
Definition openingPage : gmap ElemRef Element :=
  list_to_map [(0, el "DIV" [] None [1; 2]);
               (1, el "H2" [("data-headline", "Topic")] (Some 0) []);
               (2, el "P" (signed "Bob") (Some 0) [])].

(** [<div style="float: right">Box</div><p>Text ~~~~</p>] *)
Definition floatPage : gmap ElemRef Element :=
  list_to_map [(0, el "DIV" [] None [1; 2]);
               (1, el "DIV" [("style", "float: right")] (Some 0) []);
               (2, el "P" (signed "Bob") (Some 0) [])].

(** [<div style="float:right">Box ~~~~</div><p>Text ~~~~</p>
    <dl><dd>Reply ~~~~</dd></dl>] *)
Definition floatOnlyPage : gmap ElemRef Element :=
  list_to_map [(0, el "DIV" [] None [1; 2; 3]);
               (1, el "DIV" (("style", "float:right") :: signed "Carol")
                      (Some 0) []);
               (2, el "P" (signed "Bob") (Some 0) []);
               (3, el "DL" [] (Some 0) [4]);
               (4, el "DD" (signed "Alice") (Some 3) [])].

(** [<h2>Topic</h2><p>Nothing yet.</p>] *)
Definition headingPage : gmap ElemRef Element :=
  list_to_map [(0, el "DIV" [] None [1; 2]);
               (1, el "H2" [("data-headline", "Topic")] (Some 0) []);
               (2, el "P" [] (Some 0) [])].

Definition pages : list (string * gmap ElemRef Element) :=
  [("<p>Hello. ~~~~</p>", helloPage);
   ("<h2>Topic</h2><p>Nothing yet.</p>", headingPage);
   ("<h2>Topic</h2><dl><dd>Reply ~~~~</dd></dl>", replyPage);
   ("<h2>Topic</h2><p>Text ~~~~</p>", openingPage);
   ("<div style='float: right'>Box</div><p>Text ~~~~</p>", floatPage);
   ("<div style='float:right'>Box ~~~~</div><p>Text ~~~~</p><dl><dd>Reply ~~~~</dd></dl>",
    floatOnlyPage)].

Fixpoint lookupPage (text : string)
    (table : list (string * gmap ElemRef Element))
    : Exn + gmap ElemRef Element :=
  match table with
  | [] => inl (OtherError "unparsable")
  | (t, doc) :: table' =>
      if bool_decide (t = text) then inr doc else lookupPage text table'
  end.

#[export] Instance runtime : Runtime := {|
  parseDOM := λ text, lookupPage text pages;
  evalSource := λ src, inr (VObj (String.length src));
  objToString := λ _, "[object Object]";
  staticGlobals := ∅;
|}.

Definition globals : gmap string Val :=
  list_to_map [("UNHIGHLIGHTABLE_ELEMENTS_CLASSES", VStrs ["cd-hidden"]);
               ("CURRENT_USER_NAME", VStr "Alice");
               ("TIMESTAMP_PARSER", VStr "(match) => match")].

Definition parseRequest (text : string) : WindowMessage :=
  mkWindowMessage "parse" 0 text globals ∅.

(** A request that carries the timestamp parser and no other global. *)
Definition bareRequest (text : string) : WindowMessage :=
  mkWindowMessage "parse" 0 text
    {[ "TIMESTAMP_PARSER" := VStr "(match) => match" ]} ∅.

Definition setAlarmRequest (interval : Z) : WindowMessage :=
  mkWindowMessage "setAlarm" interval "" ∅ ∅.


Definition signatureOf (author : string) (r : ElemRef) : Signature :=
  mkSignature r None "10:00, 1 January 2020" author
              (Some (author +:+ "|10:00, 1 January 2020")) false.

(** A world in which the page has been installed and nothing parsed. *)
Definition worldOn (doc : gmap ElemRef Element) : World :=
  mkWorld (mkCd [] [] globals ∅) (mkPage doc []) false None ∅ 0 [] [] [].

Definition helloText : string := "<p>Hello. ~~~~</p>".
Definition headingText : string := "<h2>Topic</h2><p>Nothing yet.</p>".
Definition replyText : string := "<h2>Topic</h2><dl><dd>Reply ~~~~</dd></dl>".
Definition floatOnlyText : string :=
  "<div style='float:right'>Box ~~~~</div><p>Text ~~~~</p><dl><dd>Reply ~~~~</dd></dl>".

End Examples.

(** * Lemmas *)

(** ** The monad *)

Lemma bind_unfold {A B} (m : M A) (f : A → M B) w :
  (m ≫= f) w = match m w with
               | (inr a, w') => f a w'
               | (inl e, w') => (inl e, w')
               end.
Proof. reflexivity. Qed.

Lemma bind_returns {A B} (m : M A) (f : A → M B) w b w' :
  (m ≫= f) w = (inr b, w') →
  ∃ a w1, m w = (inr a, w1) ∧ f a w1 = (inr b, w').
Proof.
  rewrite bind_unfold. destruct (m w) as [[e|a] w1]; [discriminate|].
  intros Hf. by exists a, w1.
Qed.

(** ** Invariants *)

Section Keeps.
Context (I : World → Prop).

Lemma keeps_ret {A} (a : A) : keeps I (mret a).
Proof. by intros w. Qed.

Lemma keeps_throw {A} e : keeps I (throw (A := A) e).
Proof. by intros w. Qed.

Lemma keeps_gets {A} (f : World → A) : keeps I (gets f).
Proof. by intros w. Qed.

Lemma keeps_modify (f : World → World) :
  (∀ w, I w → I (f w)) → keeps I (modify f).
Proof. intros Hf w. apply Hf. Qed.

Lemma keeps_bind {A B} (m : M A) (f : A → M B) :
  keeps I m → (∀ a, keeps I (f a)) → keeps I (m ≫= f).
Proof.
  intros Hm Hf w Hw. rewrite bind_unfold.
  specialize (Hm w Hw). destruct (m w) as [[e|a] w1]; [done|].
  by apply Hf.
Qed.

Lemma keeps_tryCatch {A} (m : M A) h :
  keeps I m → (∀ e, keeps I (h e)) → keeps I (tryCatch m h).
Proof.
  intros Hm Hh w Hw. unfold tryCatch.
  specialize (Hm w Hw). destruct (m w) as [[e|a] w1]; [|done].
  by apply Hh.
Qed.

Lemma keeps_forEach {A} (l : list A) f :
  (∀ x, keeps I (f x)) → keeps I (forEach l f).
Proof.
  intros Hf. induction l as [|x l IH]; simpl.
  - apply keeps_ret.
  - apply keeps_bind; [apply Hf | intros _; apply IH].
Qed.

Lemma keeps_filterM {A} (f : A → M bool) l :
  (∀ x, keeps I (f x)) → keeps I (filterM f l).
Proof.
  intros Hf. induction l as [|x l IH]; simpl.
  - apply keeps_ret.
  - apply keeps_bind; [apply Hf | intros b].
    apply keeps_bind; [apply IH | intros r; apply keeps_ret].
Qed.

(** An invariant that does not look at the page holds across the
    methods of the parser and across changes of the document. *)
Hypothesis page_blind : ∀ w p, I w → I (with_page p w).

Lemma keeps_liftOp {A} (o : Op A) : keeps I (liftOp o).
Proof.
  intros w Hw. unfold liftOp. destruct (o (cd w) (page w)) as [r p].
  by apply page_blind.
Qed.

Lemma keeps_getEl el : keeps I (getEl el).
Proof. intros w Hw. unfold getEl. by destruct (_ !! _). Qed.

Lemma keeps_updEl el f : keeps I (updEl el f).
Proof.
  intros w Hw. unfold updEl. destruct (_ !! _); [|done]. by apply page_blind.
Qed.

End Keeps.

Lemma keeps_pure {A} (I : World → Prop) (m : M A) :
  (∀ w, (m w).2 = w) → keeps I m.
Proof. intros Hm w Hw. by rewrite Hm. Qed.

Lemma keeps_and {A} (I J : World → Prop) (m : M A) :
  keeps I m → keeps J m → keeps (λ w, I w ∧ J w) m.
Proof. intros HI HJ w [? ?]. split; [by apply HI | by apply HJ]. Qed.

Lemma keeps_getComment I r : keeps I (getComment r).
Proof.
  apply keeps_pure. intros w. unfold getComment. by destruct (_ !! _).
Qed.

(** Programs are taken apart down to the operations on the world; [side]
    proves that an operation maintains the invariant. *)
Ltac keeps_step side :=
  first
    [ lazymatch goal with
      | |- keeps _ (mret _) => apply keeps_ret
      | |- keeps _ (throw _) => apply keeps_throw
      | |- keeps _ (gets _) => apply keeps_gets
      | |- keeps _ (_ ≫= _) => apply keeps_bind; [|intros ?]
      | |- keeps _ (tryCatch _ _) => apply keeps_tryCatch; [|intros ?]
      | |- keeps _ (forEach _ _) => apply keeps_forEach; intros ?
      | |- keeps _ (filterM _ _) => apply keeps_filterM; intros ?
      | |- keeps _ (modify _) => apply keeps_modify; side
      | |- keeps _ (liftOp _) => apply keeps_liftOp; side
      | |- keeps _ (getEl _) => apply keeps_getEl
      | |- keeps _ (getComment _) => apply keeps_getComment
      | |- keeps _ (updEl _ _) => apply keeps_updEl; side
      | |- keeps _ (let _ := _ in _) => cbv zeta
      | |- keeps _ (match ?x with _ => _ end) => destruct x
      | |- keeps _ ?m => let h := get_head m in unfold h
      end ].

Ltac keeps_side :=
  intros; simpl in *; try done; try congruence; eauto;
  try (repeat case_match; simpl in *; first [done | congruence | by eauto]).

Ltac keeps_auto := repeat keeps_step keeps_side.

(** ** Triples *)

Lemma triple_bind {A B} P (m : M A) (f : A → M B) R Q E :
  triple P m R E → (∀ a, triple (R a) (f a) Q E) → triple P (m ≫= f) Q E.
Proof.
  intros Hm Hf w Hw. rewrite bind_unfold. specialize (Hm w Hw).
  destruct (m w) as [[e|a] w1]; [done|]. by apply Hf.
Qed.

Lemma triple_keeps {A} (I : World → Prop) (m : M A) :
  keeps I m → triple I m (λ _, I) (λ _, I).
Proof.
  intros Hm w Hw. specialize (Hm w Hw). by destruct (m w) as [[e|a] w1].
Qed.

Lemma triple_conseq {A} (P P' : World → Prop) (m : M A)
    (Q Q' : A → World → Prop) (E E' : Exn → World → Prop) :
  triple P m Q E →
  (∀ w, P' w → P w) → (∀ a w, Q a w → Q' a w) → (∀ e w, E e w → E' e w) →
  triple P' m Q' E'.
Proof.
  intros Hm HP HQ HE w Hw. specialize (Hm w (HP w Hw)).
  destruct (m w) as [[e|a] w1]; [by apply HE | by apply HQ].
Qed.

(** The step most proofs take: [m] maintains [I], and what follows is
    specified from [I]. *)
Lemma triple_bind_keeps {A B} (I : World → Prop) (m : M A) (f : A → M B) Q E :
  keeps I m → (∀ e w, I w → E e w) → (∀ a, triple I (f a) Q E) →
  triple I (m ≫= f) Q E.
Proof.
  intros Hm HE Hf. eapply triple_bind; [|exact Hf].
  eapply triple_conseq; [by apply triple_keeps | done | done | done].
Qed.


(** ** The constructor of a comment *)

Lemma isHighlightable_pure el w : (isHighlightable el w).2 = w.
Proof.
  unfold isHighlightable, getEl. rewrite bind_unfold.
  destruct (rootElement (page w) !! el) as [e|]; [|done].
  destruct (Re.headingTag (tagName e)); [done|].
  rewrite bind_unfold. simpl.
  destruct (g (cd w) !! _) as [[| | | |names|]|]; try done.
  by destruct (unhighlightableClass names e).
Qed.

Lemma isHighlightable_true el w :
  (isHighlightable el w).1 = inr true ↔ Highlightable w el.
Proof.
  unfold isHighlightable, getEl, Highlightable. rewrite bind_unfold.
  destruct (rootElement (page w) !! el) as [e|] eqn:He.
  2:{ split; [done|]. by intros (? & ? & ? & _). }
  destruct (Re.headingTag (tagName e)) eqn:Ht.
  { split; [done|]. intros (e' & ? & [= <-] & _ & ? & _). congruence. }
  rewrite bind_unfold. simpl.
  destruct (g (cd w) !! _) as [v|] eqn:Hg.
  2:{ split; [done|]. by intros (? & ? & _ & ? & _). }
  destruct v as [| | | |names|];
    try (split; [done|]; by intros (? & ? & _ & ? & _)).
  destruct (unhighlightableClass names e) eqn:Hc; simpl.
  { split; [done|]. intros (e' & n' & [= <-] & [= <-] & _ & ? & _). congruence. }
  split.
  - intros [= Hf]. exists e, names. repeat split; try done.
    by destruct (floated e).
  - intros (e' & n' & [= <-] & [= <-] & _ & _ & ->). done.
Qed.

Lemma filterM_isHighlightable l w hs w' :
  filterM isHighlightable l w = (inr hs, w') →
  w' = w ∧ hs `sublist_of` l ∧ Forall (Highlightable w) hs ∧
  (∀ el, el ∈ l → Highlightable w el → el ∈ hs).
Proof.
  revert hs w'. induction l as [|x l IH]; intros hs w' Hrun; simpl in Hrun.
  - injection Hrun as <- <-. repeat split; [done|by constructor|].
    intros el Hel. by apply elem_of_nil in Hel.
  - apply bind_returns in Hrun as (b & w1 & Hx & Hrun).
    apply bind_returns in Hrun as (r & w2 & Hl & Hret).
    injection Hret as <- <-.
    assert (w1 = w) as ->.
    { pose proof (isHighlightable_pure x w) as Hp. by rewrite Hx in Hp. }
    destruct (IH _ _ Hl) as (-> & Hsub & Hall & Hcomplete).
    pose proof (isHighlightable_true x w) as Htrue. rewrite Hx in Htrue.
    simpl in Htrue.
    split; [done|]. destruct b.
    + split; [by apply sublist_skip|]. split.
      * constructor; [by apply Htrue | done].
      * intros el Hel Hh. apply elem_of_cons in Hel as [->|Hel]; [left|right]; auto.
    + split; [by apply sublist_cons|]. split; [done|].
      intros el Hel Hh. apply elem_of_cons in Hel as [->|Hel]; auto.
      apply Htrue in Hh. discriminate.
Qed.

Section ConstructorFacts.
Context `{Parser}.

(** What a call of [setLevels] that returns has done. *)
Lemma setLevels_returns els hs w lvl w' :
  setLevels els hs w = (inr lvl, w') →
  ∃ h0 hs' top w1 bottom w2,
    hs = h0 :: hs' ∧
    liftOp (getLevelsUpTree h0 "top") w = (inr top, w1) ∧
    (if bool_decide (1 < length els)
     then liftOp (getLevelsUpTree (List.last hs h0) "bottom") w1
          = (inr bottom, w2)
     else bottom = top ∧ w2 = w1) ∧
    lvl = length top `min` length bottom.
Proof.
  unfold setLevels. destruct hs as [|h0 hs']; [done|].
  intros Hrun.
  apply bind_returns in Hrun as (top & w1 & Htop & Hrun).
  apply bind_returns in Hrun as (bottom & w2 & Hbottom & Hrun).
  apply bind_returns in Hrun as ([] & w3 & _ & Hret).
  injection Hret as <- <-.
  exists h0, hs', top, w1, bottom, w2. repeat split; try done.
  destruct (bool_decide (1 < length els)); [done|].
  by injection Hbottom as <- <-.
Qed.

(** What a call of the constructor that returns has done, field by
    field. *)
Lemma constructor_body_returns signature parts0 w c w' :
  constructor_body signature parts0 w = (inr c, w') →
  ∃ hs w1 p0 rest,
    parts0 = p0 :: rest ∧
    filterM isHighlightable (map node parts0) w = (inr hs, w) ∧
    hs ≠ [] ∧
    addAttributes (sig_anchor signature) (length (comments (cd w)))
                  (map node parts0) w = (inr (), w1) ∧
    setLevels (map node parts0) hs w1 = (inr (level c), w') ∧
    id c = length (comments (cd w)) ∧
    highlightables c = Some hs ∧
    followsHeading c = true ∧
    let spliced := isHeading p0 && negb (level c =? 0)%nat in
    parts c = Some (if spliced then rest else parts0) ∧
    elements c = Some (map node (if spliced then rest else parts0)) ∧
    (if spliced then rest else parts0) ≠ [].
Proof.
  unfold constructor_body. intros Hrun.
  apply bind_returns in Hrun as (n & w0 & [= <- <-] & Hrun).
  apply bind_returns in Hrun as (user & w0 & [= <- <-] & Hrun).
  apply bind_returns in Hrun as (hs & w0 & Hfilter & Hrun).
  destruct (filterM_isHighlightable _ _ _ _ Hfilter) as (-> & _).
  case_bool_decide as Hhs; [done|].
  apply bind_returns in Hrun as ([] & w1 & Hattrs & Hrun).
  apply bind_returns in Hrun as (lvl & w2 & Hlevels & Hrun).
  destruct parts0 as [|p0 rest]; [done|].
  exists hs, w1, p0, rest.
  destruct (isHeading p0 && negb (lvl =? 0)%nat) eqn:Hspliced.
  - simpl in Hrun. destruct rest as [|q0 rest']; [done|].
    apply bind_returns in Hrun as ([o1 o2] & w3 & Hopening & Hret).
    assert (w3 = w2) as ->.
    { destruct (isHeading q0); [|by injection Hopening].
      apply bind_returns in Hopening as (e & w4 & Hget & [= _ _ <-]).
      unfold getEl in Hget. destruct (_ !! _); by injection Hget. }
    injection Hret as <- <-.
    cbn [level id highlightables followsHeading parts elements].
    rewrite Hspliced. split_and!; try done. by destruct (isHeading p0).
  - simpl in Hrun.
    apply bind_returns in Hrun as ([o1 o2] & w3 & Hopening & Hret).
    assert (w3 = w2) as ->.
    { destruct (isHeading p0); [|by injection Hopening].
      apply bind_returns in Hopening as (e & w4 & Hget & [= _ _ <-]).
      unfold getEl in Hget. destruct (_ !! _); by injection Hget. }
    injection Hret as <- <-.
    cbn [level id highlightables followsHeading parts elements].
    rewrite Hspliced. split_and!; try done. by destruct (isHeading p0).
Qed.

End ConstructorFacts.

Section ConstructorCalls.
Context `{Parser}.

Lemma constructor_returns signature w c w' :
  constructor signature w = (inr c, w') →
  ∃ parts0 w1,
    constructor_parts signature w = (inr parts0, w1) ∧
    constructor_body signature parts0 w1 = (inr c, w').
Proof. intros Hrun. by apply bind_returns in Hrun. Qed.

Lemma constructor_unfold signature w parts0 w1 :
  constructor_parts signature w = (inr parts0, w1) →
  constructor signature w = constructor_body signature parts0 w1.
Proof. intros Hparts. unfold constructor. by rewrite bind_unfold, Hparts. Qed.

(** Without a highlightable element the constructor throws, before it
    has touched anything. *)
Lemma constructor_body_throws signature parts0 w :
  Forall (λ el, ¬ Highlightable w el) (map node parts0) →
  ∃ e, constructor_body signature parts0 w = (inl e, w).
Proof.
  intros Hnone. unfold constructor_body.
  rewrite bind_unfold. simpl. rewrite bind_unfold. simpl.
  rewrite bind_unfold.
  destruct (filterM isHighlightable (map node parts0) w)
    as [[e|hs] w0] eqn:Hfilter.
  - exists e. f_equal.
    clear -Hfilter. revert e w0 Hfilter.
    induction (map node parts0) as [|x l IH]; intros e w0; simpl; [done|].
    rewrite bind_unfold.
    pose proof (isHighlightable_pure x w) as Hp.
    destruct (isHighlightable x w) as [[e'|b] w1]; simpl in Hp; subst w1.
    + by intros [= _ <-].
    + rewrite bind_unfold.
      destruct (filterM isHighlightable l w) as [[e'|r] w1] eqn:Hl; [|done].
      intros [= _ <-]. by eapply IH.
  - destruct (filterM_isHighlightable _ _ _ _ Hfilter) as (-> & Hsub & Hall & _).
    destruct hs as [|h hs].
    + exists CdError. by rewrite bool_decide_eq_true_2.
    + exfalso. apply Forall_cons in Hall as [Hh _].
      eapply Forall_forall in Hnone; [by apply Hnone|].
      eapply elem_of_sublist; [|done]. left.
Qed.

End ConstructorCalls.

(** ** The worker *)

(** The constructor works on the page only: whatever does not look at the
    page is left as it was. *)
Lemma keeps_constructor `{Parser} (I : World → Prop) signature :
  (∀ w p, I w → I (with_page p w)) → keeps I (constructor signature).
Proof. intros Hblind. keeps_auto. Qed.

Lemma keeps_constructor_parts_cd `{Parser} signature w :
  cd (constructor_parts signature w).2 = cd w.
Proof.
  assert (keeps (λ w', cd w' = cd w) (constructor_parts signature)) as Hk
    by keeps_auto.
  by apply Hk.
Qed.

Lemma constructor_cd `{Parser} signature w :
  cd (constructor signature w).2 = cd w.
Proof. by apply (keeps_constructor (λ w', cd w' = cd w)). Qed.

Lemma filterM_none_highlightable els w :
  Forall (λ el, isHighlightable el w = (inr false, w)) els →
  filterM isHighlightable els w = (inr [], w).
Proof.
  induction 1 as [|el els Hel _ IH]; simpl; [done|].
  by rewrite bind_unfold, Hel, bind_unfold, IH.
Qed.





Section WorkerFacts.
Context `{Parser, Runtime}.

(** What the body of the first loop does, by the outcome of the
    constructor. *)
Lemma processSignature_unfold signature w :
  processSignature signature w =
  match createComment signature w with
  | (inr c, w1) =>
      (inr (), with_cd (set_comments (comments (cd w1) ++ [c]) (cd w1)) w1)
  | (inl e, w1) =>
      (inr (), if bool_decide (e = CdError) then w1
               else with_console (console w1 ++ [LogError e]) w1)
  end.
Proof.
  unfold processSignature, catchCd, tryCatch. rewrite bind_unfold.
  destruct (createComment signature w) as [[e|c] w1]; [|done].
  by case_bool_decide.
Qed.

(** The first loop never throws: each signature is dealt with, one way or
    the other. *)
Lemma signatures_loop_returns signatures w :
  (forEach signatures processSignature w).1 = inr ().
Proof.
  revert w. induction signatures as [|signature rest IH]; intros w; [done|].
  simpl. rewrite bind_unfold, processSignature_unfold.
  destruct (createComment signature w) as [[e|c] w1]; apply IH.
Qed.



(** The body of the third loop throws at its first statement, and
    leaves the world as it finds it. *)
Lemma identifyReplies_throws comment w :
  identifyReplies comment w = (inl TypeError, w).
Proof. reflexivity. Qed.

(** So the third loop returns when there is no comment, and throws at
    the first comment when there is one; the world is as before it. *)
Lemma third_loop_ends n w :
  forEach (seq 0 n) identifyReplies w
  = (if bool_decide (n = 0) then inr () else inl TypeError, w).
Proof.
  destruct n as [|n]; [done|]. simpl.
  by rewrite bind_unfold, identifyReplies_throws.
Qed.


(** The statements of [parse] after the third loop. *)
Lemma parse_tail w :
  (stopTimer "identifying replies";;
   stopTimer "processing sections";;
   startTimer "post message from the worker";;
   cs ← gets (λ w, comments (cd w));
   postMessage (parseMessage cs);;
   stopTimer "post message from the worker";;
   stopTimer "worker operations";;
   logAndResetEverything) w
  = (inr (),
     timed [StopTimer "post message from the worker";
            StopTimer "worker operations"; LogAndResetEverything]
       (with_outbox (outbox w ++ [parseMessage (comments (cd w))])
          (timed [StopTimer "identifying replies";
                  StopTimer "processing sections";
                  StartTimer "post message from the worker"] w))).
Proof.
  repeat (rewrite bind_unfold; simpl).
  unfold logAndResetEverything, debugCall, modify, timed, with_outbox,
    with_debugCalls.
  simpl. by rewrite <- !app_assoc.
Qed.

(** [parse] posts one message when it returns, the comments of
    [cd.comments] as they are then, and there are none; it posts no
    message when it throws. *)
Lemma parse_posts o :
  triple (λ w, outbox w = o) parse
    (λ _ w', parse_posted o w') (λ _ w', outbox w' = o).
Proof.
  unfold parse.
  do 16 (apply triple_bind_keeps; [keeps_auto | done | intros ?]).
  apply triple_bind
    with (R := λ n w, outbox w = o ∧ n = length (comments (cd w)));
    [by intros w Hw|].
  intros n w [Ho ->]. rewrite bind_unfold, third_loop_ends.
  case_bool_decide as Hn; [|done].
  rewrite parse_tail. unfold parse_posted. simpl. rewrite Ho.
  split; [done|]. by apply length_zero_iff_nil.
Qed.




Lemma receiveParse_posts o message :
  triple (λ w, outbox w = o) (receiveParse message)
    (λ _, parse_posted o) (λ _ w', outbox w' = o).
Proof.
  unfold receiveParse.
  do 14 (apply triple_bind_keeps; [keeps_auto | done | intros ?]).
  apply parse_posts.
Qed.


Lemma onMessageFromWindow_posts o message :
  triple (λ w, outbox w = o) (onMessageFromWindow message)
    (λ _ w', if bool_decide (msg_type message = "parse")
             then parse_posted o w' else outbox w' = o)
    (λ _ w', outbox w' = o).
Proof.
  unfold onMessageFromWindow.
  do 4 (apply triple_bind_keeps; [keeps_auto | done | intros ?]).
  case_bool_decide.
  - apply receiveParse_posts.
  - by intros w Hw.
Qed.


Lemma run_snoc evs ev w : run (evs ++ [ev]) w = step (run evs w) ev.
Proof. unfold run. by rewrite fold_left_app. Qed.

Lemma parseMessage_inj cs cs' : parseMessage cs = parseMessage cs' → cs = cs'.
Proof.
  intros Heq. assert (parseMessage cs !! "comments"
                      = parseMessage cs' !! "comments") as Hl by (by rewrite Heq).
  unfold parseMessage in Hl.
  rewrite !lookup_insert_ne, !lookup_singleton_eq in Hl by done.
  by injection Hl.
Qed.

Lemma parseMessage_not_wakeUp cs : parseMessage cs ≠ wakeUp.
Proof.
  intros Heq. assert (parseMessage cs !! "comments" = wakeUp !! "comments")
    as Hl by (by rewrite Heq).
  unfold parseMessage, wakeUp in Hl.
  by rewrite lookup_insert_ne, lookup_singleton_eq, lookup_singleton_ne in Hl.
Qed.



End WorkerFacts.

(** ** The alarm *)


Section AlarmFacts.
Context `{Parser, Runtime}.


Lemma alarm_held_cleared w :
  alarm_held w →
  match alarmTimeout w with
  | Some a => delete a (timers w)
  | None => timers w
  end = ∅.
Proof.
  intros Hw. apply map_empty. intros t.
  destruct (alarmTimeout w) as [a|] eqn:Ha.
  - destruct (decide (t = a)) as [->|Hne]; [by rewrite lookup_delete_eq|].
    rewrite lookup_delete_ne by done.
    destruct (timers w !! t) as [z|] eqn:Ht; [|done].
    assert (alarmTimeout w = Some t) as Heq by (apply Hw; by exists z).
    congruence.
  - destruct (timers w !! t) as [z|] eqn:Ht; [|done].
    assert (alarmTimeout w = Some t) as Heq by (apply Hw; by exists z).
    congruence.
Qed.

(** The first message is noted on the console; after that a message goes
    to the branch of its type. *)
Lemma onMessageFromWindow_unfold message w :
  onMessageFromWindow message w =
  let w0 := noticed w in
  if bool_decide (msg_type message = "setAlarm")
  then setAlarm (msg_interval message) w0
  else if bool_decide (msg_type message = "removeAlarm")
  then clearTimeout (alarmTimeout w0) w0
  else if bool_decide (msg_type message = "parse")
  then receiveParse message w0
  else (inr (), w0).
Proof.
  unfold onMessageFromWindow, noticed. rewrite bind_unfold. simpl.
  destruct message as [type interval text mg mc]. simpl.
  destruct (firstRun w); rewrite !bind_unfold; simpl;
    repeat case_bool_decide; simplify_eq; try done;
    rewrite ?bind_unfold; simpl; try done;
    by destruct (receiveParse _ _) as [[?|[]] ?].
Qed.

Lemma setAlarm_armed interval w :
  alarm_held w →
  ∃ w', setAlarm interval w = (inr (), w') ∧
        timers w' = {[ nextTimer w := interval ]} ∧
        alarmTimeout w' = Some (nextTimer w) ∧
        nextTimer w' = S (nextTimer w) ∧
        cd w' = cd w ∧ page w' = page w ∧ outbox w' = outbox w ∧
        console w' = console w ∧ firstRun w' = firstRun w.
Proof.
  intros Hw. pose proof (alarm_held_cleared w Hw) as Hclear.
  unfold setAlarm. rewrite bind_unfold. simpl.
  eexists. split; [reflexivity|].
  destruct (alarmTimeout w); simpl in *; rewrite Hclear;
    by rewrite insert_empty.
Qed.

End AlarmFacts.

Section AlarmSteps.
Context `{Parser, Runtime}.

Lemma noticed_alarm w : alarm_of (noticed w) = alarm_of w.
Proof. unfold noticed. by destruct (firstRun w). Qed.

Lemma noticed_firstRun w : firstRun (noticed w) = false.
Proof. unfold noticed. by destruct (firstRun w) eqn:Hf. Qed.

Lemma noticed_idem w : noticed (noticed w) = noticed w.
Proof.
  pose proof (noticed_firstRun w) as Hf. unfold noticed at 1. by rewrite Hf.
Qed.

Lemma alarm_held_of w w' : alarm_of w' = alarm_of w → alarm_held w → alarm_held w'.
Proof. intros [= Ha Ht _] Hw t. rewrite Ha, Ht. apply Hw. Qed.

Lemma step_setAlarm message w :
  msg_type message = "setAlarm" → alarm_held w →
  timers (step w (Receive message)) = {[ nextTimer w := msg_interval message ]} ∧
  alarmTimeout (step w (Receive message)) = Some (nextTimer w) ∧
  nextTimer (step w (Receive message)) = S (nextTimer w).
Proof.
  intros Htype Hw. unfold step. simpl. rewrite onMessageFromWindow_unfold.
  cbv zeta. rewrite bool_decide_eq_true_2 by done.
  pose proof (noticed_alarm w) as [= Ha Ht Hn].
  destruct (setAlarm_armed (msg_interval message) (noticed w))
    as (w' & -> & Htimers & Halarm & Hnext & _).
  { apply (alarm_held_of w); [apply noticed_alarm | done]. }
  by rewrite Htimers, Halarm, Hnext, Hn.
Qed.

Lemma step_removeAlarm message w :
  msg_type message = "removeAlarm" →
  step w (Receive message) = (clearTimeout (alarmTimeout w) (noticed w)).2.
Proof.
  intros Htype. unfold step. simpl. rewrite onMessageFromWindow_unfold.
  cbv zeta. rewrite bool_decide_eq_false_2 by congruence.
  rewrite bool_decide_eq_true_2 by done.
  unfold clearTimeout, modify. simpl.
  pose proof (noticed_alarm w) as [= -> _ _]. done.
Qed.







End AlarmSteps.

(** ** Two runs side by side *)

Section Keeps2.
Context (R : World → World → Prop).

Lemma keeps2_ret {A} (a : A) : keeps2 R (mret a).
Proof. by intros w1 w2 HR. Qed.

Lemma keeps2_throw {A} e : keeps2 R (throw (A := A) e).
Proof. by intros w1 w2 HR. Qed.

Lemma keeps2_gets {A} (f : World → A) :
  (∀ w1 w2, R w1 w2 → f w1 = f w2) → keeps2 R (gets f).
Proof. intros Hf w1 w2 HR. simpl. split; [|done]. f_equal. by apply Hf. Qed.

Lemma keeps2_modify (f : World → World) :
  (∀ w1 w2, R w1 w2 → R (f w1) (f w2)) → keeps2 R (modify f).
Proof. intros Hf w1 w2 HR. simpl. split; [done|]. by apply Hf. Qed.

Lemma keeps2_bind {A B} (m : M A) (f : A → M B) :
  keeps2 R m → (∀ a, keeps2 R (f a)) → keeps2 R (m ≫= f).
Proof.
  intros Hm Hf w1 w2 HR. rewrite !bind_unfold.
  destruct (Hm w1 w2 HR) as [Hres HR'].
  destruct (m w1) as [[e1|a1] w1'], (m w2) as [[e2|a2] w2'];
    simpl in *; simplify_eq; [done|].
  by apply Hf.
Qed.

Lemma keeps2_tryCatch {A} (m : M A) h :
  keeps2 R m → (∀ e, keeps2 R (h e)) → keeps2 R (tryCatch m h).
Proof.
  intros Hm Hh w1 w2 HR. unfold tryCatch.
  destruct (Hm w1 w2 HR) as [Hres HR'].
  destruct (m w1) as [[e1|a1] w1'], (m w2) as [[e2|a2] w2'];
    simpl in *; simplify_eq; [|done].
  by apply Hh.
Qed.

Lemma keeps2_forEach {A} (l : list A) f :
  (∀ x, keeps2 R (f x)) → keeps2 R (forEach l f).
Proof.
  intros Hf. induction l as [|x l IH]; simpl.
  - apply keeps2_ret.
  - apply keeps2_bind; [apply Hf | intros _; apply IH].
Qed.

Lemma keeps2_filterM {A} (f : A → M bool) l :
  (∀ x, keeps2 R (f x)) → keeps2 R (filterM f l).
Proof.
  intros Hf. induction l as [|x l IH]; simpl.
  - apply keeps2_ret.
  - apply keeps2_bind; [apply Hf | intros b].
    apply keeps2_bind; [apply IH | intros r; apply keeps2_ret].
Qed.

(** Related worlds have the same [cd] and page, and stay related when
    both get the same page. *)
Hypothesis same_core : ∀ w1 w2, R w1 w2 → cd w1 = cd w2 ∧ page w1 = page w2.
Hypothesis same_page :
  ∀ w1 w2 p, R w1 w2 → R (with_page p w1) (with_page p w2).
Hypothesis same_cd :
  ∀ w1 w2 c, R w1 w2 → R (with_cd c w1) (with_cd c w2).

Lemma keeps2_liftOp {A} (o : Op A) : keeps2 R (liftOp o).
Proof.
  intros w1 w2 HR. unfold liftOp.
  destruct (same_core _ _ HR) as [-> ->].
  destruct (o (cd w2) (page w2)) as [r p]. split; [done|]. by apply same_page.
Qed.

Lemma keeps2_getEl el : keeps2 R (getEl el).
Proof.
  intros w1 w2 HR. unfold getEl. destruct (same_core _ _ HR) as [_ ->].
  by destruct (_ !! _).
Qed.

Lemma keeps2_updEl el f : keeps2 R (updEl el f).
Proof.
  intros w1 w2 HR. unfold updEl. destruct (same_core _ _ HR) as [_ ->].
  destruct (_ !! _); [|done]. split; [done|]. by apply same_page.
Qed.

Lemma keeps2_getComment r : keeps2 R (getComment r).
Proof.
  intros w1 w2 HR. unfold getComment. destruct (same_core _ _ HR) as [-> _].
  by destruct (_ !! _).
Qed.

Lemma keeps2_setCd f : keeps2 R (setCd f).
Proof.
  intros w1 w2 HR. unfold setCd. simpl. split; [done|].
  destruct (same_core _ _ HR) as [-> _]. by apply same_cd.
Qed.

End Keeps2.

Ltac keeps2_step side :=
  lazymatch goal with
  | |- keeps2 _ (mret _) => apply keeps2_ret
  | |- keeps2 _ (throw _) => apply keeps2_throw
  | |- keeps2 _ (gets _) => apply keeps2_gets; side
  | |- keeps2 _ (_ ≫= _) => apply keeps2_bind; [|intros ?]
  | |- keeps2 _ (tryCatch _ _) => apply keeps2_tryCatch; [|intros ?]
  | |- keeps2 _ (forEach _ _) => apply keeps2_forEach; intros ?
  | |- keeps2 _ (filterM _ _) => apply keeps2_filterM; intros ?
  | |- keeps2 _ (setCd _) => apply keeps2_setCd; side
  | |- keeps2 _ (modify _) => apply keeps2_modify; side
  | |- keeps2 _ (liftOp _) => apply keeps2_liftOp; side
  | |- keeps2 _ (getEl _) => apply keeps2_getEl; side
  | |- keeps2 _ (getComment _) => apply keeps2_getComment; side
  | |- keeps2 _ (updEl _ _) => apply keeps2_updEl; side
  | |- keeps2 _ (let _ := _ in _) => cbv zeta
  | |- keeps2 _ (match ?x with _ => _ end) => destruct x
  | |- keeps2 _ ?m => let h := get_head m in unfold h
  end.

Ltac twin_side :=
  intros; simpl in *;
  repeat match goal with
         | H : twin _ _ _ _ |- _ =>
             destruct H as (? & ? & ? & ? & ?)
         end;
  unfold twin; simpl;
  first [ done
        | congruence
        | by split_and!; [congruence..|eauto]
        | by split_and!; [congruence..|eexists; split;
                                        [by rewrite app_assoc; f_equal|
                                         by rewrite app_assoc; f_equal]] ].

Section Twins.
Context `{Parser}.

Lemma parse_afresh_twin o1 o2 : keeps2 (twin o1 o2) parse_afresh.
Proof. repeat keeps2_step twin_side. Qed.

End Twins.

(** ** A parse request, step by step *)

Section ReceiveFacts.
Context `{Parser, Runtime}.

Lemma jsEval_evaluated v w :
  jsEval v w = (evaluated v, w).
Proof.
  unfold jsEval, evaluated. destruct v; try done.
  by destruct (evalSource s).
Qed.

Lemma parse_unfold w : parse w = parse_afresh (afresh w).
Proof. reflexivity. Qed.

(** [receiveParse] merges the globals, replaces the configuration,
    evaluates the checker and the timestamp parser, parses the text, and
    calls [parse]; each of the three may throw instead. *)
Lemma receiveParse_unfold message w :
  receiveParse message w =
  match evaluated (checkerOf message) with
  | inl e => (inl e, merged message w)
  | inr checker =>
      match evaluated (default VUndefined
                         ((msg_g message ∪ g (cd w)) !! "TIMESTAMP_PARSER")) with
      | inl e => (inl e, checked message checker w)
      | inr parser =>
          match parseDOM (msg_text message) with
          | inl e => (inl e, timestamped message checker parser w)
          | inr doc => parse (installed message checker parser doc w)
          end
      end
  end.
Proof.
  unfold receiveParse. rewrite bind_unfold. simpl.
  rewrite bind_unfold. simpl. rewrite bind_unfold. simpl.
  rewrite bind_unfold. simpl.
  rewrite bind_unfold, jsEval_evaluated.
  fold (checkerOf message).
  destruct (evaluated (checkerOf message)) as [e|checker]; [done|].
  rewrite bind_unfold. simpl. rewrite bind_unfold. simpl.
  rewrite bind_unfold, jsEval_evaluated.
  destruct (evaluated _) as [e|parser]; [done|].
  rewrite bind_unfold. simpl. rewrite bind_unfold. simpl.
  rewrite bind_unfold.
  destruct (parseDOM (msg_text message)) as [e|doc];
    [simpl; unfold timestamped, timed; simpl; by rewrite <- app_assoc|].
  simpl. rewrite bind_unfold. simpl. rewrite bind_unfold. simpl.
  rewrite bind_unfold. simpl.
  unfold installed, timed. simpl. by rewrite <- !app_assoc.
Qed.

(** The outcome of [parse] is a function of the globals, the
    configuration and the document it finds: the comments, the sections
    and the anchors of an earlier parse, and everything else in the
    worker, have no part in it. *)
Lemma parse_from_environment w1 w2 :
  g (cd w1) = g (cd w2) → config (cd w1) = config (cd w2) →
  rootElement (page w1) = rootElement (page w2) →
  (parse w1).1 = (parse w2).1 ∧
  twin (outbox w1) (outbox w2) (parse w1).2 (parse w2).2.
Proof.
  intros Hg Hc Hr. rewrite !parse_unfold.
  apply parse_afresh_twin. unfold twin, afresh. simpl.
  rewrite Hg, Hc, Hr. split_and!; try done.
  exists []. by rewrite !app_nil_r.
Qed.

End ReceiveFacts.

Section History.
Context `{Parser, Runtime}.

Lemma parse_globals x : keeps (λ w, g (cd w) = x) parse.
Proof. keeps_auto. Qed.

Lemma setAlarm_cd interval w : cd (setAlarm interval w).2 = cd w.
Proof.
  assert (keeps (λ w', cd w' = cd w) (setAlarm interval)) as Hk by keeps_auto.
  by apply Hk.
Qed.

Lemma noticed_cd w : cd (noticed w) = cd w.
Proof. unfold noticed. by destruct (firstRun w). Qed.

Lemma noticed_outbox w : outbox (noticed w) = outbox w.
Proof. unfold noticed. by destruct (firstRun w). Qed.

(** An event changes the globals of the worker at the names that a parse
    request sets, and nowhere else. *)
Lemma step_globals_agree K w ev :
  (∀ earlier, ev = Receive earlier → msg_type earlier = "parse" →
              dom (msg_g earlier) ⊆ K) →
  globals_agree K (step w ev) w.
Proof.
  intros Hev.
  assert (∀ w', g (cd w') = g (cd w) → globals_agree K w' w) as Hsame.
  { intros w' Hg k ? ? ?. by rewrite Hg. }
  unfold step. destruct ev as [message|t]; simpl.
  - rewrite onMessageFromWindow_unfold. cbv zeta.
    case_bool_decide as Hset.
    { pose proof (setAlarm_cd (msg_interval message) (noticed w)) as Hcd.
      destruct (setAlarm _ _) as [[e|[]] w']; simpl in *;
        apply Hsame; simpl; by rewrite Hcd, noticed_cd. }
    case_bool_decide as Hremove.
    { simpl. apply Hsame. destruct (alarmTimeout (noticed w)); simpl;
        by rewrite noticed_cd. }
    case_bool_decide as Hparse; [|apply Hsame; by rewrite noticed_cd].
    specialize (Hev message eq_refl Hparse).
    assert (∀ k, k ∉ K → (msg_g message ∪ g (cd (noticed w))) !! k
                         = g (cd w) !! k) as Hmerge.
    { intros k Hk. rewrite noticed_cd. apply lookup_union_r.
      apply not_elem_of_dom. set_solver. }
    rewrite receiveParse_unfold.
    destruct (evaluated (checkerOf message)) as [e|checker]; simpl.
    { intros k Hk ? ?. simpl. by rewrite Hmerge. }
    destruct (evaluated _) as [e|parser]; simpl.
    { intros k Hk ? ?. simpl. by rewrite Hmerge. }
    destruct (parseDOM (msg_text message)) as [e|doc]; simpl.
    { intros k Hk ? ?. simpl. rewrite lookup_insert_ne by done.
      by rewrite Hmerge. }
    pose proof (parse_globals _ (installed message checker parser doc (noticed w))
                  eq_refl) as Hg.
    assert (globals_agree K (parse (installed message checker parser doc
                                      (noticed w))).2 w) as Hdone.
    { intros k Hk ? ?. rewrite Hg. simpl. rewrite !lookup_insert_ne by done.
      by rewrite Hmerge. }
    by destruct (parse _) as [[e|[]] w'].
  - unfold fire. destruct (timers w !! t); by apply Hsame.
Qed.

Lemma run_globals_agree message evs w :
  Forall (sets_no_more message) evs →
  globals_agree (dom (msg_g message)) (run evs w) w.
Proof.
  induction evs as [|ev evs IH] using rev_ind; intros Hevs.
  - by intros k _ _ _.
  - apply Forall_app in Hevs as [Hevs Hev]. rewrite Forall_singleton in Hev.
    rewrite run_snoc. intros k ? ? ?.
    rewrite (step_globals_agree (dom (msg_g message))); [by apply IH|..];
      [|done..].
    intros earlier -> Htype. by apply Hev.
Qed.

End History.
(** ** The loops of [parse] *)

Lemma liftOp_unfold {A} (o : Op A) w :
  liftOp o w = ((o (cd w) (page w)).1, with_page (o (cd w) (page w)).2 w).
Proof. unfold liftOp. by destruct (o (cd w) (page w)). Qed.

Section FieldFacts.
Context `{Parser}.

(** What the constructor takes from the signature and from [cd.g], and
    what it makes of the first part. *)
Lemma constructor_body_fields signature parts0 w c w' :
  constructor_body signature parts0 w = (inr c, w') →
  date c = sig_date signature ∧
  timestamp c = sig_timestampText signature ∧
  authorName c = sig_authorName signature ∧
  anchor c = sig_anchor signature ∧
  isUnsigned c = sig_isUnsigned signature ∧
  own c = bool_decide (g (cd w) !! "CURRENT_USER_NAME"
                       = Some (VStr (sig_authorName signature))) ∧
  section c = None ∧ targetComment c = None ∧
  targetCommentAuthorName c = None ∧ toMe c = None ∧
  ∃ q0 ps,
    parts c = Some (q0 :: ps) ∧
    isOpeningSection c = isHeading q0 ∧
    if isHeading q0
    then ∃ e, rootElement (page w') !! node q0 = Some e ∧
              openingSectionOfLevel c = Re.headingDepth (tagName e)
    else openingSectionOfLevel c = None.
Proof.
  unfold constructor_body. intros Hrun.
  apply bind_returns in Hrun as (n & w0 & [= <- <-] & Hrun).
  apply bind_returns in Hrun as (user & w0 & [= <- <-] & Hrun).
  apply bind_returns in Hrun as (hs & w0 & Hfilter & Hrun).
  destruct (filterM_isHighlightable _ _ _ _ Hfilter) as (-> & _).
  case_bool_decide as Hhs; [done|].
  apply bind_returns in Hrun as ([] & w1 & Hattrs & Hrun).
  apply bind_returns in Hrun as (lvl & w2 & Hlevels & Hrun).
  destruct parts0 as [|p0 rest]; [done|].
  cbv zeta in Hrun.
  destruct (if isHeading p0 && negb (lvl =? 0)%nat then tail (p0 :: rest)
            else p0 :: rest) as [|q0 ps] eqn:Hparts; [done|].
  apply bind_returns in Hrun as ([o1 o2] & w3 & Hopening & Hret).
  injection Hret as <- <-.
  cbn [date timestamp authorName anchor isUnsigned own section targetComment
       targetCommentAuthorName toMe parts isOpeningSection
       openingSectionOfLevel fst snd].
  split_and!; try done.
  exists q0, ps. split; [done|].
  destruct (isHeading q0).
  - apply bind_returns in Hopening as (e & w4 & Hget & [= <- <- <-]).
    split; [done|]. exists e. split; [|done].
    unfold getEl in Hget.
    destruct (rootElement (page w2) !! node q0) as [e0|] eqn:Hq; [|done].
    by injection Hget as <- <-.
  - by injection Hopening as <- <- <-.
Qed.

End FieldFacts.

Section PostedFacts.
Context `{Parser, Runtime}.

Lemma identifyReplies_keeps (I : World → Prop) comment :
  keeps I (identifyReplies comment).
Proof. intros w Hw. by rewrite identifyReplies_throws. Qed.

(** A message of the window has the worker post the message of a parse
    that has returned, which holds no comment, or nothing. *)
Lemma receive_posts message w :
  outbox (step w (Receive message)) = outbox w ∨
  (outbox (step w (Receive message)) = outbox w ++ [parseMessage []] ∧
   comments (cd (step w (Receive message))) = []).
Proof.
  unfold step. simpl.
  pose proof (onMessageFromWindow_posts (outbox w) message w eq_refl) as Hp.
  destruct (onMessageFromWindow message w) as [[e|[]] w']; simpl; [by left|].
  case_bool_decide; [|by left].
  destruct Hp as [Hout Hnone]. right. by rewrite Hout, Hnone.
Qed.

(** A turn of the event loop posts the message of a parse, which holds
    no comment, or [wakeUp], or nothing. *)
Lemma step_posts w ev :
  outbox (step w ev) = outbox w ∨
  outbox (step w ev) = outbox w ++ [parseMessage []] ∨
  outbox (step w ev) = outbox w ++ [wakeUp].
Proof.
  destruct ev as [message|t].
  - destruct (receive_posts message w) as [?|[? _]];
      [by left | by right; left].
  - unfold step, handler, fire.
    destruct (timers w !! t); [right; right | left]; done.
Qed.

Lemma posted_comments_none evs cs :
  parseMessage cs ∈ outbox (run evs init) → cs = [].
Proof.
  induction evs as [|ev evs IH] using rev_ind.
  - intros Hin. by apply elem_of_nil in Hin.
  - rewrite run_snoc.
    destruct (step_posts (run evs init) ev) as [ -> | [ -> | -> ] ]; [done|..].
    + intros [Hin|Hin]%elem_of_app; [by apply IH|].
      by apply list_elem_of_singleton, parseMessage_inj in Hin.
    + intros [Hin|Hin]%elem_of_app; [by apply IH|].
      apply list_elem_of_singleton in Hin.
      by apply parseMessage_not_wakeUp in Hin.
Qed.

End PostedFacts.

Section FirstLoop.
Context `{Parser, Runtime}.

Lemma constructor_fields signature w c w' :
  constructor signature w = (inr c, w') →
  cd w' = cd w ∧ signedAs c = signatureData signature ∧
  unlinked (g (cd w)) c.
Proof.
  intros Hrun. pose proof (constructor_cd signature w) as Hcd.
  rewrite Hrun in Hcd. split; [done|].
  apply constructor_returns in Hrun as (parts0 & w0 & Hparts & Hbody).
  pose proof (keeps_constructor_parts_cd signature w) as Hcd0.
  rewrite Hparts in Hcd0. simpl in Hcd0.
  destruct (constructor_body_fields _ _ _ _ _ Hbody)
    as (Hd & Ht & Ha & Han & Hu & Hown & Hs & Htc & Htn & Hme & _).
  rewrite Hcd0 in Hown. split.
  - unfold signedAs, signatureData. congruence.
  - unfold unlinked, ownBy. rewrite Ha. done.
Qed.

(** The first loop appends to [cd.comments] the comments it builds, in
    the order of the signatures, and changes nothing else in [cd]. *)
Lemma first_loop_appends signatures w w' :
  forEach signatures processSignature w = (inr (), w') →
  ∃ built,
    cd w' = set_comments (comments (cd w) ++ built) (cd w) ∧
    map signedAs built `sublist_of` map signatureData signatures ∧
    Forall (unlinked (g (cd w))) built.
Proof.
  revert w. induction signatures as [|signature rest IH]; intros w Hrun.
  - injection Hrun as <-. exists []. rewrite app_nil_r.
    split; [by destruct (cd w) | by split].
  - simpl in Hrun. rewrite bind_unfold, processSignature_unfold in Hrun.
    unfold createComment in Hrun.
    destruct (constructor signature w) as [[e|c] w1] eqn:Hbuilt.
    + pose proof (constructor_cd signature w) as Hcd.
      rewrite Hbuilt in Hcd. simpl in Hcd.
      apply IH in Hrun as (built & Hcd' & Hsub & Hall).
      exists built. split_and!.
      * rewrite Hcd'. by case_bool_decide; simpl; rewrite Hcd.
      * by apply sublist_cons.
      * by case_bool_decide; simpl in Hall; rewrite Hcd in Hall.
    + apply constructor_fields in Hbuilt as (Hcd & Hsigned & Hc).
      apply IH in Hrun as (built & Hcd' & Hsub & Hall). simpl in *.
      exists (c :: built). split_and!.
      * rewrite Hcd', Hcd. by rewrite <- app_assoc.
      * simpl. rewrite Hsigned. by apply sublist_skip.
      * rewrite Hcd in Hall. by constructor.
Qed.

(** What is in [cd.comments] after the first loop stays there to the
    end of [parse], however it ends. *)
Lemma parse_rest_comments cs :
  keeps (λ w, comments (cd w) = cs)
    (stopTimer "processing comments";;
     startTimer "processing sections";;
     headings ← liftOp findHeadings;
     forEach headings processHeading;;
     startTimer "identifying replies";;
     n ← gets (λ w, length (comments (cd w)));
     forEach (seq 0 n) identifyReplies;;
     stopTimer "identifying replies";;
     stopTimer "processing sections";;
     startTimer "post message from the worker";;
     cs ← gets (λ w, comments (cd w));
     postMessage (parseMessage cs);;
     stopTimer "post message from the worker";;
     stopTimer "worker operations";;
     logAndResetEverything).
Proof.
  repeat first [ apply identifyReplies_keeps | keeps_step keeps_side ].
Qed.

(** [parse] up to its first loop, when the timestamps and the signatures
    are found: the loop runs on the signatures, from a world with the
    [cd] object and the page that the search has left. *)
Lemma parse_first_loop w timestamps p1 signatures p2 :
  findTimestamps (cdAfresh w) (pageAfresh w) = (inr timestamps, p1) →
  findSignatures timestamps (cdAfresh w) p1 = (inr signatures, p2) →
  ∃ w2,
    cd w2 = cdAfresh w ∧ page w2 = p2 ∧ outbox w2 = outbox w ∧
    comments (cd (parse w).2)
    = comments (cd (forEach signatures processSignature w2).2).
Proof.
  unfold cdAfresh, pageAfresh. intros Htimestamps Hsignatures.
  unfold parse.
  do 5 (rewrite bind_unfold; simpl).
  rewrite bind_unfold, liftOp_unfold. unfold set_sections, set_comments.
  simpl. rewrite Htimestamps. simpl.
  do 2 (rewrite bind_unfold; simpl).
  rewrite bind_unfold, liftOp_unfold. simpl. rewrite Hsignatures. simpl.
  rewrite bind_unfold. simpl. rewrite bind_unfold.
  match goal with
  | |- context [forEach signatures processSignature ?w0] => exists w0
  end.
  split_and!; [done..|].
  pose proof (signatures_loop_returns signatures) as Hloop.
  match goal with
  | |- context [forEach signatures processSignature ?w0] =>
      specialize (Hloop w0);
      pose proof (parse_rest_comments
                    (comments (cd (forEach signatures processSignature w0).2))
                    (forEach signatures processSignature w0).2 eq_refl)
        as Hrest;
      destruct (forEach signatures processSignature w0) as [[e|[]] w3]
  end; [done|].
  exact Hrest.
Qed.

End FirstLoop.
(** ** The event loop *)



Section AlarmCount.
Context `{Parser, Runtime}.




End AlarmCount.

(** ** The requests of the window *)

Lemma functionHead_prefixed s : Re.functionHead ("function " +:+ s) = true.
Proof. by destruct s. Qed.

(** * The claims *)

(** ** The section of a comment *)

(** C7. The section of a comment is the section created last among those
    whose comment list contains the comment: [getSection] returns [s]
    exactly when [cd.sections] splits into older sections, [s], and newer
    sections none of which lists the comment; it returns [null] exactly
    when no section lists the comment. *)
Theorem getSection_most_recent (this : CommentRef) (cd_sections : list Section) :
  (∀ s, getSection this cd_sections = Some s ↔
        ∃ older newer,
          cd_sections = older ++ s :: newer ∧
          this ∈ sec_comments s ∧
          Forall (λ s', this ∉ sec_comments s') newer) ∧
  (getSection this cd_sections = None ↔
   Forall (λ s, this ∉ sec_comments s) cd_sections).
Proof.
  unfold getSection.
  induction cd_sections as [|s0 ss IH] using rev_ind.
  - split.
    + intros s. split; [done|]. intros (older & newer & Heq & _).
      by destruct older.
    + split; [by constructor | done].
  - destruct IH as [IHsome IHnone].
    rewrite rev_app_distr. simpl.
    destruct (bool_decide (this ∈ sec_comments s0)) eqn:Hin.
    + apply bool_decide_eq_true in Hin. split.
      * intros s. split.
        -- intros [= <-]. exists ss, []. by repeat split.
        -- intros (older & newer & Heq & Hs & Hnewer).
           destruct newer as [|n newer _] using rev_ind.
           ++ apply app_inj_tail in Heq as [_ ->]. done.
           ++ replace (older ++ s :: newer ++ [n]) with ((older ++ s :: newer) ++ [n])
                in Heq by (by rewrite <- app_assoc).
              apply app_inj_tail in Heq as [_ ->].
              apply Forall_app in Hnewer as [_ Hn].
              rewrite Forall_singleton in Hn. by destruct Hn.
      * split; [done|]. intros [_ Hs0]%Forall_app.
        rewrite Forall_singleton in Hs0. by destruct Hs0.
    + apply bool_decide_eq_false in Hin. split.
      * intros s. rewrite IHsome. split.
        -- intros (older & newer & -> & Hs & Hnewer).
           exists older, (newer ++ [s0]). split; [by rewrite <- app_assoc|].
           split; [done|]. apply Forall_app. split; [done|].
           by apply Forall_singleton.
        -- intros (older & newer & Heq & Hs & Hnewer).
           destruct newer as [|n newer _] using rev_ind.
           ++ apply app_inj_tail in Heq as [_ ->]. done.
           ++ replace (older ++ s :: newer ++ [n]) with ((older ++ s :: newer) ++ [n])
                in Heq by (by rewrite <- app_assoc).
              apply app_inj_tail in Heq as [-> ->].
              apply Forall_app in Hnewer as [Hnewer _].
              by exists older, newer.
      * rewrite IHnone. split.
        -- intros Hss. apply Forall_app. split; [done|].
           by apply Forall_singleton.
        -- by intros [? _]%Forall_app.
Qed.

(** The getter looks the section up when it is first read, and answers
    from its cache after that. *)
Lemma section_getter_first this cd_sections :
  section_getter this None cd_sections
  = (getSection this cd_sections, Some (getSection this cd_sections)).
Proof. reflexivity. Qed.

Lemma section_getter_cached this cached cd_sections :
  section_getter this (Some cached) cd_sections = (cached, Some cached).
Proof. reflexivity. Qed.

(** ** The parts of a comment *)

Lemma last_of_cons {A} (x : A) (l : list A) (d1 d2 : A) :
  List.last (x :: l) d1 = List.last (x :: l) d2.
Proof.
  revert x. induction l as [|y l IH]; intros x; [done|].
  change (List.last (y :: l) d1 = List.last (y :: l) d2). apply IH.
Qed.

Section ConstructorClaims.
Context `{Parser}.

(** C3, as the code has it. Of a constructed comment the list
    [highlightables] is not empty, each of its elements is highlightable
    and is an element of one of the collected parts; [parts] is not
    empty, and is the collected parts or these without the first (it may
    hold parts that are not highlightable). When none of the collected
    parts is highlightable the constructor throws and leaves no
    comment. *)
Theorem highlightables_never_empty signature w parts0 w1 :
  constructor_parts signature w = (inr parts0, w1) →
  (∀ c w', constructor signature w = (inr c, w') →
     ∃ hs ps,
       highlightables c = Some hs ∧ hs ≠ [] ∧
       Forall (Highlightable w1) hs ∧
       hs `sublist_of` map node parts0 ∧
       parts c = Some ps ∧ ps ≠ [] ∧ (ps = parts0 ∨ ps = tail parts0)) ∧
  (Forall (λ el, ¬ Highlightable w1 el) (map node parts0) →
   ∃ e, constructor signature w = (inl e, w1)).
Proof.
  intros Hparts. rewrite (constructor_unfold _ _ _ _ Hparts). split.
  - intros c w' Hbody.
    apply constructor_body_returns in Hbody
      as (hs & w2 & p0 & rest & -> & Hfilter & Hhs & _ & _ & _ & Hh & _
          & Hp & _ & Hne).
    destruct (filterM_isHighlightable _ _ _ _ Hfilter) as (_ & Hsub & Hall & _).
    eexists hs, _. split_and!; try done.
    destruct (isHeading p0 && _); [by right | by left].
  - apply constructor_body_throws.
Qed.

(** C4, as the code has it. When the collected parts begin with a
    heading, [followsHeading] is true; at a level other than 0 the
    heading is removed from [parts] and [elements], at level 0 it stays
    in both. *)
Theorem heading_part_dropped_off_top_level signature w p0 rest w1 c w' :
  constructor_parts signature w = (inr (p0 :: rest), w1) →
  constructor signature w = (inr c, w') →
  isHeading p0 = true →
  followsHeading c = true ∧
  (level c ≠ 0 →
   parts c = Some rest ∧ elements c = Some (map node rest)) ∧
  (level c = 0 →
   parts c = Some (p0 :: rest) ∧ elements c = Some (map node (p0 :: rest))).
Proof.
  intros Hparts Hrun Hheading.
  rewrite (constructor_unfold _ _ _ _ Hparts) in Hrun.
  apply constructor_body_returns in Hrun
    as (hs & w2 & p0' & rest' & [= <- <-] & _ & _ & _ & _ & _ & _ & Hf
        & Hp & He & _).
  rewrite Hheading in Hp, He. simpl in Hp, He.
  split; [done|]. split; intros Hlevel.
  - apply Nat.eqb_neq in Hlevel. rewrite Hlevel in Hp, He. done.
  - rewrite Hlevel in Hp, He. done.
Qed.

(** C6, as the code has it. The level of a constructed comment is the
    smaller of two counts: the length of the walk up the tree from its
    first highlightable element, and the length of the walk from its last
    highlightable element; with a single element the second walk is not
    made and the count of the first is taken for both. *)
Theorem level_is_min_of_walks signature w parts0 w1 c w' :
  constructor_parts signature w = (inr parts0, w1) →
  constructor signature w = (inr c, w') →
  ∃ hs top bottom wa wt wb,
    highlightables c = Some hs ∧ hs ≠ [] ∧
    addAttributes (sig_anchor signature) (id c) (map node parts0) w1
      = (inr (), wa) ∧
    liftOp (getLevelsUpTree (hd 0 hs) "top") wa = (inr top, wt) ∧
    (1 < length parts0 →
     liftOp (getLevelsUpTree (List.last hs 0) "bottom") wt
       = (inr bottom, wb)) ∧
    (length parts0 ≤ 1 → bottom = top) ∧
    level c = length top `min` length bottom ∧
    level c ≤ length top ∧ level c ≤ length bottom.
Proof.
  intros Hparts Hrun.
  rewrite (constructor_unfold _ _ _ _ Hparts) in Hrun.
  apply constructor_body_returns in Hrun
    as (hs & wa & p0 & rest & -> & _ & _ & Hattrs & Hlevels & Hid & Hh & _).
  apply setLevels_returns in Hlevels
    as (h0 & hs' & top & wt & bottom & wb & -> & Htop & Hbottom & Hlevel).
  exists (h0 :: hs'), top, bottom, wa, wt, wb.
  rewrite length_map in Hbottom. rewrite Hid.
  split_and!; try done; try lia.
  - intros Hlen. rewrite bool_decide_eq_true_2 in Hbottom by done.
    by rewrite (last_of_cons _ _ 0 h0).
  - intros Hlen. rewrite bool_decide_eq_false_2 in Hbottom by lia.
    by destruct Hbottom.
Qed.

End ConstructorClaims.

(** ** The constructor on the pages of the examples *)

Section ConstructorExamples.
Import SpecParser Examples.

(** The page [<div style="float: right">Box</div><p>Text ~~~~</p>]: the
    comment is built, and its parts hold the floated box. *)
Lemma highlightables_never_empty_witness :
  ∃ c w',
    constructor (signatureOf "Bob" 2) (worldOn floatPage) = (inr c, w') ∧
    highlightables c = Some [2] ∧
    Highlightable (worldOn floatPage) 2 ∧
    parts c = Some [mkPart 1 false; mkPart 2 false].
Proof.
  destruct (constructor (signatureOf "Bob" 2) (worldOn floatPage))
    as [[e|c] w'] eqn:Hrun; [by vm_compute in Hrun|].
  exists c, w'. split; [done|].
  assert (constructor_parts (signatureOf "Bob" 2) (worldOn floatPage)
          = (inr [mkPart 1 false; mkPart 2 false], worldOn floatPage))
    as Hparts by (vm_compute; reflexivity).
  destruct (highlightables_never_empty _ _ _ _ Hparts) as [Hbuilt _].
  destruct (Hbuilt c w' Hrun) as (hs & ps & Hhs & _ & Hall & _ & Hps & _).
  vm_compute in Hrun. injection Hrun as <- <-.
  injection Hhs as <-. injection Hps as <-.
  split; [done|]. split; [|done].
  by apply Forall_cons in Hall as [? _].
Defined.

(** C3 as it is written fails: a comment is built whose parts hold an
    element with a float style, which is not highlightable, neither when
    the comment is built nor after. *)
Lemma parts_may_hold_unhighlightable_elements :
  ∃ c w' ps,
    constructor (signatureOf "Bob" 2) (worldOn floatPage) = (inr c, w') ∧
    parts c = Some ps ∧
    ¬ Forall (λ p, Highlightable (worldOn floatPage) (node p)) ps ∧
    ¬ Forall (λ p, Highlightable w' (node p)) ps.
Proof.
  eexists _, _, _. split; [vm_compute; reflexivity|].
  split; [reflexivity|].
  split; intros [Hbox _]%Forall_cons;
    destruct Hbox as (e & names & He & _ & _ & _ & Hfloat);
    vm_compute in He; injection He as <-; by vm_compute in Hfloat.
Qed.

(** The page [<h2>Topic</h2><dl><dd>Reply ~~~~</dd></dl>]: the comment
    is at level 1 and its heading is removed. *)
Lemma heading_part_dropped_off_top_level_witness :
  ∃ c w',
    constructor (signatureOf "Bob" 3) (worldOn replyPage) = (inr c, w') ∧
    level c = 1 ∧ followsHeading c = true ∧
    parts c = Some [mkPart 3 false] ∧ elements c = Some [3].
Proof.
  destruct (constructor (signatureOf "Bob" 3) (worldOn replyPage))
    as [[e|c] w'] eqn:Hrun; [by vm_compute in Hrun|].
  exists c, w'. split; [done|].
  assert (constructor_parts (signatureOf "Bob" 3) (worldOn replyPage)
          = (inr [mkPart 1 true; mkPart 3 false], worldOn replyPage))
    as Hparts by (vm_compute; reflexivity).
  destruct (heading_part_dropped_off_top_level _ _ _ _ _ _ _ Hparts Hrun
              eq_refl) as (Hfollows & Hdeep & _).
  vm_compute in Hrun. injection Hrun as <- <-.
  destruct Hdeep as [Hp He]; [done|]. by split_and!.
Defined.

(** C4 as it is written fails in both halves: at level 0 the heading
    stays in the parts, at level 1 it is removed. *)
Lemma heading_part_kept_at_top_level :
  (∃ c w',
     constructor_parts (signatureOf "Bob" 2) (worldOn openingPage)
       = (inr [mkPart 1 true; mkPart 2 false], worldOn openingPage) ∧
     constructor (signatureOf "Bob" 2) (worldOn openingPage) = (inr c, w') ∧
     level c = 0 ∧
     parts c = Some [mkPart 1 true; mkPart 2 false] ∧
     elements c = Some [1; 2]) ∧
  (∃ c w',
     constructor_parts (signatureOf "Bob" 3) (worldOn replyPage)
       = (inr [mkPart 1 true; mkPart 3 false], worldOn replyPage) ∧
     constructor (signatureOf "Bob" 3) (worldOn replyPage) = (inr c, w') ∧
     level c = 1 ∧
     parts c = Some [mkPart 3 false] ∧
     elements c = Some [3]).
Proof.
  split; eexists _, _; (split; [vm_compute; reflexivity|]);
    (split; [vm_compute; reflexivity|]); by split_and!.
Qed.

(** C5 fails on the code. The parts of the comment of
    [<p>Hello. ~~~~</p>] are one paragraph and no heading, and
    [followsHeading] is true. *)
Theorem followsHeading_without_heading :
  ∃ c w',
    constructor_parts (signatureOf "Alice" 1) (worldOn helloPage)
      = (inr [mkPart 1 false], worldOn helloPage) ∧
    constructor (signatureOf "Alice" 1) (worldOn helloPage) = (inr c, w') ∧
    followsHeading c = true.
Proof.
  eexists _, _. split; [vm_compute; reflexivity|].
  split; [vm_compute; reflexivity|]. reflexivity.
Qed.

(** The page [<h2>Topic</h2><dl><dd>Reply ~~~~</dd></dl>]: both walks
    start at the [dd] and find the [dl]; the level is 1. *)
Lemma level_is_min_of_walks_witness :
  ∃ c w',
    constructor (signatureOf "Bob" 3) (worldOn replyPage) = (inr c, w') ∧
    highlightables c = Some [3] ∧
    (liftOp (getLevelsUpTree 3 "top") (worldOn replyPage)).1 = inr [2] ∧
    level c = 1.
Proof.
  destruct (constructor (signatureOf "Bob" 3) (worldOn replyPage))
    as [[e|c] w'] eqn:Hrun; [by vm_compute in Hrun|].
  exists c, w'. split; [done|].
  assert (constructor_parts (signatureOf "Bob" 3) (worldOn replyPage)
          = (inr [mkPart 1 true; mkPart 3 false], worldOn replyPage))
    as Hparts by (vm_compute; reflexivity).
  destruct (level_is_min_of_walks _ _ _ _ _ _ Hparts Hrun)
    as (hs & top & bottom & wa & wt & wb & Hhs & _ & _ & _ & _ & _ & Hlevel
        & _).
  vm_compute in Hrun. injection Hrun as <- <-.
  split; [done|]. split; [by vm_compute|]. done.
Defined.

(** C6 as it is written fails. The parts of the comment of
    [<h2>Topic</h2><dl><dd>Reply ~~~~</dd></dl>] are the heading and the
    [dd]. The walk from the first part, the heading, finds nothing and the
    walk from the last finds the [dl], before the constructor and after
    it; the smaller count is 0 and the level is 1. *)
Lemma level_is_not_counted_from_first_part :
  ∃ c w',
    constructor_parts (signatureOf "Bob" 3) (worldOn replyPage)
      = (inr [mkPart 1 true; mkPart 3 false], worldOn replyPage) ∧
    constructor (signatureOf "Bob" 3) (worldOn replyPage) = (inr c, w') ∧
    (liftOp (getLevelsUpTree 1 "top") (worldOn replyPage)).1 = inr [] ∧
    (liftOp (getLevelsUpTree 3 "bottom") (worldOn replyPage)).1 = inr [2] ∧
    (liftOp (getLevelsUpTree 1 "top") w').1 = inr [] ∧
    (liftOp (getLevelsUpTree 3 "bottom") w').1 = inr [2] ∧
    level c = 1 ∧
    level c ≠ length (@nil ElemRef) `min` length [2].
Proof.
  eexists _, _. split; [vm_compute; reflexivity|].
  split; [vm_compute; reflexivity|].
  split_and!; by vm_compute.
Qed.

End ConstructorExamples.

(** Every comment the constructor builds has [followsHeading] set: both
    branches of the test of the first part assign [true]. *)
Lemma followsHeading_always `{Parser} signature w c w' :
  constructor signature w = (inr c, w') → followsHeading c = true.
Proof.
  intros (parts0 & w1 & _ & Hbody)%constructor_returns.
  by apply constructor_body_returns in Hbody
    as (? & ? & ? & ? & _ & _ & _ & _ & _ & _ & _ & ? & _).
Qed.

(** ** The loops of [parse] and the response *)

Section ParseClaims.
Context `{Parser, Runtime}.

(** C1, as the code has it. A parse request is answered by one message
    when its handling returns, and by none when an exception ends it. The
    message has the two keys [type] and [comments], and no other: [type]
    is ["parse"] and [comments] is [cd.comments] as the parse left it.
    There is no [sections] key. *)
Theorem parse_request_answered_once message w :
  msg_type message = "parse" →
  match onMessageFromWindow message w with
  | (inr _, w') =>
      ∃ response,
        outbox w' = outbox w ++ [response] ∧
        response !! "type" = Some (MStr "parse") ∧
        response !! "comments" = Some (MComments (comments (cd w'))) ∧
        (∀ key, is_Some (response !! key) ↔ key = "type" ∨ key = "comments")
  | (inl _, w') => outbox w' = outbox w
  end.
Proof.
  intros Htype.
  pose proof (onMessageFromWindow_posts (outbox w) message w eq_refl) as Hp.
  destruct (onMessageFromWindow message w) as [[e|[]] w']; [done|].
  rewrite bool_decide_eq_true_2 in Hp by done. destruct Hp as [Hout _].
  eexists. split; [exact Hout|]. unfold parseMessage. split_and!.
  - by rewrite lookup_insert_eq.
  - by rewrite lookup_insert_ne, lookup_singleton_eq.
  - intros key. rewrite lookup_insert_is_Some, lookup_singleton_is_Some.
    split.
    + intros [ <- | [_ <-] ]; auto.
    + intros [ -> | -> ]; auto.
Qed.

(** X28. In the first loop of [parse] a signature whose comment cannot
    be built is skipped. When no collected part is highlightable the
    constructor throws [CdError]; when the constructor throws, whatever
    it throws, [cd.comments] is as before, the body of the loop returns,
    and the loop goes on with the signatures that remain; a comment that
    is built is appended; and the loop over the signatures returns,
    whatever they are. [parse] runs this loop on the signatures it has
    found, from [cd.comments] empty, and what the loop leaves in
    [cd.comments] is there when [parse] ends, however it ends. *)
Theorem failed_signature_is_skipped signature w :
  (∀ parts0 w0,
     constructor_parts signature w = (inr parts0, w0) →
     Forall (λ el, isHighlightable el w0 = (inr false, w0)) (map node parts0) →
     createComment signature w = (inl CdError, w0)) ∧
  (∀ e w1,
     createComment signature w = (inl e, w1) →
     comments (cd w1) = comments (cd w) ∧
     ∃ w2,
       processSignature signature w = (inr (), w2) ∧
       comments (cd w2) = comments (cd w) ∧
       ∀ rest,
         forEach (signature :: rest) processSignature w
         = forEach rest processSignature w2) ∧
  (∀ c w1,
     createComment signature w = (inr c, w1) →
     ∃ w2,
       processSignature signature w = (inr (), w2) ∧
       comments (cd w2) = comments (cd w) ++ [c]) ∧
  (∀ signatures, (forEach signatures processSignature w).1 = inr ()) ∧
  (∀ timestamps p1 signatures p2,
     findTimestamps (cdAfresh w) (pageAfresh w) = (inr timestamps, p1) →
     findSignatures timestamps (cdAfresh w) p1 = (inr signatures, p2) →
     ∃ w2,
       cd w2 = cdAfresh w ∧ page w2 = p2 ∧
       comments (cd (parse w).2)
       = comments (cd (forEach signatures processSignature w2).2)).
Proof.
  split_and!.
  - intros parts0 w0 Hparts Hnone. unfold createComment.
    rewrite (constructor_unfold _ _ _ _ Hparts). unfold constructor_body.
    rewrite bind_unfold. simpl. rewrite bind_unfold. simpl.
    rewrite bind_unfold, (filterM_none_highlightable _ _ Hnone).
    by rewrite bool_decide_eq_true_2.
  - intros e w1 Hrun.
    pose proof (constructor_cd signature w) as Hcd.
    unfold createComment in Hrun. rewrite Hrun in Hcd. simpl in Hcd.
    split; [by rewrite Hcd|].
    pose proof (processSignature_unfold signature w) as Hbody.
    unfold createComment in Hbody. rewrite Hrun in Hbody.
    eexists. split; [exact Hbody|]. split.
    + case_bool_decide; simpl; by rewrite Hcd.
    + intros rest. simpl. by rewrite bind_unfold, Hbody.
  - intros c w1 Hrun.
    pose proof (constructor_cd signature w) as Hcd.
    unfold createComment in Hrun. rewrite Hrun in Hcd. simpl in Hcd.
    pose proof (processSignature_unfold signature w) as Hbody.
    unfold createComment in Hbody. rewrite Hrun in Hbody.
    eexists. split; [exact Hbody|]. simpl. by rewrite Hcd.
  - intros signatures. apply signatures_loop_returns.
  - intros timestamps p1 signatures p2 Htimestamps Hsignatures.
    destruct (parse_first_loop w _ _ _ _ Htimestamps Hsignatures)
      as (w2 & Hcd & Hpage & _ & Hcomments).
    by exists w2.
Qed.


End ParseClaims.

(** ** What survives a parse *)

Section StateClaims.
Context `{Parser, Runtime}.

Lemma posted_of_outbox w ev posts :
  outbox (step w ev) = outbox w ++ posts → posted w ev = posts.
Proof. intros Hout. unfold posted. by rewrite Hout, drop_app_length. Qed.

Lemma step_outbox_of_handler w ev :
  outbox (step w ev) = outbox (handler ev w).2.
Proof. unfold step. by destruct (handler ev w) as [[e|[]] w']. Qed.

(** The outbox after a message of the window. *)
Lemma step_receive_outbox message w :
  outbox (step w (Receive message)) =
  if bool_decide (msg_type message = "parse")
  then match evaluated (checkerOf message) with
       | inl _ => outbox w
       | inr checker =>
           match evaluated (default VUndefined
                              ((msg_g message ∪ g (cd w)) !! "TIMESTAMP_PARSER")) with
           | inl _ => outbox w
           | inr parser =>
               match parseDOM (msg_text message) with
               | inl _ => outbox w
               | inr doc =>
                   outbox (parse (installed message checker parser doc
                                    (noticed w))).2
               end
           end
       end
  else outbox w.
Proof.
  rewrite step_outbox_of_handler. simpl.
  rewrite onMessageFromWindow_unfold. cbv zeta.
  case_bool_decide as Hset.
  { rewrite bool_decide_eq_false_2 by congruence.
    assert (keeps (λ w', outbox w' = outbox w)
                  (setAlarm (msg_interval message))) as Hk by keeps_auto.
    apply Hk, noticed_outbox. }
  case_bool_decide as Hremove.
  { rewrite bool_decide_eq_false_2 by congruence. simpl.
    destruct (alarmTimeout (noticed w)); simpl; apply noticed_outbox. }
  case_bool_decide as Hparse; [|apply noticed_outbox].
  rewrite receiveParse_unfold, noticed_cd.
  destruct (evaluated (checkerOf message)); [apply noticed_outbox|].
  destruct (evaluated _); [apply noticed_outbox|].
  destruct (parseDOM _); [apply noticed_outbox|done].
Qed.

(** Two workers whose globals differ at no other names than those a
    request sets answer the request with the same messages. *)
Lemma same_answer message w1 w2 :
  "TIMESTAMP_PARSER" ∈ dom (msg_g message) →
  globals_agree (dom (msg_g message)) w1 w2 →
  posted w1 (Receive message) = posted w2 (Receive message).
Proof.
  intros Hparser Hagree.
  assert (∀ w, (msg_g message ∪ g (cd w)) !! "TIMESTAMP_PARSER"
               = msg_g message !! "TIMESTAMP_PARSER") as Hlookup.
  { intros w. apply elem_of_dom in Hparser as [v Hv].
    rewrite Hv. by apply lookup_union_Some_l. }
  pose proof (step_receive_outbox message w1) as Hout1.
  pose proof (step_receive_outbox message w2) as Hout2.
  rewrite Hlookup in Hout1, Hout2.
  assert (∀ w, outbox (step w (Receive message)) = outbox w →
               posted w (Receive message) = []) as Hquiet.
  { intros w Hout. apply posted_of_outbox. by rewrite Hout, app_nil_r. }
  case_bool_decide as Hparse; [|by rewrite !Hquiet].
  destruct (evaluated (checkerOf message)) as [e|checker];
    [by rewrite !Hquiet|].
  destruct (evaluated _) as [e|parser]; [by rewrite !Hquiet|].
  destruct (parseDOM (msg_text message)) as [e|doc]; [by rewrite !Hquiet|].
  destruct (parse_from_environment
              (installed message checker parser doc (noticed w1))
              (installed message checker parser doc (noticed w2)))
    as (_ & _ & _ & posts & Hposts1 & Hposts2); [|done|done|].
  { simpl. apply map_eq. intros k. rewrite !lookup_insert.
    destruct (decide ("specialElements.pageHasOutdents" = k)); [done|].
    destruct (decide ("TIMESTAMP_PARSER" = k)); [done|].
    destruct (msg_g message !! k) as [v|] eqn:Hk.
    - by rewrite !(lookup_union_Some_l _ _ _ _ Hk).
    - rewrite !lookup_union_r, !noticed_cd by done.
      apply not_elem_of_dom in Hk. by apply Hagree. }
  simpl in Hposts1, Hposts2. rewrite noticed_outbox in Hposts1, Hposts2.
  rewrite (posted_of_outbox w1 _ posts), (posted_of_outbox w2 _ posts);
    [done|congruence..].
Qed.

Lemma step_cd_of_handler w ev : cd (step w ev) = cd (handler ev w).2.
Proof. unfold step. by destruct (handler ev w) as [[e|[]] w']. Qed.

Lemma step_page_of_handler w ev : page (step w ev) = page (handler ev w).2.
Proof. unfold step. by destruct (handler ev w) as [[e|[]] w']. Qed.

Lemma other_message_returns message w :
  msg_type message ≠ "parse" → (onMessageFromWindow message w).1 = inr ().
Proof.
  intros Htype. rewrite onMessageFromWindow_unfold. cbv zeta.
  by repeat case_bool_decide.
Qed.

(** Two workers whose globals differ at no other names than those a
    request sets handle the request with the same outcome, and when the
    handling gets as far as [parse] they are left with the same [cd]
    object and the same page. *)
Lemma same_handling message w1 w2 :
  "TIMESTAMP_PARSER" ∈ dom (msg_g message) →
  globals_agree (dom (msg_g message)) w1 w2 →
  (onMessageFromWindow message w1).1 = (onMessageFromWindow message w2).1 ∧
  (reaches_parse message →
   cd (step w1 (Receive message)) = cd (step w2 (Receive message)) ∧
   page (step w1 (Receive message)) = page (step w2 (Receive message))).
Proof.
  intros Hparser Hagree.
  destruct (decide (msg_type message = "parse")) as [Htype|Htype].
  2:{ split; [by rewrite !other_message_returns|]. by intros [? _]. }
  assert (∀ w, (msg_g message ∪ g (cd w)) !! "TIMESTAMP_PARSER"
               = msg_g message !! "TIMESTAMP_PARSER") as Hlookup.
  { intros w. apply elem_of_dom in Hparser as [v Hv].
    rewrite Hv. by apply lookup_union_Some_l. }
  rewrite !step_cd_of_handler, !step_page_of_handler. simpl.
  rewrite !onMessageFromWindow_unfold. cbv zeta.
  rewrite !(bool_decide_eq_false_2 (msg_type message = "setAlarm"))
    by congruence.
  rewrite !(bool_decide_eq_false_2 (msg_type message = "removeAlarm"))
    by congruence.
  rewrite !(bool_decide_eq_true_2 (msg_type message = "parse")) by done.
  rewrite !receiveParse_unfold, !noticed_cd, !Hlookup.
  unfold reaches_parse.
  destruct (evaluated (checkerOf message)) as [e|checker];
    [split; [done|]; by intros (_ & ? & ? & ? & ? & _)|].
  destruct (evaluated _) as [e|parser];
    [split; [done|]; by intros (_ & ? & ? & ? & _ & ? & _)|].
  destruct (parseDOM (msg_text message)) as [e|doc];
    [split; [done|]; by intros (_ & ? & ? & ? & _ & _ & ?)|].
  destruct (parse_from_environment
              (installed message checker parser doc (noticed w1))
              (installed message checker parser doc (noticed w2)))
    as (Hends & Hcd & Hpage & _); [|done|done|by split].
  simpl. apply map_eq. intros k. rewrite !lookup_insert.
  destruct (decide ("specialElements.pageHasOutdents" = k)); [done|].
  destruct (decide ("TIMESTAMP_PARSER" = k)); [done|].
  destruct (msg_g message !! k) as [v|] eqn:Hk.
  - by rewrite !(lookup_union_Some_l _ _ _ _ Hk).
  - rewrite !lookup_union_r, !noticed_cd by done.
    apply not_elem_of_dom in Hk. by apply Hagree.
Qed.

(** C9, as the code has it. A parse request is handled the same way
    again: after any events that set no globals of other names than the
    request does (the request itself, other requests of the window,
    alarms), the handling ends as it ends from the world before them,
    with the same exception if with one, and the same messages posted;
    and when it gets as far as [parse], with the same comments, the same
    sections and the same anchors. From the worker just loaded
    ([w := init]) this is the outcome in a fresh worker. The comments,
    the sections and the anchors of earlier parses are reset; the globals
    are not, a request is merged into them, so the request has to carry
    the source of the timestamp parser, and the events between must not
    have set other globals. The reset is the beginning of [parse]: it
    runs from any world as from that world with [cd.comments],
    [cd.sections] and the anchors emptied. *)
Theorem parse_is_repeatable message w evs :
  "TIMESTAMP_PARSER" ∈ dom (msg_g message) →
  Forall (sets_no_more message) evs →
  (onMessageFromWindow message (run evs w)).1
  = (onMessageFromWindow message w).1 ∧
  posted (run evs w) (Receive message) = posted w (Receive message) ∧
  (reaches_parse message →
   comments (cd (step (run evs w) (Receive message)))
   = comments (cd (step w (Receive message))) ∧
   sections (cd (step (run evs w) (Receive message)))
   = sections (cd (step w (Receive message))) ∧
   commentAnchors (page (step (run evs w) (Receive message)))
   = commentAnchors (page (step w (Receive message)))) ∧
  (∀ w0, parse w0 = parse (afresh w0)).
Proof.
  intros Hparser Hevs.
  pose proof (run_globals_agree message evs w Hevs) as Hagree.
  destruct (same_handling message _ _ Hparser Hagree) as [Hends Hlists].
  split; [done|]. split; [by apply same_answer|]. split; [|done].
  intros Hreaches. destruct (Hlists Hreaches) as [-> ->]. done.
Qed.


End StateClaims.
(** ** The worker on the pages of the examples *)

Section WorkerExamples.
Import SpecParser Examples.

(** C1 as it is written fails. The page
    [<h2>Topic</h2><p>Nothing yet.</p>] has a section and no comment. The
    parse finds the section and keeps it in [cd.sections]; the one message
    posted has the list of the comments, which is empty, and no
    [sections] key. *)
Lemma response_has_no_sections :
  ∃ response,
    outbox (step init (Receive (parseRequest headingText))) = [response] ∧
    sections (cd (step init (Receive (parseRequest headingText))))
    = [mkSection (Some 0) "Topic" "Topic" 2 []] ∧
    response !! "comments" = Some (MComments []) ∧
    response !! "sections" = None.
Proof. exists (parseMessage []). split_and!; by vm_compute. Qed.

(** The request for that page is answered by one message; the handling
    of the request for [<p>Hello. ~~~~</p>] ends with an exception, and
    nothing is posted. *)
Lemma parse_request_answered_once_witness :
  (∃ response,
     outbox (step init (Receive (parseRequest headingText))) = [response] ∧
     response !! "type" = Some (MStr "parse") ∧
     response !! "sections" = None) ∧
  outbox (step init (Receive (parseRequest helloText))) = [].
Proof.
  split.
  - pose proof (parse_request_answered_once (parseRequest headingText) init
                  eq_refl) as Hanswer.
    unfold step, handler.
    destruct (onMessageFromWindow (parseRequest headingText) init)
      as [[e|[]] w'] eqn:Hrun; [by vm_compute in Hrun|].
    destruct Hanswer as (response & Hout & Htype & _ & Hkeys).
    exists response. split_and!; [done..|].
    destruct (response !! "sections") as [v|] eqn:Hsections; [|done].
    destruct (proj1 (Hkeys "sections")) as [?|?]; [by exists v|done..].
  - pose proof (parse_request_answered_once (parseRequest helloText) init
                  eq_refl) as Hanswer.
    unfold step, handler.
    destruct (onMessageFromWindow (parseRequest helloText) init)
      as [[e|[]] w'] eqn:Hrun; [exact Hanswer | by vm_compute in Hrun].
Defined.

(** C2 fails on the page
    [<div style="float:right">Box ~~~~</div><p>Text ~~~~</p>
    <dl><dd>Reply ~~~~</dd></dl>]. The signature of Carol, whose comment
    is the floated box alone, is skipped, and the comments of Bob and of
    Alice are built and are in [cd.comments]; but they are not emitted:
    the third loop throws at the first of them, the exception ends the
    handling of the request, and nothing is posted. *)
Lemma skipped_signature_others_not_emitted :
  map authorName
      (comments (cd (step init (Receive (parseRequest floatOnlyText)))))
  = ["Bob"; "Alice"] ∧
  map id (comments (cd (step init (Receive (parseRequest floatOnlyText)))))
  = [0; 1] ∧
  (onMessageFromWindow (parseRequest floatOnlyText) init).1
  = inl TypeError ∧
  outbox (step init (Receive (parseRequest floatOnlyText))) = [].
Proof. split_and!; by vm_compute. Qed.

(** On the page
    [<div style="float:right">Box ~~~~</div><p>Text ~~~~</p>...] the
    first signature has the floated box alone: its comment is not built,
    and the loop goes on. *)
Lemma failed_signature_is_skipped_witness :
  createComment (signatureOf "Carol" 1) (worldOn floatOnlyPage)
  = (inl CdError, worldOn floatOnlyPage) ∧
  processSignature (signatureOf "Carol" 1) (worldOn floatOnlyPage)
  = (inr (), worldOn floatOnlyPage) ∧
  ∀ rest,
    forEach (signatureOf "Carol" 1 :: rest) processSignature
            (worldOn floatOnlyPage)
    = forEach rest processSignature (worldOn floatOnlyPage).
Proof.
  destruct (failed_signature_is_skipped (signatureOf "Carol" 1)
              (worldOn floatOnlyPage)) as (Hnone & Hfailed & _ & _ & _).
  assert (createComment (signatureOf "Carol" 1) (worldOn floatOnlyPage)
          = (inl CdError, worldOn floatOnlyPage)) as Hthrown.
  { apply (Hnone [mkPart 1 false]); [by vm_compute|].
    apply Forall_cons. split; [by vm_compute | constructor]. }
  split; [done|].
  destruct (Hfailed _ _ Hthrown) as (_ & w2 & Hbody & _ & Hrest).
  assert (w2 = worldOn floatOnlyPage) as ->.
  { vm_compute in Hbody. by injection Hbody. }
  done.
Defined.


(** C9 as it is written fails. A request for [<p>Hello. ~~~~</p>] that
    carries no global but the timestamp parser is handled by the worker
    just loaded with no comment built (the constructor finds no
    [cd.g.UNHIGHLIGHTABLE_ELEMENTS_CLASSES]), and an empty list is
    posted. The same worker, once it has had a request with the globals
    of the window, handles the same request again with the comment of
    Alice built: the globals of the other request are still there. *)
Lemma used_worker_parses_differently :
  posted init (Receive (bareRequest helloText)) = [parseMessage []] ∧
  comments (cd (step init (Receive (bareRequest helloText)))) = [] ∧
  posted (run [Receive (bareRequest helloText);
               Receive (parseRequest replyText)] init)
         (Receive (bareRequest helloText)) = [] ∧
  map authorName
      (comments (cd (step (run [Receive (bareRequest helloText);
                                Receive (parseRequest replyText)] init)
                          (Receive (bareRequest helloText)))))
  = ["Alice"].
Proof. split_and!; by vm_compute. Qed.

(** A page parsed again after itself, another page, an alarm and its
    expiry is handled as by the worker just loaded: the same (no)
    messages, the same comments. *)
Lemma parse_is_repeatable_witness :
  posted (run [Receive (parseRequest floatOnlyText);
               Receive (parseRequest helloText);
               Receive (setAlarmRequest 5000); Expire 0] init)
         (Receive (parseRequest floatOnlyText))
  = posted init (Receive (parseRequest floatOnlyText)) ∧
  comments (cd (step (run [Receive (parseRequest floatOnlyText);
                           Receive (parseRequest helloText);
                           Receive (setAlarmRequest 5000); Expire 0] init)
                     (Receive (parseRequest floatOnlyText))))
  = comments (cd (step init (Receive (parseRequest floatOnlyText)))) ∧
  map authorName
      (comments (cd (step init (Receive (parseRequest floatOnlyText)))))
  = ["Bob"; "Alice"].
Proof.
  assert ("TIMESTAMP_PARSER" ∈ dom (msg_g (parseRequest floatOnlyText)))
    as Hparser.
  { apply elem_of_dom. exists (VStr "(match) => match").
    reflexivity. }
  assert (Forall (sets_no_more (parseRequest floatOnlyText))
                 [Receive (parseRequest floatOnlyText);
                  Receive (parseRequest helloText);
                  Receive (setAlarmRequest 5000); Expire 0]) as Hevents.
  { apply Forall_cons. split; [simpl; intros _; reflexivity|].
    apply Forall_cons. split; [simpl; intros _; reflexivity|].
    apply Forall_cons. split; [simpl; intros [=]|].
    apply Forall_cons. split; [done | constructor]. }
  assert (reaches_parse (parseRequest floatOnlyText)) as Hreaches.
  { split; [done|]. exists VUndefined, (VObj 16), floatOnlyPage.
    split_and!; by vm_compute. }
  destruct (parse_is_repeatable (parseRequest floatOnlyText) init _
              Hparser Hevents) as (_ & Hposted & Hlists & _).
  destruct (Hlists Hreaches) as (Hcomments & _ & _).
  split; [exact Hposted|]. split; [exact Hcomments|]. by vm_compute.
Defined.



End WorkerExamples.
(** * Lemmas for the further properties *)

(** ** Marks on the document *)

Lemma updEl_returns el f w u w' :
  updEl el f w = (inr u, w') →
  ∃ e, rootElement (page w) !! el = Some e ∧
       w' = with_page (mkPage (<[el := f e]> (rootElement (page w)))
                              (commentAnchors (page w))) w.
Proof.
  unfold updEl. destruct (rootElement (page w) !! el) as [e|]; [|done].
  intros [= _ <-]. by exists e.
Qed.

Lemma keeps_updEl_has Q el x f :
  (∀ e, Q e → Q (f e)) → keeps (has_el Q el) (updEl x f).
Proof.
  intros HQ w (e & He & Hq). unfold updEl.
  destruct (rootElement (page w) !! x) as [ex|] eqn:Hx; simpl; [|by exists e].
  unfold has_el. simpl. destruct (decide (el = x)) as [->|Hne].
  - rewrite lookup_insert_eq. exists (f ex). split; [done|].
    apply HQ. congruence.
  - rewrite lookup_insert_ne by done. by exists e.
Qed.

Lemma updEl_has (Q : Element → Prop) x f w u w' :
  (∀ e, rootElement (page w) !! x = Some e → Q (f e)) →
  updEl x f w = (inr u, w') → has_el Q x w'.
Proof.
  intros HQ Hrun. apply updEl_returns in Hrun as (e & He & ->).
  exists (f e). simpl. rewrite lookup_insert_eq. split; [done|]. by apply HQ.
Qed.

Lemma keeps_forEach_in {A} (I : World → Prop) (l : list A) f :
  (∀ x, x ∈ l → keeps I (f x)) → keeps I (forEach l f).
Proof.
  induction l as [|x l IH]; intros Hf; simpl.
  - apply keeps_ret.
  - apply keeps_bind; [apply Hf; left | intros _].
    apply IH. intros y Hy. apply Hf. by right.
Qed.

(** A loop whose body establishes [P x] for its [x], and maintains it for
    the others, ends with [P] of them all. *)
Lemma forEach_establishes {A} (P : A → World → Prop) (f : A → M unit) l w w' :
  (∀ x y, keeps (P y) (f x)) →
  (∀ x w w', f x w = (inr (), w') → P x w') →
  forEach l f w = (inr (), w') → ∀ x, x ∈ l → P x w'.
Proof.
  intros Hkeep Hest. revert w. induction l as [|a l IH]; intros w Hrun x Hx.
  - by apply elem_of_nil in Hx.
  - simpl in Hrun. apply bind_returns in Hrun as ([] & w1 & Ha & Hl).
    apply elem_of_cons in Hx as [->|Hx]; [|by eapply IH].
    assert (keeps (P a) (forEach l f)) as Hk
      by (apply keeps_forEach; intros; apply Hkeep).
    specialize (Hk w1 (Hest _ _ _ Ha)). by rewrite Hl in Hk.
Qed.

Lemma hasClass_classList_add name n e :
  hasClass name e → hasClass name (classList_add n e).
Proof.
  unfold hasClass, classList_add. simpl. case_bool_decide; [done|].
  intros ?. apply elem_of_app. by left.
Qed.

Lemma hasClass_added name e : hasClass name (classList_add name e).
Proof.
  unfold hasClass, classList_add. simpl. case_bool_decide; [done|].
  apply elem_of_app. right. by left.
Qed.

Lemma hasClass_setAttribute name k v e :
  hasClass name e → hasClass name (setAttribute k v e).
Proof. done. Qed.

Lemma commentPart_classList_add this_id n e :
  commentPart this_id e → commentPart this_id (classList_add n e).
Proof. intros [? ?]. split; [by apply hasClass_classList_add | done]. Qed.

Lemma commentPart_setAttribute this_id e :
  commentPart this_id e →
  commentPart this_id (setAttribute "data-comment-id" (pretty this_id) e).
Proof. intros [? _]. split; [done|]. simpl. by rewrite lookup_insert_eq. Qed.

Lemma levelMarked_classList_add i n e :
  levelMarked i e → levelMarked i (classList_add n e).
Proof. intros [? ?]. split; by apply hasClass_classList_add. Qed.

Lemma markPart_keeps_class name this_id el x :
  keeps (has_el (hasClass name) el) (markPart this_id x).
Proof.
  apply keeps_bind; [|intros _]; apply keeps_updEl_has; intros e;
    [apply hasClass_classList_add | apply hasClass_setAttribute].
Qed.

Lemma markPart_keeps_part this_id el x :
  keeps (has_el (commentPart this_id) el) (markPart this_id x).
Proof.
  apply keeps_bind; [|intros _]; apply keeps_updEl_has; intros e;
    [apply commentPart_classList_add | apply commentPart_setAttribute].
Qed.

Lemma markPart_marks this_id x w w' :
  markPart this_id x w = (inr (), w') → has_el (commentPart this_id) x w'.
Proof.
  intros Hrun. apply bind_returns in Hrun as ([] & w1 & Hclass & Hattr).
  assert (has_el (hasClass "cd-commentPart") x w1) as (e1 & He1 & Hc).
  { eapply updEl_has; [|done]. intros e _. apply hasClass_added. }
  eapply updEl_has; [|done]. intros e He. split.
  - assert (e = e1) as -> by congruence. done.
  - simpl. by rewrite lookup_insert_eq.
Qed.

(** [addAttributes], when it returns, step by step. *)
Lemma addAttributes_returns this_anchor this_id els w w' :
  addAttributes this_anchor this_id els w = (inr (), w') →
  ∃ first rest e w1 w2 w3,
    els = first :: rest ∧
    rootElement (page w) !! first = Some e ∧
    (if bool_decide (this_anchor ≠ None ∧ this_anchor ≠ Some "") &&
        bool_decide (attribs e !! "id" = None ∨ attribs e !! "id" = Some "")
     then updEl first (setAttribute "id" (default "" this_anchor)) w
     else (inr (), w)) = (inr (), w1) ∧
    updEl first (classList_add "cd-commentPart-first") w1 = (inr (), w2) ∧
    updEl (List.last els first) (classList_add "cd-commentPart-last") w2
    = (inr (), w3) ∧
    forEach els (markPart this_id) w3 = (inr (), w').
Proof.
  unfold addAttributes. destruct els as [|first rest]; [done|].
  intros Hrun.
  apply bind_returns in Hrun as (e & w0 & Hget & Hrun).
  assert (rootElement (page w) !! first = Some e ∧ w0 = w) as [He ->].
  { unfold getEl in Hget. destruct (_ !! first); [|done].
    by injection Hget as <- <-. }
  apply bind_returns in Hrun as ([] & w1 & Hid & Hrun).
  apply bind_returns in Hrun as ([] & w2 & Hfirst & Hrun).
  apply bind_returns in Hrun as ([] & w3 & Hlast & Hrun).
  exists first, rest, e, w1, w2, w3. split_and!; try done.
  by destruct (_ && _).
Qed.

Lemma marked_from_refl names keys e : marked_from names keys e e.
Proof. split_and!; auto. Qed.

Lemma marked_from_trans names keys e1 e2 e3 :
  marked_from names keys e1 e2 → marked_from names keys e2 e3 →
  marked_from names keys e1 e3.
Proof.
  intros (Ht & Hp & Hc & Hin & Hout & Ha) (Ht' & Hp' & Hc' & Hin' & Hout' & Ha').
  split_and!; try congruence; auto.
  - intros name Hname. destruct (Hout' name Hname) as [?|?]; auto.
  - intros k Hk. rewrite Ha' by done. by apply Ha.
Qed.

Lemma marked_classList_add names keys n e :
  n ∈ names → marked_from names keys e (classList_add n e).
Proof.
  intros Hn. split_and!; try done.
  - intros name. apply hasClass_classList_add.
  - intros name. unfold classList_add. simpl. case_bool_decide; [by left|].
    intros [?|Hin]%elem_of_app; [by left|].
    apply list_elem_of_singleton in Hin as ->. by right.
Qed.

Lemma marked_setAttribute names keys k v e :
  k ∈ keys → marked_from names keys e (setAttribute k v e).
Proof.
  intros Hk. split_and!; try done; [by left|].
  intros k' Hk'. simpl. apply lookup_insert_ne. by intros ->.
Qed.

Lemma doc_marked_refl names keys touched d : doc_marked names keys touched d d.
Proof.
  intros el. split; [done|]. destruct (d !! el) as [e|] eqn:He; [|done].
  exists e. split; [done|]. apply marked_from_refl.
Qed.

Lemma doc_marked_insert names keys touched d d1 x e e' :
  doc_marked names keys touched d d1 → d1 !! x = Some e → x ∈ touched →
  marked_from names keys e e' →
  doc_marked names keys touched d (<[x := e']> d1).
Proof.
  intros Hd Hx Hin He el. destruct (Hd el) as [Hout Hel].
  destruct (decide (el = x)) as [->|Hne].
  - rewrite lookup_insert_eq. split; [done|].
    destruct (d !! x) as [e0|] eqn:H0.
    + destruct Hel as (e1 & He1 & Hm). exists e'. split; [done|].
      eapply marked_from_trans; [exact Hm|]. congruence.
    + congruence.
  - rewrite lookup_insert_ne by done. done.
Qed.

Lemma marks_only_refl names keys touched w : marks_only names keys touched w w.
Proof.
  split_and!; [by destruct w | done | apply doc_marked_refl].
Qed.

Lemma keeps_updEl_marks names keys touched w0 x f :
  x ∈ touched → (∀ e, marked_from names keys e (f e)) →
  keeps (marks_only names keys touched w0) (updEl x f).
Proof.
  intros Hx Hf w (Hw & Ha & Hd). unfold updEl.
  destruct (rootElement (page w) !! x) as [e|] eqn:He; simpl; [|done].
  split_and!; simpl; [|done|by eapply doc_marked_insert].
  rewrite Hw. by destruct w0.
Qed.

Lemma last_in {A} (x : A) (l : list A) : List.last (x :: l) x ∈ x :: l.
Proof.
  revert x. induction l as [|y l IH]; intros x; [by left|].
  right. change (List.last (y :: l) x ∈ y :: l).
  rewrite (last_of_cons y l x y). apply IH.
Qed.


Lemma keeps_updEl_idOf el v x f :
  (∀ e, attribs (f e) !! "id" = attribs e !! "id") →
  keeps (λ w, idOf w el = v) (updEl x f).
Proof.
  intros Hf w Hw. unfold updEl.
  destruct (rootElement (page w) !! x) as [e|] eqn:He; simpl; [|done].
  unfold idOf in *. simpl. destruct (decide (el = x)) as [->|Hne].
  - rewrite lookup_insert_eq. simpl. rewrite Hf. by rewrite He in Hw.
  - by rewrite lookup_insert_ne.
Qed.

Lemma nonEmpty_spec (s : option string) :
  nonEmpty s = bool_decide (s ≠ None ∧ s ≠ Some "").
Proof.
  destruct s as [s|]; simpl; repeat case_bool_decide; try done;
    intuition congruence.
Qed.

Lemma nonEmpty_negb (s : option string) :
  negb (nonEmpty s) = bool_decide (s = None ∨ s = Some "").
Proof.
  destruct s as [s|]; simpl; repeat case_bool_decide; try done;
    intuition congruence.
Qed.

(** ** The levels *)

Lemma addLevelClasses_keeps i t x j :
  keeps (has_el (levelMarked i) t) (addLevelClasses x j).
Proof.
  apply keeps_bind; [|intros _]; apply keeps_updEl_has; intros e;
    apply levelMarked_classList_add.
Qed.

Lemma addLevelClasses_marks t i w w' :
  addLevelClasses t i w = (inr (), w') → has_el (levelMarked i) t w'.
Proof.
  intros Hrun. apply bind_returns in Hrun as ([] & w1 & Hfirst & Hsecond).
  assert (has_el (hasClass "cd-commentLevel") t w1) as (e1 & He1 & Hc).
  { eapply updEl_has; [|done]. intros e _. apply hasClass_added. }
  eapply updEl_has; [|done]. intros e He. split.
  - assert (e = e1) as -> by congruence. by apply hasClass_classList_add.
  - apply hasClass_added.
Qed.

Lemma markLevel_keeps top bottom i t j :
  keeps (has_el (levelMarked i) t) (markLevel top bottom j).
Proof.
  apply keeps_bind; [|intros _].
  - destruct (top !! j); [apply addLevelClasses_keeps | apply keeps_ret].
  - destruct (bottom !! j); [|apply keeps_ret].
    case_bool_decide; [apply addLevelClasses_keeps | apply keeps_ret].
Qed.

Lemma markLevel_marks top bottom i w w' t b :
  markLevel top bottom i w = (inr (), w') →
  top !! i = Some t → bottom !! i = Some b →
  has_el (levelMarked i) t w' ∧ has_el (levelMarked i) b w'.
Proof.
  intros Hrun Ht Hb. unfold markLevel in Hrun. rewrite Ht, Hb in Hrun.
  apply bind_returns in Hrun as ([] & w1 & Htop & Hbottom).
  apply addLevelClasses_marks in Htop.
  case_bool_decide as Hsame.
  - split.
    + pose proof (addLevelClasses_keeps i t b i w1 Htop) as Hk.
      by rewrite Hbottom in Hk.
    + by apply addLevelClasses_marks in Hbottom.
  - injection Hbottom as <-.
    assert (b = t) as -> by (destruct (decide (b = t)); congruence).
    done.
Qed.

Section LevelFacts.
Context `{Parser}.

(** [setLevels], when it returns, step by step. *)
Lemma setLevels_loop els hs w lvl w' :
  setLevels els hs w = (inr lvl, w') →
  ∃ h0 top w1 bottom w2,
    head hs = Some h0 ∧
    liftOp (getLevelsUpTree h0 "top") w = (inr top, w1) ∧
    (if bool_decide (1 < length els)
     then liftOp (getLevelsUpTree (List.last hs h0) "bottom") w1
          = (inr bottom, w2)
     else bottom = top ∧ w2 = w1) ∧
    lvl = length top `min` length bottom ∧
    forEach (seq 0 lvl) (markLevel top bottom) w2 = (inr (), w').
Proof.
  unfold setLevels. destruct hs as [|h0 hs']; [done|].
  intros Hrun.
  apply bind_returns in Hrun as (top & w1 & Htop & Hrun).
  apply bind_returns in Hrun as (bottom & w2 & Hbottom & Hrun).
  apply bind_returns in Hrun as ([] & w3 & Hloop & Hret).
  injection Hret as <- <-.
  exists h0, top, w1, bottom, w2. split_and!; try done.
  destruct (bool_decide (1 < length els)); [done|].
  by injection Hbottom as <- <-.
Qed.

End LevelFacts.

(** ** The fields of a constructed comment *)

Lemma headingDepth_range tag n : Re.headingDepth tag = Some n → 1 ≤ n ≤ 6.
Proof.
  unfold Re.headingDepth. destruct tag as [|h t]; [done|].
  destruct (Ascii.ascii_dec h "H") as [->|Hne].
  - destruct t as [|d [|? ?]]; cbn; try done.
    case_bool_decide as Hd; [|done]. intros [= <-].
    rewrite !elem_of_cons in Hd.
    destruct Hd as [->|[->|[->|[->|[->|[->|Hd]]]]]]; [simpl; lia..|].
    by apply elem_of_nil in Hd.
  - destruct h as [[] [] [] [] [] [] [] []]; try done.
Qed.
(** * Further properties of the comment skeleton *)

(** X1. [addAttributes], when it returns, has marked the comment in the
    document: each of its elements has the class [cd-commentPart] and the
    attribute [data-comment-id] with the id of the comment, the first
    element has the class [cd-commentPart-first] and the last one
    [cd-commentPart-last]. Without elements it throws. *)
Theorem addAttributes_marks this_anchor this_id els w w' :
  addAttributes this_anchor this_id els w = (inr (), w') →
  ∃ first,
    head els = Some first ∧
    (∀ el, el ∈ els → has_el (commentPart this_id) el w') ∧
    has_el (hasClass "cd-commentPart-first") first w' ∧
    has_el (hasClass "cd-commentPart-last") (List.last els first) w'.
Proof.
  intros Hrun.
  apply addAttributes_returns in Hrun
    as (first & rest & e & w1 & w2 & w3 & -> & He & Hid & Hfirst & Hlast & Hloop).
  exists first. split; [done|].
  assert (∀ name el, keeps (has_el (hasClass name) el)
                           (forEach (first :: rest) (markPart this_id)))
    as Hkeep.
  { intros name el. apply keeps_forEach. intros x.
    apply markPart_keeps_class. }
  split_and!.
  - eapply forEach_establishes; [| |exact Hloop].
    + intros x y. apply markPart_keeps_part.
    + apply markPart_marks.
  - assert (has_el (hasClass "cd-commentPart-first") first w2) as H2.
    { eapply updEl_has; [|exact Hfirst]. intros ? _. apply hasClass_added. }
    assert (has_el (hasClass "cd-commentPart-first") first w3) as H3.
    { pose proof (keeps_updEl_has (hasClass "cd-commentPart-first") first
                    (List.last (first :: rest) first)
                    (classList_add "cd-commentPart-last")
                    (hasClass_classList_add _ _) w2 H2) as Hk.
      by rewrite Hlast in Hk. }
    specialize (Hkeep _ _ w3 H3). by rewrite Hloop in Hkeep.
  - assert (has_el (hasClass "cd-commentPart-last")
                   (List.last (first :: rest) first) w3) as H3.
    { eapply updEl_has; [|exact Hlast]. intros ? _. apply hasClass_added. }
    specialize (Hkeep _ _ w3 H3). by rewrite Hloop in Hkeep.
Qed.

(** X2. Whether it returns or throws, [addAttributes] does nothing but
    mark the elements of the comment: it leaves [cd], the timer, the
    messages and the anchor registry alone, adds and removes no element,
    and of an element it changes neither the tag nor the place in the
    tree; it removes no class, adds none but its three, and sets no
    attribute but [id] and [data-comment-id]. An element that is none of
    the comment's is as it was. *)
Theorem addAttributes_marks_only this_anchor this_id els w :
  marks_only partClasses partAttributes els w
             (addAttributes this_anchor this_id els w).2.
Proof.
  assert (keeps (marks_only partClasses partAttributes els w)
                (addAttributes this_anchor this_id els)) as Hkeeps.
  {
    unfold addAttributes. destruct els as [|first rest]; [apply keeps_throw|].
    apply keeps_bind; [apply keeps_getEl | intros e].
    apply keeps_bind; [|intros _].
    { destruct (_ && _); [|apply keeps_ret].
      apply keeps_updEl_marks; [by left|]. intros e'.
      apply marked_setAttribute. by left. }
    apply keeps_bind; [|intros _].
    { apply keeps_updEl_marks; [by left|]. intros e'.
      apply marked_classList_add. by left. }
    apply keeps_bind; [|intros _].
    { apply keeps_updEl_marks; [apply last_in|]. intros e'.
      apply marked_classList_add. right. by left. }
    apply keeps_forEach_in. intros x Hx.
    apply keeps_bind; [|intros _]; apply keeps_updEl_marks; try done; intros e'.
    - apply marked_classList_add. right. right. by left.
    - apply marked_setAttribute. right. by left.
  }
  apply Hkeeps, marks_only_refl.
Qed.

(** X3. [addAttributes] gives the anchor of the comment as [id] to the
    first element when the comment has an anchor and the element has no
    [id] of its own; every other [id] of the document, and an [id] the
    first element came with, is left as it is. *)
Theorem addAttributes_sets_id_once this_anchor this_id els w w' el :
  addAttributes this_anchor this_id els w = (inr (), w') →
  idOf w' el =
  if bool_decide (head els = Some el) && nonEmpty this_anchor
     && negb (nonEmpty (idOf w el))
  then this_anchor else idOf w el.
Proof.
  intros Hrun.
  apply addAttributes_returns in Hrun
    as (first & rest & e & w1 & w2 & w3 & -> & He & Hid & Hfirst & Hlast & Hloop).
  set (v := if bool_decide (head (first :: rest) = Some el)
               && nonEmpty this_anchor && negb (nonEmpty (idOf w el))
            then this_anchor else idOf w el).
  assert (idOf w1 el = v) as H1.
  { subst v. rewrite <- nonEmpty_spec, <- nonEmpty_negb in Hid. simpl.
    destruct (decide (first = el)) as [->|Hne].
    - rewrite bool_decide_eq_true_2 by done. simpl.
      assert (idOf w el = attribs e !! "id") as ->
        by (unfold idOf; by rewrite He).
      destruct (nonEmpty this_anchor && negb (nonEmpty (attribs e !! "id")))
        eqn:Hcond.
      + apply updEl_returns in Hid as (e' & He' & ->).
        unfold idOf. simpl. rewrite lookup_insert_eq. simpl.
        rewrite lookup_insert_eq. destruct this_anchor; [done|].
        by rewrite andb_false_l in Hcond.
      + injection Hid as <-. unfold idOf. by rewrite He.
    - rewrite bool_decide_eq_false_2 by congruence. simpl.
      destruct (_ && _).
      + apply updEl_returns in Hid as (e' & He' & ->).
        unfold idOf. simpl. by rewrite lookup_insert_ne.
      + by injection Hid as <-. }
  assert (idOf w2 el = v) as H2.
  { pose proof (keeps_updEl_idOf el v first
                  (classList_add "cd-commentPart-first") (λ _, eq_refl) w1 H1)
      as Hk. by rewrite Hfirst in Hk. }
  assert (idOf w3 el = v) as H3.
  { pose proof (keeps_updEl_idOf el v (List.last (first :: rest) first)
                  (classList_add "cd-commentPart-last") (λ _, eq_refl) w2 H2)
      as Hk. by rewrite Hlast in Hk. }
  assert (keeps (λ w, idOf w el = v) (forEach (first :: rest) (markPart this_id)))
    as Hk.
  { apply keeps_forEach. intros x.
    apply keeps_bind; [|intros _]; apply keeps_updEl_idOf; intros e'; [done|].
    simpl. by rewrite lookup_insert_ne. }
  specialize (Hk w3 H3). by rewrite Hloop in Hk.
Qed.

Section SkeletonExtras.
Context `{Parser}.

(** X4. [setLevels], when it returns the level [lvl], has marked the
    containers the two walks found: for each [i] below [lvl], the [i]-th
    container of the walk from the top and the [i]-th of the walk from
    the bottom are in the document with the classes [cd-commentLevel]
    and [cd-commentLevel-(i+1)]. *)
Theorem setLevels_marks els hs w lvl w' :
  setLevels els hs w = (inr lvl, w') →
  ∃ h0 top w1 bottom w2,
    head hs = Some h0 ∧
    liftOp (getLevelsUpTree h0 "top") w = (inr top, w1) ∧
    (if bool_decide (1 < length els)
     then liftOp (getLevelsUpTree (List.last hs h0) "bottom") w1
          = (inr bottom, w2)
     else bottom = top ∧ w2 = w1) ∧
    lvl = length top `min` length bottom ∧
    ∀ i, i < lvl →
      ∃ t b, top !! i = Some t ∧ bottom !! i = Some b ∧
             has_el (levelMarked i) t w' ∧ has_el (levelMarked i) b w'.
Proof.
  intros Hrun.
  apply setLevels_loop in Hrun
    as (h0 & top & w1 & bottom & w2 & Hh & Htop & Hbottom & -> & Hloop).
  exists h0, top, w1, bottom, w2. split_and!; try done.
  intros i Hi.
  destruct (lookup_lt_is_Some_2 top i) as [t Ht]; [lia|].
  destruct (lookup_lt_is_Some_2 bottom i) as [b Hb]; [lia|].
  exists t, b. split; [done|]. split; [done|].
  apply (forEach_establishes
           (λ i w, ∀ t b, top !! i = Some t → bottom !! i = Some b →
                          has_el (levelMarked i) t w ∧ has_el (levelMarked i) b w)
           (markLevel top bottom) (seq 0 (length top `min` length bottom))
           w2 w'); try done.
  - intros j k w0 Hw0 t' b' Ht' Hb'. destruct (Hw0 t' b' Ht' Hb').
    split; by apply markLevel_keeps.
  - intros j w0 w0' Hj t' b' Ht' Hb'. by eapply markLevel_marks.
  - apply elem_of_seq. lia.
Qed.

End SkeletonExtras.

Section OpeningSection.
Context `{Parser}.

(** X5. A constructed comment opens a section exactly when the first of
    the parts it keeps is a heading; the level of the section is then the
    digit of the tag [H1] to [H6] of that element, a number from 1 to 6,
    or none when the tag is no such tag. When of the collected parts only
    the first can be a heading, a comment that opens a section is at
    level 0 and has kept that first part. *)
Theorem opening_section_of_heading signature w parts0 w1 c w' :
  constructor_parts signature w = (inr parts0, w1) →
  constructor signature w = (inr c, w') →
  ∃ q0 ps,
    parts c = Some (q0 :: ps) ∧
    isOpeningSection c = isHeading q0 ∧
    (if isHeading q0
     then ∃ e, rootElement (page w') !! node q0 = Some e ∧
               openingSectionOfLevel c = Re.headingDepth (tagName e)
     else openingSectionOfLevel c = None) ∧
    (∀ n, openingSectionOfLevel c = Some n → 1 ≤ n ≤ 6) ∧
    (Forall (λ p, isHeading p = false) (tail parts0) →
     isOpeningSection c = true → level c = 0 ∧ head parts0 = Some q0).
Proof.
  intros Hparts Hrun.
  rewrite (constructor_unfold _ _ _ _ Hparts) in Hrun.
  destruct (constructor_body_fields _ _ _ _ _ Hrun)
    as (_ & _ & _ & _ & _ & _ & _ & _ & _ & _ & q0 & ps & Hps & Hopen & Hdepth).
  exists q0, ps. split_and!; try done.
  - intros n Hn. destruct (isHeading q0).
    + destruct Hdepth as (e & _ & He). rewrite He in Hn.
      by eapply headingDepth_range.
    + congruence.
  - intros Hrest Hopening. rewrite Hopening in Hopen.
    apply constructor_body_returns in Hrun
      as (hs & w2 & p0 & rest & -> & _ & _ & _ & _ & _ & _ & _ & Hp & _).
    simpl in Hp, Hrest. rewrite Hps in Hp. injection Hp as Hp.
    destruct (isHeading p0 && negb (level c =? 0)%nat) eqn:Hspliced.
    + exfalso. subst rest. apply Forall_cons in Hrest as [Hq _]. congruence.
    + injection Hp as <- <-. rewrite <- Hopen in Hspliced. simpl in Hspliced.
      apply negb_false_iff, Nat.eqb_eq in Hspliced. done.
Qed.

End OpeningSection.

(** * Further properties of the worker *)

Section ParseExtras.
Context `{Parser, Runtime}.

(** X8. However [parse] ends, the comments it leaves in [cd.comments]
    come from the signatures that [findSignatures] returned, in their
    order: the dates, timestamps, authors, anchors and unsigned marks of
    the comments are those of a subsequence of the signatures. Each
    comment is [own] exactly when its author is the current user of
    [cd.g], and none has a [section], a [targetComment], a
    [targetCommentAuthorName] or a [toMe]. *)
Theorem comments_follow_signatures w timestamps p1 signatures p2 :
  findTimestamps (cdAfresh w) (pageAfresh w) = (inr timestamps, p1) →
  findSignatures timestamps (cdAfresh w) p1 = (inr signatures, p2) →
  map signedAs (comments (cd (parse w).2))
    `sublist_of` map signatureData signatures ∧
  Forall (unlinked (g (cd w))) (comments (cd (parse w).2)).
Proof.
  intros Htimestamps Hsignatures.
  destruct (parse_first_loop w _ _ _ _ Htimestamps Hsignatures)
    as (w2 & Hcd & _ & _ & ->).
  pose proof (signatures_loop_returns signatures w2) as Hreturns.
  destruct (forEach signatures processSignature w2) as [[e|[]] w3] eqn:Hloop;
    [done|].
  apply first_loop_appends in Hloop as (built & Hcd3 & Hsub & Hall).
  simpl. rewrite Hcd3, Hcd. rewrite Hcd in Hall. done.
Qed.

(** X27. The comments that [parse] builds are never posted. The body of
    the third loop throws [TypeError] at its first statement, the call of
    [comment.getChildren], and leaves the world as it was. So [parse]
    returns only when [cd.comments] is empty, and the message it posts
    then holds the empty list; when it throws it posts nothing. Whatever
    the worker has received, every list of comments it has posted is
    empty. *)
Theorem comments_are_never_posted :
  (∀ comment w, identifyReplies comment w = (inl TypeError, w)) ∧
  (∀ w, match parse w with
        | (inr _, w') =>
            comments (cd w') = [] ∧
            outbox w' = outbox w ++ [parseMessage []]
        | (inl _, w') => outbox w' = outbox w
        end) ∧
  (∀ evs cs, parseMessage cs ∈ outbox (run evs init) → cs = []).
Proof.
  split_and!.
  - intros comment w. apply identifyReplies_throws.
  - intros w. pose proof (parse_posts (outbox w) w eq_refl) as Hposts.
    destruct (parse w) as [[e|[]] w']; [done|].
    destruct Hposts as [Hout Hnone]. split; [done|]. by rewrite Hout, Hnone.
  - apply posted_comments_none.
Qed.

End ParseExtras.

Section EventExtras.
Context `{Parser, Runtime}.

(** X11. A message whose type is none of [setAlarm], [removeAlarm] and
    [parse] is ignored: but for the notice of the first message, the
    worker is as it was, and nothing is posted. *)
Theorem unknown_message_is_ignored message w :
  msg_type message ≠ "setAlarm" → msg_type message ≠ "removeAlarm" →
  msg_type message ≠ "parse" →
  step w (Receive message) = noticed w ∧
  posted w (Receive message) = [] ∧
  (firstRun w = false → step w (Receive message) = w).
Proof.
  intros Hset Hremove Hparse.
  assert (step w (Receive message) = noticed w) as Hstep.
  { unfold step. simpl. rewrite onMessageFromWindow_unfold. cbv zeta.
    by rewrite !bool_decide_eq_false_2. }
  split; [done|]. split.
  - apply posted_of_outbox. rewrite Hstep, noticed_outbox.
    by rewrite app_nil_r.
  - intros Hfirst. rewrite Hstep. unfold noticed. by rewrite Hfirst.
Qed.

End EventExtras.

Section AlarmExtras.
Context `{Parser, Runtime}.


(** The test [/^.+=>/] on an arrow function, on a method, and on texts
    whose first line ends before the arrow. *)
Lemma arrowAfter_lines :
  Re.arrowAfter "(node) => node.hidden" = true ∧
  Re.arrowAfter "check(node) { return node.hidden }" = false ∧
  Re.arrowAfter ("a" +:+ Re.lineFeed +:+ "=> 1") = false ∧
  Re.arrowAfter ("a" +:+ Re.lineSeparator +:+ "=> 1") = false ∧
  Re.arrowAfter ("a" +:+ Re.paragraphSeparator +:+ "=> 1") = false.
Proof. by split_and!. Qed.

(** X13. The checker that the worker hands to [eval] for a parse
    request: a checker that is missing or falsy is handed over as it
    is; a string that is handed over is empty, or begins with
    [function] and a space (after spaces), or has [=>] after at least one
    character and before any line terminator (LF, CR, U+2028 or U+2029).
    So a checker written as a method ([check(node) {...}]) is turned into
    a function expression. *)
Theorem checker_is_function_source message :
  truthy (checkerOf message)
  = truthy (default VUndefined
              (msg_config message !! "checkForCustomForeignComponents")) ∧
  match checkerOf message with
  | VStr s => s = "" ∨ Re.functionHead s || Re.arrowAfter s = true
  | v => v = default VUndefined
               (msg_config message !! "checkForCustomForeignComponents")
  end.
Proof.
  unfold checkerOf.
  set (checker := default VUndefined
                    (msg_config message !! "checkForCustomForeignComponents")).
  destruct (truthy checker && negb (Re.functionHead (toString checker))
            && negb (Re.arrowAfter (toString checker))) eqn:Hcond.
  - apply andb_true_iff in Hcond as [[Htruthy _]%andb_true_iff _].
    rewrite Htruthy. split; [by destruct (toString checker)|].
    right. by rewrite functionHead_prefixed.
  - split; [done|]. destruct checker as [|b|z|s|l|o]; try done.
    destruct (decide (s = "")) as [->|Hne]; [by left | right].
    simpl in Hcond. rewrite (bool_decide_eq_false_2 (s = "")) in Hcond by done.
    by destruct (Re.functionHead s), (Re.arrowAfter s).
Qed.

(** X15. The [removeAlarm] that [navPanel.reset] sends before its
    [setAlarm] changes nothing for the worker: the two messages leave it
    as the [setAlarm] alone would, with one alarm of the interval asked
    for when at most one was pending. *)
Theorem reset_leaves_one_alarm checkInterval w :
  run (map Receive (NavPanel.resetMessages checkInterval)) w
  = step w (Receive (NavPanel.setAlarmViaWorker (checkInterval * 1000))) ∧
  (alarm_held w →
   pendingAlarms (run (map Receive (NavPanel.resetMessages checkInterval)) w)
   = [(checkInterval * 1000)%Z]).
Proof.
  assert (run (map Receive (NavPanel.resetMessages checkInterval)) w
          = step w (Receive (NavPanel.setAlarmViaWorker (checkInterval * 1000))))
    as Hrun.
  { unfold run, NavPanel.resetMessages. simpl.
    rewrite (step_removeAlarm NavPanel.removeAlarmViaWorker w eq_refl).
    unfold step. simpl. rewrite !onMessageFromWindow_unfold. cbv zeta.
    simpl. pose proof (noticed_alarm w) as Hn. injection Hn as Ha Ht Hnext.
    assert (firstRun (noticed w) = false) as Hfirst
      by apply noticed_firstRun.
    destruct (noticed w) as [c p f a t n o l d]. simpl in *.
    subst f. rewrite Ha.
    destruct (alarmTimeout w) as [i|]; unfold noticed; simpl; [|done].
    unfold setAlarm, with_alarm. simpl. by rewrite delete_delete_eq. }
  split; [done|]. intros Hw. rewrite Hrun.
  destruct (step_setAlarm (NavPanel.setAlarmViaWorker (checkInterval * 1000))
              w eq_refl Hw) as (Ht & _).
  unfold pendingAlarms. rewrite Ht. by rewrite map_to_list_singleton.
Qed.

End AlarmExtras.

(** * Properties of the utilities *)

Lemma relativeIndex_le len i : Util.relativeIndex len i ≤ len.
Proof. unfold Util.relativeIndex. case_match; lia. Qed.

Lemma relativeIndex_nat len (k : nat) :
  Util.relativeIndex len (Z.of_nat k) = k `min` len.
Proof.
  unfold Util.relativeIndex.
  destruct (Z.ltb_spec (Z.of_nat k) 0); lia.
Qed.

Lemma slice_from {A} (arr : list A) start :
  Util.slice arr start None
  = drop (Util.relativeIndex (length arr) start) arr.
Proof.
  unfold Util.slice. cbv zeta. apply take_ge. rewrite length_drop. lia.
Qed.

Lemma slice_upto {A} (arr : list A) final :
  Util.slice arr 0 (Some final)
  = take (Util.relativeIndex (length arr) final) arr.
Proof.
  unfold Util.slice. cbv zeta.
  change (Util.relativeIndex (length arr) 0) with (Z.to_nat (Z.min 0 (Z.of_nat (length arr)))).
  replace (Z.to_nat (Z.min 0 (Z.of_nat (length arr)))) with 0 by lia.
  by rewrite Nat.sub_0_r.
Qed.

(** The array rotated to begin at [k]. *)
Lemma reorderArray_rotation {A} (arr : list A) startIndex reverse :
  Util.reorderArray arr startIndex reverse
  = if reverse
    then rev (drop (Util.relativeIndex (length arr) (startIndex + 1)) arr
              ++ take (Util.relativeIndex (length arr) (startIndex + 1)) arr)
    else drop (Util.relativeIndex (length arr) startIndex) arr
         ++ take (Util.relativeIndex (length arr) startIndex) arr.
Proof.
  unfold Util.reorderArray. by rewrite !slice_from, !slice_upto.
Qed.

Lemma reorderArray_length {A} (arr : list A) startIndex reverse :
  length (Util.reorderArray arr startIndex reverse) = length arr.
Proof.
  rewrite reorderArray_rotation.
  pose proof (relativeIndex_le (length arr) startIndex).
  pose proof (relativeIndex_le (length arr) (startIndex + 1)).
  destruct reverse; rewrite ?length_rev, length_app, length_drop, length_take;
    lia.
Qed.

(** X16. [reorderArray] reorders: whatever the start index (beyond the
    array, negative, counted from the end) and the direction, the result
    has the elements of the array, each as many times; so it has its
    length. *)
Theorem reorderArray_permutes {A} (arr : list A) startIndex reverse :
  Util.reorderArray arr startIndex reverse ≡ₚ arr ∧
  length (Util.reorderArray arr startIndex reverse) = length arr.
Proof.
  assert (Util.reorderArray arr startIndex reverse ≡ₚ arr) as Hperm.
  { rewrite reorderArray_rotation. destruct reverse.
    - rewrite <- Permutation_rev, Permutation_app_comm.
      by rewrite take_drop.
    - by rewrite Permutation_app_comm, take_drop. }
  split; [done|]. by rewrite Hperm.
Qed.

Lemma mod_wrap (x len : nat) : len ≤ x < 2 * len → x mod len = x - len.
Proof.
  intros Hx. symmetry. apply (Nat.mod_unique x len 1); lia.
Qed.

Lemma rev_lookup {A} (l : list A) i :
  i < length l → rev l !! i = l !! (length l - S i).
Proof.
  intros Hi. rewrite rev_alt. change (rev_append l []) with (reverse l).
  by apply reverse_lookup.
Qed.

Lemma reorderArray_lookup {A} (arr : list A) (startIndex i : nat) :
  startIndex < length arr → i < length arr →
  Util.reorderArray arr (Z.of_nat startIndex) false !! i
  = arr !! ((startIndex + i) mod length arr) ∧
  Util.reorderArray arr (Z.of_nat startIndex) true !! i
  = arr !! ((startIndex + length arr - i) mod length arr).
Proof.
  intros Hk Hi. rewrite !reorderArray_rotation.
  replace (Z.of_nat startIndex + 1)%Z with (Z.of_nat (S startIndex)) by lia.
  rewrite !relativeIndex_nat.
  replace (startIndex `min` length arr) with startIndex by lia.
  replace (S startIndex `min` length arr) with (S startIndex) by lia.
  split.
  - destruct (decide (startIndex + i < length arr)) as [Hin|Hout].
    + rewrite lookup_app_l by (rewrite length_drop; lia).
      rewrite lookup_drop. by rewrite Nat.mod_small.
    + rewrite lookup_app_r by (rewrite length_drop; lia).
      rewrite length_drop, lookup_take_lt by lia.
      rewrite mod_wrap by lia. f_equal. lia.
  - rewrite rev_app_distr.
    destruct (decide (i ≤ startIndex)) as [Hin|Hout].
    + rewrite lookup_app_l by (rewrite length_rev, length_take; lia).
      rewrite rev_lookup by (rewrite length_take; lia).
      rewrite length_take, lookup_take_lt by lia.
      rewrite mod_wrap by lia. f_equal. lia.
    + rewrite lookup_app_r by (rewrite length_rev, length_take; lia).
      rewrite length_rev, length_take.
      rewrite rev_lookup by (rewrite length_drop; lia).
      rewrite length_drop, lookup_drop.
      rewrite Nat.mod_small by lia. f_equal. lia.
Qed.

(** X17. The order that [reorderArray] gives, for a start index within
    the array: the element at [i] of the result is the element of the
    array [i] places after the start index, around the end of the array,
    and [i] places before it when the order is reversed. Either way the
    result begins with the element at the start index. *)
Theorem reorderArray_order {A} (arr : list A) (startIndex i : nat) :
  startIndex < length arr → i < length arr →
  Util.reorderArray arr (Z.of_nat startIndex) false !! i
  = arr !! ((startIndex + i) mod length arr) ∧
  Util.reorderArray arr (Z.of_nat startIndex) true !! i
  = arr !! ((startIndex + length arr - i) mod length arr) ∧
  head (Util.reorderArray arr (Z.of_nat startIndex) false)
  = arr !! startIndex ∧
  head (Util.reorderArray arr (Z.of_nat startIndex) true)
  = arr !! startIndex.
Proof.
  intros Hk Hi.
  destruct (reorderArray_lookup arr startIndex i Hk Hi) as [Hnext Hprevious].
  destruct (reorderArray_lookup arr startIndex 0 Hk ltac:(lia))
    as [Hfirst Hlast].
  rewrite Nat.add_0_r, Nat.mod_small in Hfirst by done.
  rewrite Nat.sub_0_r, mod_wrap in Hlast by lia.
  replace (startIndex + length arr - length arr) with startIndex in Hlast
    by lia.
  split_and!; [done|done|..]; by rewrite head_lookup.
Qed.

Section Unique.
Context `{EqDecision A}.

Lemma indexOfFrom_notin (pre l : list A) item i :
  item ∉ pre →
  Util.indexOfFrom (pre ++ l) item i
  = Util.indexOfFrom l item (i + Z.of_nat (length pre)).
Proof.
  revert i. induction pre as [|x pre IH]; intros i Hpre; simpl.
  - f_equal. lia.
  - apply not_elem_of_cons in Hpre as [Hne Hpre].
    rewrite decide_False by done. rewrite IH by done. f_equal. lia.
Qed.

Lemma indexOfFrom_in (pre l : list A) item i :
  item ∈ pre →
  (i ≤ Util.indexOfFrom (pre ++ l) item i < i + Z.of_nat (length pre))%Z.
Proof.
  revert i. induction pre as [|x pre IH]; intros i Hpre; simpl.
  - by apply elem_of_nil in Hpre.
  - destruct (decide (x = item)) as [->|Hne]; [lia|].
    apply elem_of_cons in Hpre as [->|Hpre]; [done|].
    specialize (IH (i + 1)%Z Hpre). lia.
Qed.

(** At its own place in the array, an item passes [unique] when it has
    not occurred before. *)
Lemma unique_at (pre rest : list A) item :
  Util.unique item (length pre) (pre ++ item :: rest)
  = bool_decide (item ∉ pre).
Proof.
  unfold Util.unique, Util.indexOf. apply bool_decide_ext. split.
  - intros Hindex Hin.
    pose proof (indexOfFrom_in pre (item :: rest) item 0 Hin). lia.
  - intros Hout. rewrite indexOfFrom_notin by done. simpl.
    rewrite decide_True by done. lia.
Qed.

Lemma filterFrom_unique (pre l : list A) :
  let r := Util.filterFrom Util.unique (pre ++ l) (length pre) l in
  NoDup r ∧ (∀ x, x ∈ r ↔ x ∈ l ∧ x ∉ pre) ∧ r `sublist_of` l ∧
  (NoDup (pre ++ l) → r = l).
Proof.
  revert pre. induction l as [|x l IH]; intros pre; simpl.
  - split_and!; [constructor| |done|done].
    intros x. split; [by intros ?%elem_of_nil | by intros [?%elem_of_nil _]].
  - rewrite unique_at.
    specialize (IH (pre ++ [x])).
    rewrite <- app_assoc, length_app, Nat.add_1_r in IH. simpl in IH.
    destruct IH as (Hnodup & Hin & Hsub & Hsame).
    assert (∀ y, y ∉ (pre ++ [x]) ↔ (y ∉ pre) ∧ y ≠ x) as Hseen.
    { intros y. rewrite elem_of_app, list_elem_of_singleton. tauto. }
    case_bool_decide as Hx.
    + split_and!.
      * constructor; [|done]. rewrite Hin, Hseen. tauto.
      * intros y. rewrite !elem_of_cons, Hin, Hseen.
        destruct (decide (y = x)) as [->|Hne]; tauto.
      * by apply sublist_skip.
      * intros Hall. f_equal. by apply Hsame.
    + split_and!.
      * done.
      * intros y. rewrite elem_of_cons, Hin, Hseen.
        destruct (decide (y = x)) as [->|Hne]; tauto.
      * by apply sublist_cons.
      * intros Hall. exfalso. apply NoDup_app in Hall as (_ & Hdisjoint & _).
        apply (Hdisjoint x Hx). by left.
Qed.

(** X18. [arr.filter(unique)] removes the duplicates: the result has no
    element twice, has the elements of the array and no other, in the
    order of the array; an array without duplicates is returned as it is,
    so filtering twice is filtering once. *)
Theorem filter_unique_removes_duplicates (arr : list A) :
  NoDup (Util.filter Util.unique arr) ∧
  (∀ x, x ∈ Util.filter Util.unique arr ↔ x ∈ arr) ∧
  Util.filter Util.unique arr `sublist_of` arr ∧
  Util.filter Util.unique (Util.filter Util.unique arr)
  = Util.filter Util.unique arr.
Proof.
  destruct (filterFrom_unique [] arr) as (Hnodup & Hin & Hsub & _).
  split_and!; try done.
  - intros x. rewrite (Hin x). split; [tauto|]. intros Hx. split; [done|].
    apply not_elem_of_nil.
  - by apply (filterFrom_unique [] (Util.filter Util.unique arr)).
Qed.

End Unique.

Lemma findLastIndexFrom_spec {A} (arr : list A) callback n :
  n ≤ length arr →
  match Util.findLastIndexFrom arr callback n with
  | Some i =>
      i < n ∧ (∃ x, arr !! i = Some x ∧ callback x = true) ∧
      ∀ j x, i < j < n → arr !! j = Some x → callback x = false
  | None => ∀ j x, j < n → arr !! j = Some x → callback x = false
  end.
Proof.
  induction n as [|n IH]; intros Hn; simpl; [intros; lia|].
  destruct (arr !! n) as [x|] eqn:Hx.
  - destruct (callback x) eqn:Hcb.
    + split; [lia|]. split; [by exists x|]. intros; lia.
    + specialize (IH ltac:(lia)).
      destruct (Util.findLastIndexFrom arr callback n) as [i|].
      * destruct IH as (Hi & Hfound & Hlater). split; [lia|]. split; [done|].
        intros j y Hj Hy. destruct (decide (j = n)) as [->|Hne];
          [congruence | apply (Hlater j); [lia | done]].
      * intros j y Hj Hy. destruct (decide (j = n)) as [->|Hne];
          [congruence | apply (IH j); [lia | done]].
  - apply lookup_ge_None in Hx. lia.
Qed.

(** X19. [findLastIndex] returns the last index whose element passes
    the callback: the element at the index passes, and no later element
    does; it returns [null] exactly when no element of the array
    passes. *)
Theorem findLastIndex_is_last {A} (arr : list A) callback :
  (∀ i, Util.findLastIndex arr callback = Some i ↔
        (∃ x, arr !! i = Some x ∧ callback x = true) ∧
        ∀ j x, i < j → arr !! j = Some x → callback x = false) ∧
  (Util.findLastIndex arr callback = None ↔
   Forall (λ x, callback x = false) arr).
Proof.
  pose proof (findLastIndexFrom_spec arr callback (length arr) (le_n _))
    as Hspec.
  unfold Util.findLastIndex.
  destruct (Util.findLastIndexFrom arr callback (length arr)) as [i0|].
  - destruct Hspec as (Hi0 & (x0 & Hx0 & Hcb0) & Hlater). split.
    + intros i. split.
      * intros [= <-]. split; [by exists x0|].
        intros j x Hj Hx. apply (Hlater j); [|done].
        split; [done|]. by eapply lookup_lt_Some.
      * intros [(x & Hx & Hcb) Hnone]. f_equal.
        destruct (Nat.lt_trichotomy i0 i) as [Hlt|[Heq|Hgt]]; [|done|].
        -- assert (callback x = false); [|congruence].
           apply (Hlater i); [|done]. split; [done|].
           by eapply lookup_lt_Some.
        -- assert (callback x0 = false); [|congruence]. by apply (Hnone i0).
    + split; [done|]. intros Hall. exfalso.
      rewrite Forall_lookup in Hall. specialize (Hall i0 x0 Hx0). congruence.
  - split.
    + intros i. split; [done|]. intros [(x & Hx & Hcb) _]. exfalso.
      assert (callback x = false); [|congruence].
      apply (Hspec i); [|done]. by eapply lookup_lt_Some.
    + split; [|done]. intros _. apply Forall_lookup. intros j x Hx.
      apply (Hspec j); [|done]. by eapply lookup_lt_Some.
Qed.

(** ** Strings *)

Lemma replaceAll_oneChar a b s :
  Util.replaceAll (Util.oneChar a) (String b "") 0 s = mapChar a b s.
Proof.
  induction s as [|c s IH]; [done|]. simpl.
  case_bool_decide; simpl; by rewrite IH.
Qed.

Lemma mapChar_length a b s : String.length (mapChar a b s) = String.length s.
Proof. induction s as [|c s IH]; [done|]. simpl. by rewrite IH. Qed.

Lemma mapChar_gone a b s : a ≠ b → hasChar a (mapChar a b s) = false.
Proof.
  intros Hne. induction s as [|c s IH]; [done|]. simpl. rewrite IH.
  rewrite orb_false_r. repeat case_bool_decide; congruence.
Qed.

Lemma mapChar_absent a b s : hasChar a s = false → mapChar a b s = s.
Proof.
  induction s as [|c s IH]; [done|]. simpl.
  intros [Hc Hs]%orb_false_iff. rewrite IH by done.
  by rewrite Hc.
Qed.

Lemma mapChar_back a b s : mapChar a b (mapChar b a s) = mapChar a b s.
Proof.
  induction s as [|c s IH]; [done|]. simpl. rewrite IH. f_equal.
  repeat case_bool_decide; congruence.
Qed.

Lemma mapChar_round a b s :
  hasChar b s = false → mapChar b a (mapChar a b s) = s.
Proof.
  induction s as [|c s IH]; [done|]. simpl.
  intros [Hc Hs]%orb_false_iff. rewrite IH by done. f_equal.
  apply bool_decide_eq_false in Hc.
  repeat case_bool_decide; congruence.
Qed.

(** X20. [underlinesToSpaces] and [spacesToUnderlines] keep the length
    of the string and leave no underline, or no space, in it. Turning
    the spaces into underlines after the underlines into spaces is
    turning the spaces into underlines, and the other way round; a string
    without underlines comes back from underlines as it was, and one
    without spaces from spaces. *)
Theorem underlines_and_spaces s :
  String.length (Util.underlinesToSpaces s) = String.length s ∧
  String.length (Util.spacesToUnderlines s) = String.length s ∧
  hasChar "_" (Util.underlinesToSpaces s) = false ∧
  hasChar " " (Util.spacesToUnderlines s) = false ∧
  Util.spacesToUnderlines (Util.underlinesToSpaces s)
  = Util.spacesToUnderlines s ∧
  Util.underlinesToSpaces (Util.spacesToUnderlines s)
  = Util.underlinesToSpaces s ∧
  (hasChar "_" s = false →
   Util.underlinesToSpaces (Util.spacesToUnderlines s) = s) ∧
  (hasChar " " s = false →
   Util.spacesToUnderlines (Util.underlinesToSpaces s) = s).
Proof.
  unfold Util.underlinesToSpaces, Util.spacesToUnderlines.
  rewrite !replaceAll_oneChar. split_and!.
  - apply mapChar_length.
  - apply mapChar_length.
  - by apply mapChar_gone.
  - by apply mapChar_gone.
  - apply mapChar_back.
  - apply mapChar_back.
  - apply mapChar_round.
  - apply mapChar_round.
Qed.

Lemma skipSpaces_run s : Util.spaceRun (Re.skipSpaces s) = 0.
Proof.
  induction s as [|c s IH]; [done|].
  destruct (Ascii.ascii_dec c " ") as [->|Hne]; [done|].
  destruct c as [[] [] [] [] [] [] [] []]; done.
Qed.

Lemma skipSpaces_none s : Util.spaceRun s = 0 → Re.skipSpaces s = s.
Proof.
  destruct s as [|c s]; [done|].
  destruct (Ascii.ascii_dec c " ") as [->|Hne]; [done|].
  destruct c as [[] [] [] [] [] [] [] []]; done.
Qed.

Lemma skipSpaces_length s :
  String.length (Re.skipSpaces s) ≤ String.length s.
Proof.
  induction s as [|c s IH]; [done|].
  destruct (Ascii.ascii_dec c " ") as [->|Hne]; [simpl; lia|].
  destruct c as [[] [] [] [] [] [] [] []]; simpl; lia.
Qed.

(** Inside a run of spaces that is being replaced, the rest of the run
    is passed over. *)
Lemma replaceAll_skip s :
  Util.replaceAll Util.twoSpaces " " (Util.spaceRun s) s
  = Util.replaceAll Util.twoSpaces " " 0 (Re.skipSpaces s).
Proof.
  induction s as [|c s IH]; [done|].
  destruct (Ascii.ascii_dec c " ") as [->|Hne]; [exact IH|].
  destruct c as [[] [] [] [] [] [] [] []]; done.
Qed.

(** [removeDoubleSpaces], character by character: after a space the
    spaces that follow are left out. *)
Lemma removeDoubleSpaces_cons c s :
  Util.removeDoubleSpaces (String c s)
  = String c (Util.removeDoubleSpaces
                (if bool_decide (c = " "%char) then Re.skipSpaces s else s)).
Proof.
  unfold Util.removeDoubleSpaces.
  destruct (Ascii.ascii_dec c " ") as [->|Hne].
  - rewrite bool_decide_eq_true_2 by done.
    change (Util.replaceAll Util.twoSpaces " " 0 (String " " s))
      with (match Util.twoSpaces (String " " s) with
            | S k => " " +:+ Util.replaceAll Util.twoSpaces " " k s
            | 0 => String " " (Util.replaceAll Util.twoSpaces " " 0 s)
            end).
    unfold Util.twoSpaces. cbn [Util.spaceRun].
    case_bool_decide as Hrun.
    + by rewrite replaceAll_skip.
    + rewrite skipSpaces_none by lia. done.
  - rewrite bool_decide_eq_false_2 by done.
    destruct c as [[] [] [] [] [] [] [] []]; done.
Qed.

Lemma removeDoubleSpaces_spec n s :
  String.length s ≤ n →
  hasDoubleSpace (Util.removeDoubleSpaces s) = false ∧
  Util.spaceRun (Util.removeDoubleSpaces s) ≤ Util.spaceRun s `min` 1 ∧
  String.length (Util.removeDoubleSpaces s) ≤ String.length s.
Proof.
  revert s. induction n as [|n IH]; intros s Hn.
  { destruct s; [done | simpl in Hn; lia]. }
  destruct s as [|c s]; [done|]. rewrite removeDoubleSpaces_cons.
  destruct (Ascii.ascii_dec c " ") as [->|Hne].
  - rewrite bool_decide_eq_true_2 by done.
    destruct (IH (Re.skipSpaces s)) as (Hnone & Hrun & Hlen).
    { pose proof (skipSpaces_length s). simpl in Hn. lia. }
    rewrite skipSpaces_run in Hrun.
    pose proof (skipSpaces_length s) as Hskip.
    split_and!; [|simpl; lia|simpl; lia].
    unfold hasDoubleSpace in *. simpl. rewrite Hnone, orb_false_r.
    destruct (Util.removeDoubleSpaces (Re.skipSpaces s)) as [|c' r]; [done|].
    destruct (Ascii.ascii_dec c' " ") as [->|Hne']; [simpl in Hrun; lia|].
    destruct c' as [[] [] [] [] [] [] [] []]; done.
  - rewrite bool_decide_eq_false_2 by done.
    destruct (IH s) as (Hnone & Hrun & Hlen); [simpl in Hn; lia|].
    split_and!; [| |simpl; lia].
    + unfold hasDoubleSpace in *. simpl. rewrite Hnone, orb_false_r.
      destruct c as [[] [] [] [] [] [] [] []]; done.
    + destruct c as [[] [] [] [] [] [] [] []]; first [done | simpl; lia].
Qed.

Lemma removeDoubleSpaces_id s :
  hasDoubleSpace s = false → Util.removeDoubleSpaces s = s.
Proof.
  induction s as [|c s IH]; [done|].
  unfold hasDoubleSpace. simpl. intros [Hhead Hs]%orb_false_iff.
  rewrite removeDoubleSpaces_cons.
  destruct (Ascii.ascii_dec c " ") as [->|Hne].
  - rewrite bool_decide_eq_true_2 by done.
    rewrite skipSpaces_none, IH; [done..|].
    destruct s as [|c' s]; [done|].
    destruct (Ascii.ascii_dec c' " ") as [->|Hne']; [by destruct s|].
    destruct c' as [[] [] [] [] [] [] [] []]; done.
  - rewrite bool_decide_eq_false_2 by done. by rewrite IH.
Qed.

(** X21. [removeDoubleSpaces] leaves no two spaces in a row and
    lengthens nothing; a string without two spaces in a row is returned
    as it is, so doing it twice is doing it once. *)
Theorem removeDoubleSpaces_leaves_single_spaces s :
  hasDoubleSpace (Util.removeDoubleSpaces s) = false ∧
  String.length (Util.removeDoubleSpaces s) ≤ String.length s ∧
  (hasDoubleSpace s = false → Util.removeDoubleSpaces s = s) ∧
  Util.removeDoubleSpaces (Util.removeDoubleSpaces s)
  = Util.removeDoubleSpaces s.
Proof.
  destruct (removeDoubleSpaces_spec (String.length s) s (le_n _))
    as (Hnone & _ & Hlen).
  split_and!; [done|done|apply removeDoubleSpaces_id|].
  by apply removeDoubleSpaces_id.
Qed.

(** X22. [isProbablyTalkPage]: a page that the black list matches is no
    talk page; a page of an odd, positive namespace is one unless the
    black list matches it; the remainder of a negative number is never
    1, so a page of a negative namespace is one only by the white list
    or the custom namespaces; and when there is a white list the custom
    namespaces count for nothing. *)
Theorem isProbablyTalkPage_lists whiteList blackList custom pageName ns :
  (∀ test, blackList = Some test → test pageName = true →
           Util.isProbablyTalkPage whiteList blackList custom pageName ns
           = false) ∧
  ((0 < ns)%Z → Z.odd ns = true →
   Util.isProbablyTalkPage whiteList blackList custom pageName ns
   = negb match blackList with
          | Some test => test pageName
          | None => false
          end) ∧
  ((ns < 0)%Z →
   Util.isProbablyTalkPage whiteList blackList custom pageName ns
   = match whiteList with
     | Some test => test pageName
     | None => bool_decide (ns ∈ custom)
     end
     && negb match blackList with
             | Some test => test pageName
             | None => false
             end) ∧
  (∀ test custom', whiteList = Some test →
     Util.isProbablyTalkPage whiteList blackList custom pageName ns
     = Util.isProbablyTalkPage whiteList blackList custom' pageName ns).
Proof.
  unfold Util.isProbablyTalkPage. split_and!.
  - intros test -> ->. simpl. apply andb_false_r.
  - intros Hpos Hodd. rewrite bool_decide_eq_true_2; [done|].
    rewrite Z.rem_mod_nonneg by lia. rewrite Zmod_odd, Hodd. done.
  - intros Hneg. rewrite bool_decide_eq_false_2.
    + destruct whiteList; simpl; by rewrite ?orb_false_r.
    + pose proof (Z.rem_nonpos ns 2 ltac:(lia) ltac:(lia)). lia.
  - by intros test custom' ->.
Qed.

(** * Properties of the navigation panel *)

Lemma find_Some_lookup {A} (p : A → bool) (l : list A) c :
  List.find p l = Some c ↔
  ∃ d, l !! d = Some c ∧ p c = true ∧
       ∀ d' c', d' < d → l !! d' = Some c' → p c' = false.
Proof.
  induction l as [|x l IH]; simpl.
  - split; [done|]. by intros (d & Hd & _).
  - destruct (p x) eqn:Hx.
    + split.
      * intros [= <-]. exists 0. split; [done|]. split; [done|]. intros; lia.
      * intros (d & Hd & Hc & Hbefore). destruct d as [|d]; [done|].
        specialize (Hbefore 0 x ltac:(lia) eq_refl). congruence.
    + rewrite IH. split.
      * intros (d & Hd & Hc & Hbefore). exists (S d).
        split; [done|]. split; [done|].
        intros [|d'] c' Hlt Hc'; [by injection Hc' as <-|].
        apply (Hbefore d'); [lia | done].
      * intros (d & Hd & Hc & Hbefore). destruct d as [|d].
        { injection Hd as ->. congruence. }
        exists d. split; [done|]. split; [done|].
        intros d' c' Hlt Hc'. apply (Hbefore (S d')); [lia | done].
Qed.

(** X23. The comment that [goToNextNewComment] scrolls to is the nearest
    wanted comment from the comment found in the viewport onwards, going
    round the end of the page to its beginning, and that of
    [goToPreviousNewComment] the nearest one backwards, going round the
    beginning; the comment found is itself the first candidate. *)
Theorem next_new_comment_is_nearest {A} (wanted : A → bool)
    (cd_comments : list A) (foundId : nat) (c : A) :
  foundId < length cd_comments →
  (NavPanel.nextNewComment wanted cd_comments foundId = Some c ↔
   ∃ d, d < length cd_comments ∧
        cd_comments !! ((foundId + d) mod length cd_comments) = Some c ∧
        wanted c = true ∧
        ∀ d' c', d' < d →
          cd_comments !! ((foundId + d') mod length cd_comments) = Some c' →
          wanted c' = false) ∧
  (NavPanel.previousNewComment wanted cd_comments foundId = Some c ↔
   ∃ d, d < length cd_comments ∧
        cd_comments !! ((foundId + length cd_comments - d)
                        mod length cd_comments) = Some c ∧
        wanted c = true ∧
        ∀ d' c', d' < d →
          cd_comments !! ((foundId + length cd_comments - d')
                          mod length cd_comments) = Some c' →
          wanted c' = false).
Proof.
  intros Hfound.
  unfold NavPanel.nextNewComment, NavPanel.previousNewComment.
  rewrite !find_Some_lookup.
  assert (∀ reverse d (x : A),
            Util.reorderArray cd_comments (Z.of_nat foundId) reverse !! d
            = Some x → d < length cd_comments) as Hwithin.
  { intros reverse d x Hd. apply lookup_lt_Some in Hd.
    by rewrite reorderArray_length in Hd. }
  split; split.
  - intros (d & Hd & Hc & Hbefore).
    pose proof (Hwithin _ _ _ Hd) as Hlt. exists d.
    rewrite (proj1 (reorderArray_lookup _ _ _ Hfound Hlt)) in Hd.
    split_and!; try done. intros d' c' Hd' Hc'. apply (Hbefore d'); [done|].
    by rewrite (proj1 (reorderArray_lookup cd_comments foundId d' Hfound
                         ltac:(lia))).
  - intros (d & Hlt & Hd & Hc & Hbefore). exists d.
    rewrite (proj1 (reorderArray_lookup _ _ _ Hfound Hlt)).
    split_and!; try done. intros d' c' Hd' Hc'. apply (Hbefore d'); [done|].
    by rewrite (proj1 (reorderArray_lookup cd_comments foundId d' Hfound
                         ltac:(lia))) in Hc'.
  - intros (d & Hd & Hc & Hbefore).
    pose proof (Hwithin _ _ _ Hd) as Hlt. exists d.
    rewrite (proj2 (reorderArray_lookup _ _ _ Hfound Hlt)) in Hd.
    split_and!; try done. intros d' c' Hd' Hc'. apply (Hbefore d'); [done|].
    by rewrite (proj2 (reorderArray_lookup cd_comments foundId d' Hfound
                         ltac:(lia))).
  - intros (d & Hlt & Hd & Hc & Hbefore). exists d.
    rewrite (proj2 (reorderArray_lookup _ _ _ Hfound Hlt)).
    split_and!; try done. intros d' c' Hd' Hc'. apply (Hbefore d'); [done|].
    by rewrite (proj2 (reorderArray_lookup cd_comments foundId d' Hfound
                         ltac:(lia))) in Hc'.
Qed.

Lemma cleanupFrom_spec (visits : list Z) oldest n :
  n ≤ length visits →
  ∃ i, NavPanel.cleanupFrom visits oldest n = drop i visits ∧
       (i = 0 ∨ i < n ∧ ∃ visit, visits !! i = Some visit ∧ (visit < oldest)%Z) ∧
       ∀ j visit, i < j < n → visits !! j = Some visit → (oldest ≤ visit)%Z.
Proof.
  induction n as [|n IH]; intros Hn; simpl.
  { exists 0. split; [done|]. split; [by left|]. intros; lia. }
  destruct (visits !! n) as [visit|] eqn:Hvisit;
    [|apply lookup_ge_None in Hvisit; lia].
  destruct (Z.ltb_spec visit oldest) as [Hold|Hrecent].
  - exists n. split; [done|]. split; [right; split; [lia|by exists visit]|].
    intros; lia.
  - destruct (IH ltac:(lia)) as (i & Hdrop & Hi & Hlater).
    exists i. split; [done|]. split.
    + destruct Hi as [->|[Hlt Hold]]; [by left | right; split; [lia|done]].
    + intros j v Hj Hv. destruct (decide (j = n)) as [->|Hne];
        [congruence | apply (Hlater j); [lia | done]].
Qed.

(** X24. The cleanup of the visits in [processVisits] splices off the
    visits before the latest one that is older than the interval for
    highlighting: that visit stays, as the first, and every visit after
    it is within the interval. So visits that are all within the
    interval stay as they are, and visits are never cleaned up to
    nothing. *)
Theorem cleanup_keeps_latest_old_visit thisPageVisits currentUnixTime interval :
  ∃ dropped,
    thisPageVisits
    = dropped ++ NavPanel.cleanup thisPageVisits currentUnixTime interval ∧
    Forall (λ visit, (currentUnixTime - 60 * interval ≤ visit)%Z)
           (tail (NavPanel.cleanup thisPageVisits currentUnixTime interval)) ∧
    (dropped ≠ [] →
     ∃ visit,
       head (NavPanel.cleanup thisPageVisits currentUnixTime interval)
       = Some visit ∧ (visit < currentUnixTime - 60 * interval)%Z) ∧
    (thisPageVisits ≠ [] →
     NavPanel.cleanup thisPageVisits currentUnixTime interval ≠ []).
Proof.
  unfold NavPanel.cleanup.
  destruct (cleanupFrom_spec thisPageVisits
              (currentUnixTime - 60 * interval) (length thisPageVisits)
              (le_n _)) as (i & -> & Hi & Hlater).
  exists (take i thisPageVisits). split_and!.
  - by rewrite take_drop.
  - apply Forall_lookup. intros j visit Hj.
    rewrite lookup_tail, lookup_drop in Hj.
    apply (Hlater (i + S j)); [|done].
    split; [lia|]. by eapply lookup_lt_Some.
  - intros Hdropped. destruct Hi as [->|[_ (visit & Hvisit & Hold)]]; [done|].
    exists visit. split; [|done].
    rewrite <- (Nat.add_0_r i) in Hvisit. rewrite <- lookup_drop in Hvisit.
    by destruct (drop i thisPageVisits).
  - intros Hvisits Hnone.
    destruct Hi as [->|[Hlt _]]; [done|].
    apply (f_equal length) in Hnone. rewrite length_drop in Hnone.
    simpl in Hnone. lia.
Qed.

Lemma markComment_kept first latest memorized comment :
  nonEmpty (NavPanel.pc_newness
              (NavPanel.markComment first latest memorized comment).1)
  = (NavPanel.markComment first latest memorized comment).2 ∧
  NavPanel.pc_date (NavPanel.markComment first latest memorized comment).1
  = NavPanel.pc_date comment.
Proof.
  unfold NavPanel.markComment.
  destruct (NavPanel.pc_date comment) as [date|] eqn:Hdate; [|done].
  cbv zeta. destruct (first <? NavPanel.unixTime date)%Z; [|done].
  split; [|done]. simpl. by destruct (_ || _).
Qed.

Lemma unseen_is_new (cd_comments : list NavPanel.PageComment) :
  NavPanel.unseenCount cd_comments ≤ NavPanel.newCount cd_comments.
Proof.
  unfold NavPanel.unseenCount, NavPanel.newCount.
  induction cd_comments as [|comment cs IH]; [done|]. simpl.
  case_bool_decide as Hunseen; [|destruct (nonEmpty _); simpl; lia].
  rewrite Hunseen. simpl. lia.
Qed.

(** X25. When there is an earlier visit, [processVisits] marks every
    comment anew, and [fill] then counts as new exactly the comments
    that [processVisits] has kept as [newComments]; these are among the
    comments, in their order, and each has a date. Of any comments, the
    unseen ones that [fill] counts are no more than the new ones. *)
Theorem new_comments_are_counted first rest memorized
    (cd_comments : list NavPanel.PageComment) :
  NavPanel.newCount (NavPanel.markNew (first :: rest) memorized cd_comments).1
  = length (NavPanel.markNew (first :: rest) memorized cd_comments).2 ∧
  length (NavPanel.markNew (first :: rest) memorized cd_comments).1
  = length cd_comments ∧
  (NavPanel.markNew (first :: rest) memorized cd_comments).2
  `sublist_of` (NavPanel.markNew (first :: rest) memorized cd_comments).1 ∧
  Forall (λ comment, NavPanel.pc_date comment ≠ None)
         (NavPanel.markNew (first :: rest) memorized cd_comments).2 ∧
  NavPanel.unseenCount
    (NavPanel.markNew (first :: rest) memorized cd_comments).1
  ≤ NavPanel.newCount
      (NavPanel.markNew (first :: rest) memorized cd_comments).1.
Proof.
  split_and!; [..|apply unseen_is_new];
    unfold NavPanel.markNew, NavPanel.newCount; cbv zeta;
    cbn [fst snd];
    set (mark := NavPanel.markComment first (List.last (first :: rest) first)
                                      memorized).
  - induction cd_comments as [|comment cs IH]; [done|]. cbn [map List.filter].
    destruct (markComment_kept first (List.last (first :: rest) first)
                memorized comment) as [Hkept _].
    fold mark in Hkept. rewrite Hkept.
    destruct (mark comment).2; simpl; by rewrite IH.
  - by rewrite !length_map.
  - induction cd_comments as [|comment cs IH]; [done|]. cbn [map List.filter].
    destruct (mark comment).2; simpl;
      [by apply sublist_skip | by apply sublist_cons].
  - induction cd_comments as [|comment cs IH]; [done|]. cbn [map List.filter].
    destruct (mark comment).2 eqn:Hkept; [|done].
    simpl. constructor; [|done].
    subst mark. unfold NavPanel.markComment in *.
    destruct (NavPanel.pc_date comment) as [date|] eqn:Hdate; [|done].
    cbv zeta in *. destruct (first <? NavPanel.unixTime date)%Z; simpl;
      congruence.
Qed.

Lemma filterFrom_spec {A} (callback : A → nat → list A → bool) arr pos rest :
  Util.filterFrom callback arr pos rest `sublist_of` rest ∧
  ∀ x, x ∈ Util.filterFrom callback arr pos rest →
       ∃ j, rest !! j = Some x ∧ callback x (pos + j) arr = true.
Proof.
  revert pos. induction rest as [|item rest IH]; intros pos; simpl.
  - split; [done|]. by intros x ?%elem_of_nil.
  - destruct (IH (S pos)) as [Hsub Hin].
    assert (∀ x, x ∈ Util.filterFrom callback arr (S pos) rest →
                 ∃ j, (item :: rest) !! j = Some x
                      ∧ callback x (pos + j) arr = true) as Hrest.
    { intros x (j & Hj & Hcb)%Hin. exists (S j). split; [done|].
      by rewrite Nat.add_succ_r. }
    destruct (callback item pos arr) eqn:Hitem.
    + split; [by apply sublist_skip|].
      intros x [->|Hx]%elem_of_cons; [|by apply Hrest].
      exists 0. by rewrite Nat.add_0_r.
    + split; [by apply sublist_cons | done].
Qed.

(** X26. Of the revisions that the API returns, [checkForNewComments]
    never takes the first one (the revision it asked from) for a new
    comment, whatever its size and summary; each revision it takes comes
    after another one, is no minor edit, differs from the one before it
    by [bytesToDeemComment] or more, and has no summary of a comment
    edit; the ids are taken in the order of the revisions. *)
Theorem first_revision_is_never_new bytes editOfReply editOfAddition
    revisions :
  NavPanel.addedNewRevisions bytes editOfReply editOfAddition revisions
  `sublist_of` map NavPanel.revid (tail revisions) ∧
  ∀ id, id ∈ NavPanel.addedNewRevisions bytes editOfReply editOfAddition
                                        revisions →
    ∃ i previous revision,
      revisions !! i = Some previous ∧ revisions !! S i = Some revision ∧
      NavPanel.revid revision = id ∧ NavPanel.rev_minor revision = false ∧
      (bytes ≤ Z.abs (NavPanel.rev_size revision
                      - NavPanel.rev_size previous))%Z ∧
      Util.isCommentEdit editOfReply editOfAddition
                         (NavPanel.rev_comment revision) = false.
Proof.
  unfold NavPanel.addedNewRevisions, Util.filter.
  destruct revisions as [|first rest]; [split; [done|]; by intros id ?%elem_of_nil|].
  cbn [Util.filterFrom Nat.eqb negb andb tail].
  match goal with
  | |- context [Util.filterFrom ?f _ _ _] => set (callback := f)
  end.
  destruct (filterFrom_spec callback (first :: rest) 1 rest) as [Hsub Hin].
  split; [by apply fmap_sublist|].
  intros id (revision & -> & Hrevision)%list_elem_of_fmap.
  destruct (Hin revision Hrevision) as (j & Hj & Hcb).
  subst callback. cbn beta in Hcb.
  replace (1 + j - 1) with j in Hcb by lia.
  apply andb_true_iff in Hcb as [[[_ Hminor]%andb_true_iff Hsize]%andb_true_iff
                                   Hedit].
  destruct ((first :: rest) !! j) as [previous|] eqn:Hprevious.
  - exists j, previous, revision. split_and!; try done.
    + by apply negb_true_iff.
    + by apply Z.leb_le.
    + by apply negb_true_iff.
  - apply lookup_ge_None in Hprevious. apply lookup_lt_Some in Hj.
    simpl in Hprevious. lia.
Qed.

(** * The further properties on the pages of the examples *)

Section ExtraExamples.
Import SpecParser Examples.

(** The two elements of the comment of the page
    [<div style="float: right">Box</div><p>Text ~~~~</p>] are marked. *)
Lemma addAttributes_marks_witness :
  ∃ w',
    addAttributes (Some "Bob|10:00") 0 [1; 2] (worldOn floatPage)
    = (inr (), w') ∧
    has_el (commentPart 0) 1 w' ∧ has_el (commentPart 0) 2 w' ∧
    has_el (hasClass "cd-commentPart-first") 1 w' ∧
    has_el (hasClass "cd-commentPart-last") 2 w'.
Proof.
  destruct (addAttributes (Some "Bob|10:00") 0 [1; 2] (worldOn floatPage))
    as [[e|[]] w'] eqn:Hrun; [by vm_compute in Hrun|].
  exists w'. split; [done|].
  destruct (addAttributes_marks _ _ _ _ _ Hrun)
    as (first & Hhead & Hall & Hfirst & Hlast).
  injection Hhead as <-.
  split_and!; [apply Hall; by left | apply Hall; right; by left | done..].
Defined.

(** The first element of that comment has no [id]: it is given the
    anchor; the second one is given none. *)
Lemma addAttributes_sets_id_once_witness :
  ∃ w',
    addAttributes (Some "Bob|10:00") 0 [1; 2] (worldOn floatPage)
    = (inr (), w') ∧
    idOf w' 1 = Some "Bob|10:00" ∧ idOf w' 2 = None.
Proof.
  destruct (addAttributes (Some "Bob|10:00") 0 [1; 2] (worldOn floatPage))
    as [[e|[]] w'] eqn:Hrun; [by vm_compute in Hrun|].
  exists w'. split; [done|].
  rewrite (addAttributes_sets_id_once _ _ _ _ _ 1 Hrun).
  rewrite (addAttributes_sets_id_once _ _ _ _ _ 2 Hrun).
  split; by vm_compute.
Defined.

(** On the page [<h2>Topic</h2><dl><dd>Reply ~~~~</dd></dl>] the list
    above the reply is marked as the container of level 1. *)
Lemma setLevels_marks_witness :
  ∃ w',
    setLevels [3] [3] (worldOn replyPage) = (inr 1, w') ∧
    has_el (levelMarked 0) 2 w'.
Proof.
  destruct (setLevels [3] [3] (worldOn replyPage)) as [[e|lvl] w'] eqn:Hrun;
    [by vm_compute in Hrun|].
  assert (lvl = 1) as ->.
  { vm_compute in Hrun. by injection Hrun as <- _. }
  exists w'. split; [done|].
  destruct (setLevels_marks _ _ _ _ _ Hrun)
    as (h0 & top & w1 & bottom & w2 & Hhead & Htop & _ & _ & Hmarked).
  injection Hhead as <-.
  destruct (Hmarked 0 (le_n 1)) as (t & b & Ht & _ & Hmark & _).
  vm_compute in Htop. injection Htop as <- _.
  by injection Ht as <-.
Defined.

(** The comment of the page [<h2>Topic</h2><p>Text ~~~~</p>] opens the
    section of level 2, at level 0. *)
Lemma opening_section_of_heading_witness :
  ∃ c w',
    constructor (signatureOf "Bob" 2) (worldOn openingPage) = (inr c, w') ∧
    isOpeningSection c = true ∧ level c = 0 ∧
    parts c = Some [mkPart 1 true; mkPart 2 false].
Proof.
  destruct (constructor (signatureOf "Bob" 2) (worldOn openingPage))
    as [[e|c] w'] eqn:Hrun; [by vm_compute in Hrun|].
  exists c, w'. split; [done|].
  assert (constructor_parts (signatureOf "Bob" 2) (worldOn openingPage)
          = (inr [mkPart 1 true; mkPart 2 false], worldOn openingPage))
    as Hparts by (vm_compute; reflexivity).
  destruct (opening_section_of_heading _ _ _ _ _ _ Hparts Hrun)
    as (q0 & ps & Hps & Hopen & _ & _ & Hlevel).
  vm_compute in Hrun. injection Hrun as <- <-.
  injection Hps as <- <-.
  split; [done|]. split; [|done].
  apply Hlevel; [|done]. apply Forall_cons. split; [done | constructor].
Defined.

(** On the page with the floated box, two of the three signatures give
    a comment, the second and the third, in that order; the handling
    ends with the exception of the third loop, and the two comments are
    in [cd.comments]. *)
Lemma comments_follow_signatures_witness :
  ∃ signatures,
    map sig_authorName signatures = ["Carol"; "Bob"; "Alice"] ∧
    (parse (worldOn floatOnlyPage)).1 = inl TypeError ∧
    map authorName (comments (cd (parse (worldOn floatOnlyPage)).2))
    = ["Bob"; "Alice"] ∧
    map signedAs (comments (cd (parse (worldOn floatOnlyPage)).2))
      `sublist_of` map signatureData signatures.
Proof.
  destruct (findTimestamps (cdAfresh (worldOn floatOnlyPage))
                           (pageAfresh (worldOn floatOnlyPage)))
    as [[e|timestamps] p1] eqn:Htimestamps; [by vm_compute in Htimestamps|].
  destruct (findSignatures timestamps (cdAfresh (worldOn floatOnlyPage)) p1)
    as [[e|signatures] p2] eqn:Hsignatures.
  { vm_compute in Htimestamps. injection Htimestamps as <- <-.
    by vm_compute in Hsignatures. }
  exists signatures.
  destruct (comments_follow_signatures _ _ _ _ _ Htimestamps Hsignatures)
    as [Hsub _].
  vm_compute in Htimestamps. injection Htimestamps as <- <-.
  vm_compute in Hsignatures. injection Hsignatures as <- _.
  split; [done|]. split; [by vm_compute|]. split; [by vm_compute|done].
Defined.

(** On that page the message of the worker would hold two comments: the
    handling of the request posts nothing. *)
Lemma comments_are_never_posted_witness :
  identifyReplies 0 (worldOn floatOnlyPage)
  = (inl TypeError, worldOn floatOnlyPage) ∧
  outbox (parse (worldOn floatOnlyPage)).2 = [] ∧
  length (comments (cd (parse (worldOn floatOnlyPage)).2)) = 2.
Proof.
  destruct comments_are_never_posted as (Hthrows & Hparse & _).
  split; [apply Hthrows|].
  specialize (Hparse (worldOn floatOnlyPage)).
  destruct (parse (worldOn floatOnlyPage)) as [[e|[]] w'] eqn:Hrun.
  - split; [exact Hparse|]. vm_compute in Hrun. by injection Hrun as <- <-.
  - by vm_compute in Hrun.
Defined.

(** A message of a type that the worker does not know. *)
Lemma unknown_message_is_ignored_witness :
  step init (Receive (mkWindowMessage "ping" 0 "" ∅ ∅)) = noticed init ∧
  posted init (Receive (mkWindowMessage "ping" 0 "" ∅ ∅)) = [].
Proof.
  destruct (unknown_message_is_ignored (mkWindowMessage "ping" 0 "" ∅ ∅) init)
    as (Hstep & Hposted & _); [done..|].
  by split.
Defined.

End ExtraExamples.

(** The examples of the documentation of [reorderArray]:
    [[0, 1, 2, 3]] from 2 on is [[2, 3, 0, 1]], and reversed
    [[2, 1, 0, 3]]. *)
Lemma reorderArray_order_witness :
  Util.reorderArray [0; 1; 2; 3] 2 false !! 1 = Some 3 ∧
  Util.reorderArray [0; 1; 2; 3] 2 true !! 1 = Some 1 ∧
  Util.reorderArray [0; 1; 2; 3] 2 false = [2; 3; 0; 1] ∧
  Util.reorderArray [0; 1; 2; 3] 2 true = [2; 1; 0; 3].
Proof.
  destruct (reorderArray_order [0; 1; 2; 3] 2 1)
    as (Hnext & Hprevious & _ & _); [simpl; lia..|].
  split; [exact Hnext|]. split; [exact Hprevious|]. by split.
Defined.

(** Of four comments the second and the fourth are wanted, and the third
    is in the viewport: the next one is the fourth, and going on from the
    fourth the second, round the end of the page. *)
Lemma next_new_comment_is_nearest_witness :
  NavPanel.nextNewComment (λ c, bool_decide (c.2 = "new"))
    [(0, ""); (1, "new"); (2, ""); (3, "new")] 2 = Some (3, "new") ∧
  NavPanel.previousNewComment (λ c, bool_decide (c.2 = "new"))
    [(0, ""); (1, "new"); (2, ""); (3, "new")] 2 = Some (1, "new").
Proof.
  destruct (next_new_comment_is_nearest (λ c, bool_decide (c.2 = "new"))
              [(0, ""); (1, "new"); (2, ""); (3, "new")] 2 (3, "new"))
    as [[_ Hnext] _]; [simpl; lia|].
  destruct (next_new_comment_is_nearest (λ c, bool_decide (c.2 = "new"))
              [(0, ""); (1, "new"); (2, ""); (3, "new")] 2 (1, "new"))
    as [_ [_ Hprevious]]; [simpl; lia|].
  split.
  - apply Hnext. exists 1. split_and!; [simpl; lia|done|done|].
    intros d' c' Hd' Hc'. assert (d' = 0) as -> by lia.
    by injection Hc' as <-.
  - apply Hprevious. exists 1. split_and!; [simpl; lia|done|done|].
    intros d' c' Hd' Hc'. assert (d' = 0) as -> by lia.
    by injection Hc' as <-.
Defined.

